(** * ezbson: a shallow embedding of the BSON encoder and decoder

    The development follows [serialize.go] and [deserialize.go].  Go values
    are modelled by a small universe of reflected types ([rtype]) and values
    ([value]); byte buffers are lists of bytes; a Go [map[string]T] is an
    association list whose order stands for the (unspecified) iteration
    order of the map; errors are an inductive type with one constructor per
    [fmt.Errorf] site; a run-time panic is a result of its own. *)

From Stdlib Require Import ZArith List Bool Lia Arith.
From Stdlib Require Import Strings.Byte.
From Stdlib Require Strings.String.
From Stdlib Require Import Sorting.Permutation Sorting.Sorted.
Import ListNotations.
Import String.StringSyntax.
Delimit Scope string_scope with string.

Set Warnings "-register-all".
Local Open Scope Z_scope.

(** ** Bytes and strings *)

(** A Go [string] is a sequence of bytes. *)
Definition gostring := list byte.

Definition str (s : String.string) : gostring := String.list_byte_of_string s.
Arguments str s%_string.

Definition byte_val (b : byte) : Z := Z.of_N (Byte.to_N b).

Definition byte_of_Z (z : Z) : byte :=
  match Byte.of_N (Z.to_N (z mod 256)) with
  | Some b => b
  | None => x00
  end.

Definition gostring_eqb (a b : gostring) : bool :=
  if list_eq_dec Byte.byte_eq_dec a b then true else false.

(** Byte-wise lexicographic order, the order of Go's [<] on strings. *)
Fixpoint string_ltb (a b : gostring) : bool :=
  match a, b with
  | [], [] => false
  | [], _ :: _ => true
  | _ :: _, [] => false
  | x :: a', y :: b' =>
      if byte_val x <? byte_val y then true
      else if byte_val y <? byte_val x then false
      else string_ltb a' b'
  end.

Definition string_leb (a b : gostring) : bool := negb (string_ltb b a).

(** ** Fixed-width little-endian integers *)

Definition kEtypeSize : Z := 1.
Definition kSubtypeSize : Z := 1.
Definition kInt8Size : Z := 1.
Definition kInt32Size : Z := 4.
Definition kInt64Size : Z := 8.
Definition kFloat64Size : Z := 8.

Definition MaxInt32 : Z := 2147483647.

(** Two's complement wrap-around of a conversion to [int32] and [int64]. *)
Definition wrap32 (z : Z) : Z := (z + 2^31) mod 2^32 - 2^31.
Definition wrap64 (z : Z) : Z := (z + 2^63) mod 2^64 - 2^63.

Definition in_int32 (z : Z) : Prop := - 2^31 <= z < 2^31.
Definition in_int64 (z : Z) : Prop := - 2^63 <= z < 2^63.
Definition in_uint64 (z : Z) : Prop := 0 <= z < 2^64.

(** [binary.LittleEndian] writes the least significant byte first. *)
Fixpoint le_bytes (n : nat) (z : Z) : list byte :=
  match n with
  | O => []
  | S n' => byte_of_Z z :: le_bytes n' (z / 256)
  end.

Fixpoint le_unsigned (bs : list byte) : Z :=
  match bs with
  | [] => 0
  | b :: bs' => byte_val b + 256 * le_unsigned bs'
  end.

(** ** Errors

    One constructor per error site of the package; the wrappers are the
    [%w] verbs of [fmt.Errorf]. *)
Inductive error : Type :=
  | ErrNot64bit                     (* ezbson only supports 64bit architecture *)
  | ErrUnsupportedType              (* getEtype: unsupported type %T *)
  | ErrByteSliceTooBig              (* appendAny: byte slice too big *)
  | ErrStringTooLong                (* appendAny: string too long *)
  | ErrSizeTooBig                   (* appendMap: size of marshalled buffer too big *)
  | ErrOnlyMapString                (* only map[string]... is supported *)
  | ErrUnableToSerialize            (* appendOther: unable to serialize %T *)
  | ErrNullInEname                  (* validateEname: null bytes not allowed in enames *)
  | ErrMarshalTopLevel              (* Marshal: at the top-level, only maps and structs *)
  | ErrNotPointer                   (* Unmarshal: ptr must be a pointer *)
  | ErrUnmarshalTopLevel            (* Unmarshal: only structs or maps at the top level *)
  | ErrNotConsumed (numread len : Z)(* Unmarshal: did not consume all bytes *)
  | ErrSizeMismatch (expected actual : Z) (* expected size does not match actual size *)
  | ErrFieldNotFound (ename : gostring)   (* readStruct: field {%v} not found *)
  | ErrCannotConvert (et : Z)       (* validateEtypeCanBeDeserializeToRtype *)
  | ErrCannotDeserializeDocument    (* cannot deserialize a document into {%v} *)
  | ErrCannotDeserializeSlice       (* cannot deserialize a slice into {%v} *)
  | ErrUnsupportedEtype (et : Z)    (* unsupported etype %v *)
  | ErrCannotConvertInt64           (* readEvalue: cannot convert etype int64 to %t *)
  | ErrUnsupportedTarget            (* readEvalue: unsupported type %v *)
  | ErrShortRead (want got : Z)     (* expected to read %v bytes, but read %v *)
  | ErrNullTerminator               (* readEstring: expected null terminator *)
  | ErrBadBoolean (b : Z)           (* readBoolean: unexpected value read *)
  | EOF                             (* io.EOF *)
  | ErrUnexpectedEOF                (* io.ErrUnexpectedEOF *)
  | WrapKey (key : gostring) (e : error)     (* key %v: %w *)
  | WrapField (ename : gostring) (e : error) (* field {%v}: %w *)
  | WrapReadBoolean (e : error)              (* readBoolean: %w *)
  | WrapMarshal (e : error)                  (* ezbson.Marshal: %w *)
  | WrapUnmarshal (e : error).               (* ezbson.Unmarshal: %w *)

(** [errors.Unwrap] iterated: the error at the bottom of the [%w] chain. *)
Fixpoint cause (e : error) : error :=
  match e with
  | WrapKey _ e' | WrapField _ e' | WrapReadBoolean e'
  | WrapMarshal e' | WrapUnmarshal e' => cause e'
  | _ => e
  end.

(** ** Element types *)

Definition kEtypeDone : Z := 0x00.
Definition kEtypeDouble : Z := 0x01.
Definition kEtypeString : Z := 0x02.
Definition kEtypeDocument : Z := 0x03.
Definition kEtypeArray : Z := 0x04.
Definition kEtypeBinary : Z := 0x05.
Definition kEtypeBoolean : Z := 0x08.
Definition kEtypeUtcDatetime : Z := 0x09.
Definition kEtypeInt32 : Z := 0x10.
Definition kEtypeInt64 : Z := 0x12.

Definition kBinarySubtype : byte := x00.
Definition kNullTerminator : byte := x00.

(** ** Reflected types and values

    [rtype] is the part of [reflect.Type] the package looks at.  [TUint8]
    stands for the element type of [[]byte] and is the representative of
    the kinds the package does not support.  Named types are not modelled,
    and struct types have exported fields only (the package documents that
    unexported fields make [reflect] panic). *)
Inductive rtype : Type :=
  | TFloat64
  | TString
  | TBool
  | TTime
  | TInt32
  | TInt64
  | TInt
  | TUint8
  | TInterface                              (* any *)
  | TMap (key elem : rtype)
  | TSlice (elem : rtype)
  | TStruct (fields : list (gostring * rtype))
  | TPtr (elem : rtype).

Inductive rkind : Type :=
  | KFloat64 | KString | KBool | KInt32 | KInt64 | KInt | KUint8
  | KInterface | KMap | KSlice | KStruct | KPointer.

Definition Kind (t : rtype) : rkind :=
  match t with
  | TFloat64 => KFloat64
  | TString => KString
  | TBool => KBool
  | TTime => KStruct         (* time.Time is a struct type *)
  | TInt32 => KInt32
  | TInt64 => KInt64
  | TInt => KInt
  | TUint8 => KUint8
  | TInterface => KInterface
  | TMap _ _ => KMap
  | TSlice _ => KSlice
  | TStruct _ => KStruct
  | TPtr _ => KPointer
  end.

Definition rkind_eqb (a b : rkind) : bool :=
  match a, b with
  | KFloat64, KFloat64 | KString, KString | KBool, KBool | KInt32, KInt32
  | KInt64, KInt64 | KInt, KInt | KUint8, KUint8 | KInterface, KInterface
  | KMap, KMap | KSlice, KSlice | KStruct, KStruct | KPointer, KPointer => true
  | _, _ => false
  end.

Fixpoint rtype_eqb (a b : rtype) : bool :=
  match a, b with
  | TFloat64, TFloat64 | TString, TString | TBool, TBool | TTime, TTime
  | TInt32, TInt32 | TInt64, TInt64 | TInt, TInt | TUint8, TUint8
  | TInterface, TInterface => true
  | TMap k1 e1, TMap k2 e2 => rtype_eqb k1 k2 && rtype_eqb e1 e2
  | TSlice e1, TSlice e2 => rtype_eqb e1 e2
  | TStruct f1, TStruct f2 =>
      (fix go (l1 l2 : list (gostring * rtype)) : bool :=
         match l1, l2 with
         | [], [] => true
         | (n1, t1) :: l1', (n2, t2) :: l2' =>
             gostring_eqb n1 n2 && rtype_eqb t1 t2 && go l1' l2'
         | _, _ => false
         end) f1 f2
  | TPtr e1, TPtr e2 => rtype_eqb e1 e2
  | _, _ => false
  end.

(** A Go value together with what [reflect] can tell about it.

    - [VFloat64] carries the IEEE-754 bit pattern ([math.Float64bits]).
    - [VTime] is an instant: Unix seconds and nanoseconds within the second.
    - [VBytes], [VMap] and [VSlice] hold [None] for a nil slice or map.
    - [VMap] and [VSlice] carry their declared key and element types; an
      entry or element of declared type [any] is stored as the dynamic value
      it holds, [VNil] being the nil interface.
    - [VStruct] lists the fields in declaration order with their declared
      types.
    - [VPtr] is a pointer; [None] is the nil pointer. *)
Inductive value : Type :=
  | VNil
  | VFloat64 (bits : Z)
  | VString (s : gostring)
  | VBytes (b : option (list byte))
  | VBool (b : bool)
  | VTime (sec nsec : Z)
  | VInt32 (z : Z)
  | VInt64 (z : Z)
  | VInt (z : Z)
  | VUint8 (b : byte)
  | VMap (kt et : rtype) (m : option (list (gostring * value)))
  | VSlice (et : rtype) (s : option (list value))
  | VStruct (fs : list (gostring * (rtype * value)))
  | VPtr (t : rtype) (p : option value).

(** [reflect.TypeOf] of a non-nil interface value. *)
Definition TypeOf (v : value) : option rtype :=
  match v with
  | VNil => None
  | VFloat64 _ => Some TFloat64
  | VString _ => Some TString
  | VBytes _ => Some (TSlice TUint8)
  | VBool _ => Some TBool
  | VTime _ _ => Some TTime
  | VInt32 _ => Some TInt32
  | VInt64 _ => Some TInt64
  | VInt _ => Some TInt
  | VUint8 _ => Some TUint8
  | VMap kt et _ => Some (TMap kt et)
  | VSlice et _ => Some (TSlice et)
  | VStruct fs => Some (TStruct (map (fun f => (fst f, fst (snd f))) fs))
  | VPtr t _ => Some (TPtr t)
  end.

(** ** Go maps as association lists *)

Section GoMap.
Context {A : Type}.

Fixpoint lookup (k : gostring) (m : list (gostring * A)) : option A :=
  match m with
  | [] => None
  | (k', v) :: m' => if gostring_eqb k k' then Some v else lookup k m'
  end.

(** [m[k] = v]: replaces the value of an existing key, else adds the key. *)
Fixpoint map_set (k : gostring) (v : A) (m : list (gostring * A))
  : list (gostring * A) :=
  match m with
  | [] => [(k, v)]
  | (k', v') :: m' =>
      if gostring_eqb k k' then (k, v) :: m' else (k', v') :: map_set k v m'
  end.

Definition map_keys (m : list (gostring * A)) : list gostring := map fst m.
End GoMap.

(** ** The encoder ([serialize.go]) *)

(** Result of the [append...] functions: the pair [(buffer, err)] a Go call
    returns, or a run-time panic.  [EOutOfFuel] belongs to the embedding
    only: the recursion of the encoder is on fuel, and [Marshal] supplies
    enough of it. *)
Inductive eres : Type :=
  | ERet (buffer : list byte) (err : option error)
  | EPanic
  | EOutOfFuel.

Inductive gres : Type :=
  | GRet (et : Z) (err : option error)
  | GPanic.

(** [reflect.TypeOf(nil)] is the nil [Type], whose [Kind()] panics; [Elem()]
    of a nil pointer is the zero [Value], whose [Interface()] panics. *)
Fixpoint getEtype (val : value) : gres :=
  match val with
  | VNil => GPanic
  | VPtr _ None => GPanic
  | VPtr _ (Some p) => getEtype p
  | VFloat64 _ => GRet kEtypeDouble None
  | VString _ => GRet kEtypeString None
  | VBytes _ => GRet kEtypeBinary None
  | VBool _ => GRet kEtypeBoolean None
  | VTime _ _ => GRet kEtypeUtcDatetime None
  | VInt32 _ => GRet kEtypeInt32 None
  | VInt _ => GRet kEtypeInt64 None
  | VInt64 _ => GRet kEtypeInt64 None
  | VMap _ _ _ => GRet kEtypeDocument None
  | VStruct _ => GRet kEtypeDocument None
  | VSlice _ _ => GRet kEtypeArray None
  | VUint8 _ => GRet 0 (Some ErrUnsupportedType)
  end.

(** [binary.Write] of a fixed-size value into a [bytes.Buffer] cannot fail,
    so the [convert...ToBytes] functions are modelled by their bytes. *)
Definition convertInt32ToBytes (val : Z) : list byte := le_bytes 4 val.
Definition convertInt64ToBytes (val : Z) : list byte := le_bytes 8 val.
Definition convertFloat64ToBytes (bits : Z) : list byte := le_bytes 8 bits.

Definition appendInt32 (buffer : list byte) (val : Z) : list byte :=
  buffer ++ convertInt32ToBytes val.
Definition appendInt64 (buffer : list byte) (val : Z) : list byte :=
  buffer ++ convertInt64ToBytes val.
Definition appendFloat64 (buffer : list byte) (bits : Z) : list byte :=
  buffer ++ convertFloat64ToBytes bits.
Definition appendBoolean (buffer : list byte) (val : bool) : list byte :=
  if val then buffer ++ [x01] else buffer ++ [x00].

Definition validateEname (ename : gostring) : option error :=
  if existsb (fun b => byte_val b =? 0) ename then Some ErrNullInEname else None.

(** [sort.Strings]: any sorting algorithm gives the same list of strings. *)
Fixpoint insert_sorted (k : gostring) (l : list gostring) : list gostring :=
  match l with
  | [] => [k]
  | x :: l' => if string_leb k x then k :: l else x :: insert_sorted k l'
  end.

Definition sort_strings (l : list gostring) : list gostring :=
  fold_right insert_sorted [] l.

Definition sortedKeys (m : list (gostring * value)) : list gostring :=
  sort_strings (map_keys m).

(** [strconv.Itoa] of a slice index. *)
Fixpoint itoa_digits (fuel : nat) (n : Z) (acc : gostring) : gostring :=
  match fuel with
  | O => acc
  | S f =>
      let acc' := byte_of_Z (48 + n mod 10) :: acc in
      if n / 10 =? 0 then acc' else itoa_digits f (n / 10) acc'
  end.

Definition Itoa (i : nat) : gostring := itoa_digits (S i) (Z.of_nat i) [].

Definition convertReflectMapToMapStringAny (m : option (list (gostring * value)))
  : list (gostring * value) :=
  match m with
  | None => []
  | Some entries => fold_left (fun result e => map_set (fst e) (snd e) result) entries []
  end.

Fixpoint slice_to_map (i : nat) (s : list value) (m : list (gostring * value))
  : list (gostring * value) :=
  match s with
  | [] => m
  | v :: s' => slice_to_map (S i) s' (map_set (Itoa i) v m)
  end.

Definition convertReflectSliceToMapStringAny (s : option (list value))
  : list (gostring * value) :=
  match s with
  | None => []
  | Some elems => slice_to_map 0 elems []
  end.

Definition convertReflectStructToMapStringAny (fs : list (gostring * (rtype * value)))
  : list (gostring * value) :=
  fold_left (fun result f => map_set (fst f) (snd (snd f)) result) fs [].

(** [copy(buffer[startPos:], src)]: slicing past the length panics. *)
Definition copy_at (buffer : list byte) (startPos : nat) (src : list byte) : list byte :=
  let dst := skipn startPos buffer in
  let n := Nat.min (length dst) (length src) in
  firstn startPos buffer ++ firstn n src ++ skipn n dst.

(** The loop of [appendMap] over the sorted keys; [appendAny] is the
    recursive call. *)
Fixpoint appendMap_loop (appendAny : list byte -> value -> eres)
    (doc : list (gostring * value)) (keys : list gostring) (buffer : list byte) : eres :=
  match keys with
  | [] => ERet buffer None
  | key :: keys' =>
      match validateEname key with
      | Some err => ERet buffer (Some err)
      | None =>
          (* doc[key]; a missing key would give the nil interface *)
          let val := match lookup key doc with Some v => v | None => VNil end in
          match getEtype val with
          | GPanic => EPanic
          | GRet _ (Some err) => ERet buffer (Some (WrapKey key err))
          | GRet et None =>
              let buffer := buffer ++ [byte_of_Z et] in
              let buffer := buffer ++ key in
              let buffer := buffer ++ [kNullTerminator] in
              match appendAny buffer val with
              | ERet buffer (Some err) => ERet buffer (Some (WrapKey key err))
              | ERet buffer None => appendMap_loop appendAny doc keys' buffer
              | EPanic => EPanic
              | EOutOfFuel => EOutOfFuel
              end
          end
      end
  end.

(** What [appendMap] does after the loop: terminator, size check and the
    patch of the size placeholder at [startPos]. *)
Definition appendMap_finish (startPos : nat) (r : eres) : eres :=
  match r with
  | ERet buffer None =>
      let buffer := buffer ++ [byte_of_Z kEtypeDone] in
      let endPos := length buffer in
      let totalSize := Z.of_nat endPos - Z.of_nat startPos in
      if (totalSize <? 0) || (totalSize >? MaxInt32) then ERet [] (Some ErrSizeTooBig)
      else
        let totalSize_bin := convertInt32ToBytes totalSize in
        ERet (copy_at buffer startPos totalSize_bin) None
  | r => r
  end.

Fixpoint appendAny (fuel : nat) (buffer : list byte) (val_any : value) {struct fuel} : eres :=
  match fuel with
  | O => EOutOfFuel
  | S f =>
      match val_any with
      | VNil => EPanic
      | VPtr _ None => EPanic
      | VPtr _ (Some p) => appendAny f buffer p
      | VBytes val =>
          let val := match val with Some b => b | None => [] end in
          if Z.of_nat (length val) >? MaxInt32 then ERet buffer (Some ErrByteSliceTooBig)
          else
            let buffer := appendInt32 buffer (Z.of_nat (length val)) in
            let buffer := buffer ++ [kBinarySubtype] in
            ERet (buffer ++ val) None
      | VString val =>
          if Z.of_nat (length val) + 1 >? MaxInt32 then ERet buffer (Some ErrStringTooLong)
          else
            let buffer := appendInt32 buffer (Z.of_nat (length val) + 1) in
            let buffer := buffer ++ val in
            ERet (buffer ++ [kNullTerminator]) None
      | VFloat64 val => ERet (appendFloat64 buffer val) None
      | VBool val => ERet (appendBoolean buffer val) None
      | VTime sec nsec =>
          (* val.UTC().UnixMilli() *)
          let val_int64 := wrap64 (sec * 1000 + nsec / 1000000) in
          ERet (appendInt64 buffer val_int64) None
      | VInt32 val => ERet (appendInt32 buffer val) None
      | VInt val => ERet (appendInt64 buffer val) None
      | VInt64 val => ERet (appendInt64 buffer val) None
      | _ => appendOther f buffer val_any
      end
  end

with appendMap (fuel : nat) (buffer : list byte) (doc : list (gostring * value))
       {struct fuel} : eres :=
  match fuel with
  | O => EOutOfFuel
  | S f =>
      let kSizePlaceholder := 0 in
      let startPos := length buffer in
      let buffer := appendInt32 buffer kSizePlaceholder in
      appendMap_finish startPos (appendMap_loop (appendAny f) doc (sortedKeys doc) buffer)
  end

with appendOther (fuel : nat) (buffer : list byte) (val_any : value) {struct fuel} : eres :=
  match fuel with
  | O => EOutOfFuel
  | S f =>
      match val_any with
      | VMap kt _ m =>
          if negb (rkind_eqb (Kind kt) KString) then ERet buffer (Some ErrOnlyMapString)
          else appendMap f buffer (convertReflectMapToMapStringAny m)
      | VSlice _ s => appendMap f buffer (convertReflectSliceToMapStringAny s)
      | VStruct fs => appendMap f buffer (convertReflectStructToMapStringAny fs)
      | _ => ERet buffer (Some ErrUnableToSerialize)
      end
  end.

(** Number of nodes of a value; three units of fuel per node are enough. *)
Fixpoint vsize (v : value) : nat :=
  match v with
  | VMap _ _ (Some m) =>
      S ((fix go (l : list (gostring * value)) : nat :=
            match l with [] => O | e :: l' => (vsize (snd e) + go l')%nat end) m)
  | VSlice _ (Some s) =>
      S ((fix go (l : list value) : nat :=
            match l with [] => O | e :: l' => (vsize e + go l')%nat end) s)
  | VStruct fs =>
      S ((fix go (l : list (gostring * (rtype * value))) : nat :=
            match l with [] => O | f :: l' => (vsize (snd (snd f)) + go l')%nat end) fs)
  | VPtr _ (Some p) => S (vsize p)
  | _ => 1%nat
  end.

(** [Marshal].  The package runs on 64-bit platforms ([int] is modelled with
    64 bits), so [validate64bit] returns nil. *)
Definition validate64bit : option error := None.

Fixpoint Marshal_at (fuel : nat) (document : value) : eres :=
  match validate64bit with
  | Some err => ERet [] (Some (WrapMarshal err))
  | None =>
      match document with
      | VNil => EPanic
      | VPtr _ None => EPanic
      | VPtr _ (Some p) => Marshal_at fuel p
      | _ =>
          let documentRkind :=
            match TypeOf document with Some t => Kind t | None => KInterface end in
          if negb (rkind_eqb documentRkind KMap) && negb (rkind_eqb documentRkind KStruct)
          then ERet [] (Some ErrMarshalTopLevel)
          else
            match appendAny fuel [] document with
            | ERet _ (Some err) => ERet [] (Some (WrapMarshal err))
            | r => r
            end
      end
  end.

Definition Marshal (document : value) : eres :=
  Marshal_at (3 * vsize document) document.

Definition hex (l : list Z) : list byte := map byte_of_Z l.

Definition ExampleStruct : value :=
  VStruct [(str "BSON",
            (TSlice TInterface,
             VSlice TInterface
               (Some [VString (str "awesome");
                      VFloat64 0x4014333333333333;
                      VInt32 1986])))].

Definition example_bytes : list byte :=
  hex [0x31;0;0;0; 0x04;0x42;0x53;0x4f;0x4e;0; 0x26;0;0;0;
       0x02;0x30;0; 0x08;0;0;0; 0x61;0x77;0x65;0x73;0x6f;0x6d;0x65;0;
       0x01;0x31;0; 0x33;0x33;0x33;0x33;0x33;0x33;0x14;0x40;
       0x10;0x32;0; 0xc2;0x07;0;0; 0; 0].


(** ** The decoder ([deserialize.go]) *)

(** The unread part of a [bytes.Buffer] is a list of bytes.  The readers of
    primitive values return the value read, [numread] and the rest of the
    buffer, or an error, or panic. *)
Inductive rres (A : Type) : Type :=
  | ROk (a : A) (numread : Z) (rest : list byte)
  | RErr (e : error)
  | RPanic.
Arguments ROk {A} a numread rest.
Arguments RErr {A} e.
Arguments RPanic {A}.

(** [io.ReadFull] inside [binary.Read]: [io.EOF] on an empty buffer,
    [io.ErrUnexpectedEOF] on a short one. *)
Definition read_full (n : nat) (buffer : list byte) : rres (list byte) :=
  if (length buffer <? n)%nat then
    match buffer with
    | [] => RErr EOF
    | _ :: _ => RErr ErrUnexpectedEOF
    end
  else ROk (firstn n buffer) (Z.of_nat n) (skipn n buffer).

(** [bytes.Buffer.Read(p)] with [len(p) = n]: copies what is there. *)
Definition buffer_Read (n : nat) (buffer : list byte) : rres (list byte) :=
  match buffer with
  | [] => if (n =? 0)%nat then ROk [] 0 [] else RErr EOF
  | _ :: _ =>
      ROk (firstn n buffer) (Z.of_nat (Nat.min n (length buffer))) (skipn n buffer)
  end.

Definition ReadByte (buffer : list byte) : rres byte :=
  match buffer with
  | [] => RErr EOF
  | b :: rest => ROk b 1 rest
  end.

Definition readInt32 (buffer : list byte) : rres Z :=
  match read_full 4 buffer with
  | ROk bs _ rest => ROk (wrap32 (le_unsigned bs)) kInt32Size rest
  | RErr e => RErr e
  | RPanic => RPanic
  end.

Definition readInt64 (buffer : list byte) : rres Z :=
  match read_full 8 buffer with
  | ROk bs _ rest => ROk (wrap64 (le_unsigned bs)) kInt64Size rest
  | RErr e => RErr e
  | RPanic => RPanic
  end.

(** [int] has 64 bits, [int(tmp)] keeps the value. *)
Definition readInt (buffer : list byte) : rres Z := readInt64 buffer.

Definition readFloat64 (buffer : list byte) : rres Z :=
  match read_full 8 buffer with
  | ROk bs _ rest => ROk (le_unsigned bs) kFloat64Size rest
  | RErr e => RErr e
  | RPanic => RPanic
  end.

Definition readEtype (buffer : list byte) : rres Z :=
  match ReadByte buffer with
  | ROk b _ rest => ROk (byte_val b) kEtypeSize rest
  | RErr e => RErr e
  | RPanic => RPanic
  end.

Fixpoint readEname_loop (buffer : list byte) (ename : list byte) : rres gostring :=
  match buffer with
  | [] => RErr EOF
  | b :: rest =>
      if byte_val b =? 0 then ROk ename (Z.of_nat (length ename) + 1) rest
      else readEname_loop rest (ename ++ [b])
  end.

Definition readEname (buffer : list byte) : rres gostring := readEname_loop buffer [].

(** [make([]byte, n)] panics when [n] is negative. *)
Definition readEstring (buffer : list byte) : rres gostring :=
  match readInt32 buffer with
  | RErr e => RErr e
  | RPanic => RPanic
  | ROk sizeWithNullterm _ buffer =>
      if sizeWithNullterm - 1 <? 0 then RPanic
      else
        let len_str := Z.to_nat (sizeWithNullterm - 1) in
        match buffer_Read len_str buffer with
        | RErr e => RErr e
        | RPanic => RPanic
        | ROk str numread buffer =>
            if negb (numread =? Z.of_nat len_str)
            then RErr (ErrShortRead (Z.of_nat len_str) numread)
            else
              match ReadByte buffer with
              | RErr e => RErr e
              | RPanic => RPanic
              | ROk nullterm _ buffer =>
                  if negb (byte_val nullterm =? 0) then RErr ErrNullTerminator
                  else ROk str (sizeWithNullterm + kInt32Size) buffer
              end
        end
  end.

Definition readEbinary (buffer : list byte) : rres (list byte) :=
  match readInt32 buffer with
  | RErr e => RErr e
  | RPanic => RPanic
  | ROk size _ buffer =>
      match ReadByte buffer with
      | RErr e => RErr e
      | RPanic => RPanic
      | ROk _ _ buffer =>
          if size <? 0 then RPanic
          else
            let len_bin := Z.to_nat size in
            match buffer_Read len_bin buffer with
            | RErr e => RErr e
            | RPanic => RPanic
            | ROk bin numread buffer =>
                if negb (numread =? Z.of_nat len_bin)
                then RErr (ErrShortRead (Z.of_nat len_bin) numread)
                else ROk bin (size + kInt32Size + kSubtypeSize) buffer
            end
      end
  end.

Definition readBoolean (buffer : list byte) : rres bool :=
  match ReadByte buffer with
  | RErr e => RErr (WrapReadBoolean e)
  | RPanic => RPanic
  | ROk b _ rest =>
      if byte_val b =? 0 then ROk false kInt8Size rest
      else if byte_val b =? 1 then ROk true kInt8Size rest
      else RErr (ErrBadBoolean (byte_val b))
  end.

(** [time.Unix(sec, nsec)]: [nsec] is brought into [0, 1e9). *)
Definition time_Unix (sec nsec : Z) : Z * Z :=
  if (nsec <? 0) || (nsec >=? 1000000000) then
    let n := Z.quot nsec 1000000000 in
    let sec := wrap64 (sec + n) in
    let nsec := nsec - n * 1000000000 in
    if nsec <? 0 then (wrap64 (sec - 1), nsec + 1000000000) else (sec, nsec)
  else (sec, nsec).

(** The zero [time.Time] is January 1, year 1, 00:00:00 UTC. *)
Definition zero_time : value := VTime (-62135596800) 0.

(** Zero value of a type ([reflect.New], [var tmp T]). *)
Fixpoint zero_value (t : rtype) : value :=
  match t with
  | TFloat64 => VFloat64 0
  | TString => VString []
  | TBool => VBool false
  | TTime => zero_time
  | TInt32 => VInt32 0
  | TInt64 => VInt64 0
  | TInt => VInt 0
  | TUint8 => VUint8 x00
  | TInterface => VNil
  | TMap k e => VMap k e None
  | TSlice TUint8 => VBytes None
  | TSlice e => VSlice e None
  | TStruct fields =>
      VStruct ((fix go (l : list (gostring * rtype)) : list (gostring * (rtype * value)) :=
                  match l with
                  | [] => []
                  | (n, ft) :: l' => (n, (ft, zero_value ft)) :: go l'
                  end) fields)
  | TPtr e => VPtr e None
  end.

(** A slice value of element type [et] holding [l]; [[]byte] has its own
    constructor. *)
Definition mk_slice (et : rtype) (l : list value) : value :=
  match et with
  | TUint8 =>
      VBytes (Some (flat_map (fun v => match v with VUint8 b => [b] | _ => [] end) l))
  | _ => VSlice et (Some l)
  end.

(** [reflect.MakeMap] and [reflect.MakeSlice(t, 0, 0)]. *)
Definition MakeMap (t : rtype) : value :=
  match t with
  | TMap k e => VMap k e (Some [])
  | _ => VNil
  end.

Definition MakeSlice (t : rtype) : value :=
  match t with
  | TSlice e => mk_slice e []
  | _ => VNil
  end.

Definition validateEtypeCanBeDeserializeToRtype (et : Z) (rtype : rtype) : option error :=
  let rkind := Kind rtype in
  if rtype_eqb rtype TInterface then None (* We can always deserialize into 'any' *)
  else if et =? kEtypeDouble then
    if negb (rkind_eqb rkind KFloat64) then Some (ErrCannotConvert et) else None
  else if et =? kEtypeString then
    if negb (rkind_eqb rkind KString) then Some (ErrCannotConvert et) else None
  else if et =? kEtypeBinary then
    if negb (rtype_eqb rtype (TSlice TUint8)) then Some (ErrCannotConvert et) else None
  else if et =? kEtypeBoolean then
    if negb (rkind_eqb rkind KBool) then Some (ErrCannotConvert et) else None
  else if et =? kEtypeUtcDatetime then
    if negb (rtype_eqb rtype TTime) then Some (ErrCannotConvert et) else None
  else if et =? kEtypeInt32 then
    if negb (rkind_eqb rkind KInt32) then Some (ErrCannotConvert et) else None
  else if et =? kEtypeInt64 then
    if negb (rkind_eqb rkind KInt64) && negb (rkind_eqb rkind KInt)
    then Some (ErrCannotConvert et) else None
  else if et =? kEtypeArray then
    if negb (rkind_eqb rkind KSlice) then Some (ErrCannotConvert et) else None
  else if et =? kEtypeDocument then
    if negb (rkind_eqb rkind KStruct) && negb (rkind_eqb rkind KMap)
    then Some (ErrCannotConvert et) else None
  else None.

(** [struct_rvalue.FieldByName(ename)].  The fields of [time.Time] ([wall],
    [ext], [loc]) are unexported: they are found, and [Interface()] on their
    address panics.  On a value that is not a struct [FieldByName] panics. *)
Inductive field_lookup : Type :=
  | FieldFound (ft : rtype) (fv : value)
  | FieldUnexported (ft : rtype)
  | FieldMissing
  | FieldInvalid.

Definition FieldByName (v : value) (ename : gostring) : field_lookup :=
  match v with
  | VStruct fs =>
      match lookup ename fs with
      | Some (ft, fv) => FieldFound ft fv
      | None => FieldMissing
      end
  | VTime _ _ =>
      if gostring_eqb ename (str "wall") then FieldUnexported TUint8
      else if gostring_eqb ename (str "ext") then FieldUnexported TInt64
      else if gostring_eqb ename (str "loc") then FieldUnexported (TPtr TUint8)
      else FieldMissing
  | _ => FieldInvalid
  end.

(** Assignment through the address of the field. *)
Fixpoint set_field_list (ename : gostring) (v : value) (fs : list (gostring * (rtype * value)))
  : list (gostring * (rtype * value)) :=
  match fs with
  | [] => []
  | (n, (ft, fv)) :: fs' =>
      if gostring_eqb ename n then (n, (ft, v)) :: fs'
      else (n, (ft, fv)) :: set_field_list ename v fs'
  end.

Definition set_field (ename : gostring) (v : value) (s : value) : value :=
  match s with
  | VStruct fs => VStruct (set_field_list ename v fs)
  | _ => s
  end.

(** The temporary [tmpptr] that [readMap] and [readArray] read an element
    into: its type and initial content.  [dynamic] is the outcome of the type
    assertion of the container pointer to [*map[string]any], respectively
    [*[]any]. *)
Definition new_tmp (et : Z) (elemRtype : rtype) (dynamic : bool)
  : (rtype * value) + error :=
  let elemRkind := Kind elemRtype in
  if et =? kEtypeDouble then inl (TFloat64, VFloat64 0)
  else if et =? kEtypeString then inl (TString, VString [])
  else if et =? kEtypeBinary then inl (TSlice TUint8, VBytes None)
  else if et =? kEtypeBoolean then inl (TBool, VBool false)
  else if et =? kEtypeUtcDatetime then inl (TTime, zero_time)
  else if et =? kEtypeInt32 then inl (TInt32, VInt32 0)
  else if et =? kEtypeInt64 then
    if rkind_eqb elemRkind KInt then inl (TInt, VInt 0) else inl (TInt64, VInt64 0)
  else if et =? kEtypeDocument then
    match elemRkind with
    | KStruct => inl (elemRtype, zero_value elemRtype)
    | KMap => inl (elemRtype, MakeMap elemRtype)
    | _ =>
        if negb dynamic then inr ErrCannotDeserializeDocument
        else inl (TMap TString TInterface, VMap TString TInterface (Some []))
    end
  else if et =? kEtypeArray then
    match elemRkind with
    | KSlice => inl (elemRtype, MakeSlice elemRtype)
    | _ =>
        if negb dynamic then inr ErrCannotDeserializeSlice
        else inl (TSlice TInterface, VSlice TInterface (Some []))
    end
  else inr (ErrUnsupportedEtype et).

(** Result of the readers of documents: [numread] and the rest of the
    buffer, an error, or a panic.  These readers fill their target through a
    pointer, so they also return the content of the target when they
    return, whatever the result. *)
Inductive dres : Type :=
  | DOk (numread : Z) (rest : list byte)
  | DErr (e : error)
  | DPanic
  | DOutOfFuel.

Definition store {A : Type} (mk : A -> value) (old : value) (r : rres A) : value * dres :=
  match r with
  | ROk a numread rest => (mk a, DOk numread rest)
  | RErr e => (old, DErr e)
  | RPanic => (old, DPanic)
  end.

(** [readEvalue], [readStruct], [readMap] and [readArray], with the loops
    of the last three as functions of their own.  [pt] is the type the
    pointer points to, [old] the content of the pointee on entry.  A failed
    type assertion [ptr_any.( *T )] panics.  [actualSize] is a Go [int]: it is
    bounded by the length of the input times a 32-bit size and cannot wrap
    around in 64 bits. *)
Fixpoint readEvalue (fuel : nat) (buffer : list byte) (pt : rtype) (old : value) (et : Z)
    {struct fuel} : value * dres :=
  match fuel with
  | O => (old, DOutOfFuel)
  | S f =>
      if et =? kEtypeDouble then
        if rtype_eqb pt TFloat64 then store VFloat64 old (readFloat64 buffer)
        else (old, DPanic)
      else if et =? kEtypeString then
        if rtype_eqb pt TString then store VString old (readEstring buffer)
        else (old, DPanic)
      else if et =? kEtypeBinary then
        if rtype_eqb pt (TSlice TUint8)
        then store (fun bin => VBytes (Some bin)) old (readEbinary buffer)
        else (old, DPanic)
      else if et =? kEtypeBoolean then
        if rtype_eqb pt TBool then store VBool old (readBoolean buffer)
        else (old, DPanic)
      else if et =? kEtypeUtcDatetime then
        if rtype_eqb pt TTime then
          store (fun millisecFromEpoch =>
                   let t := time_Unix (Z.quot millisecFromEpoch 1000)
                                      (Z.rem millisecFromEpoch 1000 * 1000000) in
                   VTime (fst t) (snd t))
                old (readInt64 buffer)
        else (old, DPanic)
      else if et =? kEtypeInt32 then
        if rtype_eqb pt TInt32 then store VInt32 old (readInt32 buffer)
        else (old, DPanic)
      else if et =? kEtypeInt64 then
        match pt with
        | TInt64 => store VInt64 old (readInt64 buffer)
        | TInt => store VInt old (readInt buffer)
        | _ => (old, DErr ErrCannotConvertInt64)
        end
      else if et =? kEtypeDocument then
        match Kind pt with
        | KStruct => readStruct f buffer old
        | KMap => readMap f buffer pt old
        | _ => (old, DErr ErrUnsupportedTarget)
        end
      else if et =? kEtypeArray then readArray f buffer pt old
      else (old, DErr (ErrUnsupportedEtype et))
  end

with readStruct (fuel : nat) (buffer : list byte) (old : value) {struct fuel} : value * dres :=
  match fuel with
  | O => (old, DOutOfFuel)
  | S f =>
      match readInt32 buffer with
      | RErr e => (old, DErr e)
      | RPanic => (old, DPanic)
      | ROk expectedSize numread buffer =>
          readStruct_loop f buffer old expectedSize (0 + numread)
      end
  end

with readStruct_loop (fuel : nat) (buffer : list byte) (struct_rvalue : value)
       (expectedSize actualSize : Z) {struct fuel} : value * dres :=
  match fuel with
  | O => (struct_rvalue, DOutOfFuel)
  | S f =>
      match readEtype buffer with
      | RErr e => (struct_rvalue, DErr e)
      | RPanic => (struct_rvalue, DPanic)
      | ROk et numread buffer =>
          let actualSize := actualSize + numread in
          if et =? kEtypeDone then
            if negb (actualSize =? expectedSize)
            then (struct_rvalue, DErr (ErrSizeMismatch expectedSize actualSize))
            else (struct_rvalue, DOk actualSize buffer)
          else
            match readEname buffer with
            | RErr e => (struct_rvalue, DErr e)
            | RPanic => (struct_rvalue, DPanic)
            | ROk ename numread buffer =>
                let actualSize := actualSize + numread in
                match FieldByName struct_rvalue ename with
                | FieldInvalid => (struct_rvalue, DPanic)
                | FieldMissing => (struct_rvalue, DErr (ErrFieldNotFound ename))
                | FieldUnexported field_rtype =>
                    match validateEtypeCanBeDeserializeToRtype et field_rtype with
                    | Some err => (struct_rvalue, DErr (WrapField ename err))
                    | None => (struct_rvalue, DPanic)
                    end
                | FieldFound field_rtype field_old =>
                    match validateEtypeCanBeDeserializeToRtype et field_rtype with
                    | Some err => (struct_rvalue, DErr (WrapField ename err))
                    | None =>
                        let (field_new, r) := readEvalue f buffer field_rtype field_old et in
                        let struct_rvalue := set_field ename field_new struct_rvalue in
                        match r with
                        | DOk numread buffer =>
                            readStruct_loop f buffer struct_rvalue expectedSize
                              (actualSize + numread)
                        | DErr err => (struct_rvalue, DErr (WrapField ename err))
                        | DPanic => (struct_rvalue, DPanic)
                        | DOutOfFuel => (struct_rvalue, DOutOfFuel)
                        end
                    end
                end
            end
      end
  end

with readMap (fuel : nat) (buffer : list byte) (pt : rtype) (old : value)
       {struct fuel} : value * dres :=
  match fuel with
  | O => (old, DOutOfFuel)
  | S f =>
      match pt with
      | TMap mapKeyRtype mapElemRtype =>
          if negb (rkind_eqb (Kind mapKeyRtype) KString) then (old, DErr ErrOnlyMapString)
          else
            match readInt32 buffer with
            | RErr e => (old, DErr e)
            | RPanic => (old, DPanic)
            | ROk expectedSize numread buffer =>
                (* mapRvalue.Set(reflect.MakeMap(mapRtype)) *)
                readMap_loop f buffer mapKeyRtype mapElemRtype [] expectedSize (0 + numread)
            end
      | _ => (old, DPanic) (* Key() of a type that is not a map *)
      end
  end

with readMap_loop (fuel : nat) (buffer : list byte) (mapKeyRtype mapElemRtype : rtype)
       (entries : list (gostring * value)) (expectedSize actualSize : Z)
       {struct fuel} : value * dres :=
  let mapRvalue := VMap mapKeyRtype mapElemRtype (Some entries) in
  match fuel with
  | O => (mapRvalue, DOutOfFuel)
  | S f =>
      match readEtype buffer with
      | RErr e => (mapRvalue, DErr e)
      | RPanic => (mapRvalue, DPanic)
      | ROk et numread buffer =>
          let actualSize := actualSize + numread in
          if et =? kEtypeDone then
            if negb (actualSize =? expectedSize)
            then (mapRvalue, DErr (ErrSizeMismatch expectedSize actualSize))
            else (mapRvalue, DOk actualSize buffer)
          else
            match readEname buffer with
            | RErr e => (mapRvalue, DErr e)
            | RPanic => (mapRvalue, DPanic)
            | ROk ename numread buffer =>
                let actualSize := actualSize + numread in
                match validateEtypeCanBeDeserializeToRtype et mapElemRtype with
                | Some err => (mapRvalue, DErr (WrapField ename err))
                | None =>
                    let dynamic :=
                      rtype_eqb (TMap mapKeyRtype mapElemRtype) (TMap TString TInterface) in
                    match new_tmp et mapElemRtype dynamic with
                    | inr err => (mapRvalue, DErr err)
                    | inl (tmp_rtype, tmp) =>
                        let (tmp_new, r) := readEvalue f buffer tmp_rtype tmp et in
                        match r with
                        | DOk numread buffer =>
                            (* mapRvalue.SetMapIndex(ename, tmp) *)
                            readMap_loop f buffer mapKeyRtype mapElemRtype
                              (map_set ename tmp_new entries) expectedSize
                              (actualSize + numread)
                        | DErr err => (mapRvalue, DErr (WrapField ename err))
                        | DPanic => (mapRvalue, DPanic)
                        | DOutOfFuel => (mapRvalue, DOutOfFuel)
                        end
                    end
                end
            end
      end
  end

with readArray (fuel : nat) (buffer : list byte) (pt : rtype) (old : value)
       {struct fuel} : value * dres :=
  match fuel with
  | O => (old, DOutOfFuel)
  | S f =>
      match pt with
      | TSlice arrElemRtype =>
          match readInt32 buffer with
          | RErr e => (old, DErr e)
          | RPanic => (old, DPanic)
          | ROk expectedSize numread buffer =>
              (* arrRvalue.Set(reflect.MakeSlice(arrRtype, 0, 0)) *)
              readArray_loop f buffer arrElemRtype [] expectedSize (0 + numread)
          end
      | TMap _ _ | TPtr _ =>
          (* Elem() is defined, MakeSlice of a type that is not a slice panics *)
          match readInt32 buffer with
          | RErr e => (old, DErr e)
          | _ => (old, DPanic)
          end
      | _ => (old, DPanic) (* Elem() of a type without elements *)
      end
  end

with readArray_loop (fuel : nat) (buffer : list byte) (arrElemRtype : rtype)
       (elems : list value) (expectedSize actualSize : Z) {struct fuel} : value * dres :=
  let arrRvalue := mk_slice arrElemRtype elems in
  match fuel with
  | O => (arrRvalue, DOutOfFuel)
  | S f =>
      match readEtype buffer with
      | RErr e => (arrRvalue, DErr e)
      | RPanic => (arrRvalue, DPanic)
      | ROk et numread buffer =>
          let actualSize := actualSize + numread in
          if et =? kEtypeDone then
            if negb (actualSize =? expectedSize)
            then (arrRvalue, DErr (ErrSizeMismatch expectedSize actualSize))
            else (arrRvalue, DOk actualSize buffer)
          else
            match readEname buffer with
            | RErr e => (arrRvalue, DErr e)
            | RPanic => (arrRvalue, DPanic)
            | ROk ename numread buffer =>
                let actualSize := actualSize + numread in
                match validateEtypeCanBeDeserializeToRtype et arrElemRtype with
                | Some err => (arrRvalue, DErr (WrapField ename err))
                | None =>
                    let dynamic := rtype_eqb (TSlice arrElemRtype) (TSlice TInterface) in
                    match new_tmp et arrElemRtype dynamic with
                    | inr err => (arrRvalue, DErr err)
                    | inl (tmp_rtype, tmp) =>
                        let (tmp_new, r) := readEvalue f buffer tmp_rtype tmp et in
                        match r with
                        | DOk numread buffer =>
                            (* arrRvalue.Set(reflect.Append(arrRvalue, tmp)) *)
                            readArray_loop f buffer arrElemRtype (elems ++ [tmp_new])
                              expectedSize (actualSize + numread)
                        | DErr err => (arrRvalue, DErr (WrapField ename err))
                        | DPanic => (arrRvalue, DPanic)
                        | DOutOfFuel => (arrRvalue, DOutOfFuel)
                        end
                    end
                end
            end
      end
  end.

(** Outcome of [Unmarshal]: nil, an error, or a panic. *)
Inductive ures : Type :=
  | UOk
  | UErr (e : error)
  | UPanic
  | UOutOfFuel.

(** [Unmarshal(marshalled, ptr)] where [ptr] points to a variable of type
    [valRtype] holding [old]; returns the content of the variable after the
    call.  Every step of the readers consumes a byte, so the length of the
    input plus two is enough fuel. *)
Definition Unmarshal_at (fuel : nat) (marshalled : list byte) (valRtype : rtype) (old : value)
  : value * ures :=
  match validate64bit with
  | Some err => (old, UErr (WrapUnmarshal err))
  | None =>
      let buffer := marshalled in
      let read :=
        match Kind valRtype with
        | KStruct => Some (readStruct fuel buffer old)
        | KMap => Some (readMap fuel buffer valRtype old)
        | _ => None
        end in
      match read with
      | None => (old, UErr ErrUnmarshalTopLevel)
      | Some (new, DErr err) => (new, UErr (WrapUnmarshal err))
      | Some (new, DPanic) => (new, UPanic)
      | Some (new, DOutOfFuel) => (new, UOutOfFuel)
      | Some (new, DOk numread _) =>
          if negb (numread =? Z.of_nat (length marshalled))
          then (new, UErr (ErrNotConsumed numread (Z.of_nat (length marshalled))))
          else (new, UOk)
      end
  end.

Definition Unmarshal (marshalled : list byte) (valRtype : rtype) (old : value) : value * ures :=
  Unmarshal_at (length marshalled + 2) marshalled valRtype old.

Definition ExampleStruct_rtype : rtype := TStruct [(str "BSON", TSlice TInterface)].

(** ** Notions used in the statements *)

(** The length prefix a buffer starts with, as [readInt32] decodes it. *)
Definition declared_length (buffer : list byte) : Z :=
  wrap32 (le_unsigned (firstn 4 buffer)).

(** The empty document [05 00 00 00 00]. *)
Definition empty_document : list byte := hex [5; 0; 0; 0; 0].


(** [doc[key]] as the loop of [appendMap] reads it. *)
Definition doc_get (key : gostring) (doc : list (gostring * value)) : value :=
  match lookup key doc with Some v => v | None => VNil end.

(** One element on the wire: type tag, null-terminated name, payload. *)
Definition element (et : Z) (key : gostring) (payload : list byte) : list byte :=
  byte_of_Z et :: key ++ kNullTerminator :: payload.

(** [elements rec doc keys body]: [body] is the concatenation, in the order
    of [keys], of the elements of [doc] under these keys, the payload of each
    being what [rec] appends to the empty buffer for the value. *)
Inductive elements (rec : list byte -> value -> eres) (doc : list (gostring * value))
  : list gostring -> list byte -> Prop :=
  | elements_nil : elements rec doc [] []
  | elements_cons (key : gostring) (keys : list gostring) (et : Z)
      (payload body : list byte) :
      validateEname key = None ->
      getEtype (doc_get key doc) = GRet et None ->
      rec [] (doc_get key doc) = ERet payload None ->
      elements rec doc keys body ->
      elements rec doc (key :: keys) (element et key payload ++ body).

(** A document with one [int32] element. *)
Definition one_int32 : list (gostring * value) := [(str "a", VInt32 1)].

(** [map[string]any{"a": ( *int64 )(nil)}] and the same map with a pointer
    to 5. *)
Definition nil_pointer_doc : value :=
  VMap TString TInterface (Some [(str "a", VPtr TInt64 None)]).

Definition pointer_doc : value :=
  VMap TString TInterface (Some [(str "a", VPtr TInt64 (Some (VInt64 5)))]).

Definition int64_doc : value :=
  VMap TString TInterface (Some [(str "a", VInt64 5)]).

(** The document [{"A": int32(1)}] and the targets [struct { A any }],
    [map[string]any] and [struct { A []any }]. *)
Definition int32_A_bytes : list byte := hex [12; 0; 0; 0; 0x10; 0x41; 0; 1; 0; 0; 0; 0].

Definition any_field_rtype : rtype := TStruct [(str "A", TInterface)].

(** The document [{"A": <binary "hi">}]. *)
Definition binary_A_bytes : list byte :=
  hex [15; 0; 0; 0; 0x05; 0x41; 0; 2; 0; 0; 0; 0; 0x68; 0x69; 0].

(** A string element whose size field is zero, and a binary element whose
    size field is -1. *)
Definition zero_size_string_bytes : list byte :=
  hex [12; 0; 0; 0; 0x02; 0x41; 0; 0; 0; 0; 0; 0].

Definition negative_size_binary_bytes : list byte :=
  hex [13; 0; 0; 0; 0x05; 0x41; 0; 0xff; 0xff; 0xff; 0xff; 0; 0].



(** Same logical content: maps with the same entries in any order, slices,
    structs and pointers with the same content in the same positions. *)
Inductive veq : value -> value -> Prop :=
  | veq_same (v : value) : veq v v
  | veq_map (kt et : rtype) (m1 m1' m2 : list (gostring * value)) :
      NoDup (map_keys m1) ->
      Forall2 (fun e1 e2 => fst e1 = fst e2 /\ veq (snd e1) (snd e2)) m1 m1' ->
      Permutation m1' m2 ->
      veq (VMap kt et (Some m1)) (VMap kt et (Some m2))
  | veq_slice (et : rtype) (s1 s2 : list value) :
      Forall2 veq s1 s2 ->
      veq (VSlice et (Some s1)) (VSlice et (Some s2))
  | veq_struct (fs1 fs2 : list (gostring * (rtype * value))) :
      Forall2 (fun f1 f2 => fst f1 = fst f2 /\ fst (snd f1) = fst (snd f2) /\
                            veq (snd (snd f1)) (snd (snd f2))) fs1 fs2 ->
      veq (VStruct fs1) (VStruct fs2)
  | veq_ptr (t : rtype) (p1 p2 : value) :
      veq p1 p2 -> veq (VPtr t (Some p1)) (VPtr t (Some p2)).

(** Two maps with the same two entries in different orders. *)
Definition two_entries : value :=
  VMap TString TInterface (Some [(str "x", VInt32 1); (str "y", VBool true)]).

Definition two_entries_swapped : value :=
  VMap TString TInterface (Some [(str "y", VBool true); (str "x", VInt32 1)]).

(** What [Unmarshal] does with the result of the reader. *)
Definition finish (marshalled : list byte) (r : value * dres) : value * ures :=
  match r with
  | (new, DErr err) => (new, UErr (WrapUnmarshal err))
  | (new, DPanic) => (new, UPanic)
  | (new, DOutOfFuel) => (new, UOutOfFuel)
  | (new, DOk numread _) =>
      if negb (numread =? Z.of_nat (length marshalled))
      then (new, UErr (ErrNotConsumed numread (Z.of_nat (length marshalled))))
      else (new, UOk)
  end.

(** Entries with the same keys and the same logical values, position by
    position. *)
Definition entries_eq (d1 d2 : list (gostring * value)) : Prop :=
  Forall2 (fun e1 e2 => fst e1 = fst e2 /\ veq (snd e1) (snd e2)) d1 d2.

(** ** Values that survive a round trip *)

(** The types the decoder gives to what it reads into an [any]. *)
Definition dynamic_type (t : rtype) : Prop :=
  t = TFloat64 \/ t = TString \/ t = TSlice TUint8 \/ t = TBool \/ t = TTime \/
  t = TInt32 \/ t = TInt64 \/ t = TMap TString TInterface \/ t = TSlice TInterface.

(** [repr t v]: [v] is a value for a position of declared type [t] that the
    encoding keeps:
    - integers and the bits of a float are in range; a timestamp has a whole
      number of milliseconds that fits 64 bits;
    - byte slices, maps and slices are not nil;
    - a value in an [any] has one of the types the decoder produces;
    - a map is keyed by strings and is represented with its keys in ascending
      order (a Go map has no order; the encoding does not depend on the
      representative);
    - a slice has at most ten elements;
    - no field of a struct has type [any], and field names are distinct. *)
Inductive repr : rtype -> value -> Prop :=
  | repr_float (bits : Z) : in_uint64 bits -> repr TFloat64 (VFloat64 bits)
  | repr_string (s : gostring) : repr TString (VString s)
  | repr_bytes (b : list byte) : repr (TSlice TUint8) (VBytes (Some b))
  | repr_bool (b : bool) : repr TBool (VBool b)
  | repr_time (sec k : Z) :
      0 <= k < 1000 -> in_int64 (sec * 1000 + k) -> repr TTime (VTime sec (k * 1000000))
  | repr_int32 (z : Z) : in_int32 z -> repr TInt32 (VInt32 z)
  | repr_int64 (z : Z) : in_int64 z -> repr TInt64 (VInt64 z)
  | repr_int (z : Z) : in_int64 z -> repr TInt (VInt z)
  | repr_any (t : rtype) (v : value) : dynamic_type t -> repr t v -> repr TInterface v
  | repr_map (et : rtype) (m : list (gostring * value)) :
      NoDup (map_keys m) ->
      sortedKeys m = map_keys m ->
      Forall (fun e => repr et (snd e)) m ->
      repr (TMap TString et) (VMap TString et (Some m))
  | repr_slice (et : rtype) (s : list value) :
      et <> TUint8 ->
      (length s <= 10)%nat ->
      Forall (repr et) s ->
      repr (TSlice et) (VSlice et (Some s))
  | repr_struct (fs : list (gostring * (rtype * value))) :
      NoDup (map fst fs) ->
      Forall (fun f => fst (snd f) <> TInterface /\ repr (fst (snd f)) (snd (snd f))) fs ->
      repr (TStruct (map (fun f => (fst f, fst (snd f))) fs)) (VStruct fs).

(** The top-level types [Marshal] and [Unmarshal] are meant for. *)
Definition top_level (t : rtype) : Prop :=
  (exists fields, t = TStruct fields) \/ (exists et, t = TMap TString et).

(** What a target of type [pt] must hold for the decoder to fill it
    completely: a struct starts from its zero value. *)
Definition target_init (pt : rtype) (old : value) : Prop :=
  match pt with
  | TStruct _ => old = zero_value pt
  | _ => True
  end.

(** [map[string]any{"a": int(5)}] and what it is decoded to. *)
Definition int_doc : value := VMap TString TInterface (Some [(str "a", VInt 5)]).

Definition int_doc_bytes : list byte :=
  hex [16; 0; 0; 0; 0x12; 0x61; 0; 5; 0; 0; 0; 0; 0; 0; 0; 0].

(** [decodes_as pt old v tag p]: with enough fuel, [readEvalue] at a target
    of type [pt] holding [old] reads the payload [p] of an element of type
    [tag] as [v], whatever follows [p]. *)
Definition decodes_as (pt : rtype) (old v : value) (tag : Z) (p : list byte) : Prop :=
  exists F0, forall F rest,
      (F0 <= F)%nat ->
      readEvalue F (p ++ rest) pt old tag = (v, DOk (Z.of_nat (length p)) rest).

(** [element_ok rec t v]: whatever [rec] appends for [v] is read back as [v]
    at a target of type [t]. *)
Definition element_ok (rec : list byte -> value -> eres) (t : rtype) (v : value) : Prop :=
  forall p,
    rec [] v = ERet p None ->
    exists tag,
      getEtype v = GRet tag None /\ 0 < tag < 256 /\
      forall old, target_init t old -> decodes_as t old v tag p.

(** [slot et t v]: in a container of element type [et], the element [v] is
    validated and read through a temporary of type [t]. *)
Definition slot (et t : rtype) (v : value) : Prop :=
  forall tag,
    getEtype v = GRet tag None ->
    validateEtypeCanBeDeserializeToRtype tag et = None /\
    exists tmp,
      new_tmp tag et (rtype_eqb et TInterface) = inl (t, tmp) /\ target_init t tmp.

(** What the loop of a document reader returns at the terminator, [a]
    being the size accumulated before it. *)
Definition at_terminator (target : value) (L a : Z) (rest : list byte) : value * dres :=
  if a + 1 =? L then (target, DOk (a + 1) rest)
  else (target, DErr (ErrSizeMismatch L (a + 1))).

(** ** Notions used in the proofs *)

Definition local_read {A : Type} (r : list byte -> rres A) : Prop :=
  forall buffer a n rest,
    r buffer = ROk a n rest ->
    exists used,
      buffer = used ++ rest /\ Z.of_nat (length used) = n /\
      forall rest', r (used ++ rest') = ROk a n rest'.

Definition local_doc (r : list byte -> value * dres) : Prop :=
  forall buffer v n rest,
    r buffer = (v, DOk n rest) ->
    exists used,
      buffer = used ++ rest /\ Z.of_nat (length used) = n /\
      forall rest', r (used ++ rest') = (v, DOk n rest').

Definition local_loop (r : list byte -> Z -> value * dres) : Prop :=
  forall buffer a v n rest,
    r buffer a = (v, DOk n rest) ->
    exists used,
      buffer = used ++ rest /\ a + Z.of_nat (length used) = n /\
      forall rest', r (used ++ rest') a = (v, DOk n rest').

Definition readers_local (fuel : nat) : Prop :=
  (forall pt old et, local_doc (fun b => readEvalue fuel b pt old et)) /\
  (forall old, local_doc (fun b => readStruct fuel b old)) /\
  (forall cur L, local_loop (fun b a => readStruct_loop fuel b cur L a)) /\
  (forall pt old, local_doc (fun b => readMap fuel b pt old)) /\
  (forall kt et entries L, local_loop (fun b a => readMap_loop fuel b kt et entries L a)) /\
  (forall pt old, local_doc (fun b => readArray fuel b pt old)) /\
  (forall et elems L, local_loop (fun b a => readArray_loop fuel b et elems L a)).

(** The outcome of a loop, in terms of the bytes it went through: on
    success they are [numread - actualSize] bytes and [numread] is the
    expected size; a size mismatch is reported at a terminator, with the
    count of the bytes up to and including it. *)
Definition loop_accounts (L : Z) (buffer : list byte) (a : Z) (r : dres) : Prop :=
  match r with
  | DOk n rest =>
      n = L /\ exists used, buffer = used ++ rest /\ n = a + Z.of_nat (length used)
  | DErr (ErrSizeMismatch L' a') =>
      L' = L /\ a' <> L /\
      exists used rest, buffer = used ++ x00 :: rest /\ a' = a + Z.of_nat (length used) + 1
  | _ => True
  end.

(** The outcome of a document reader in terms of its input: on success
    [numread] is the declared length and the number of bytes consumed; a size
    mismatch of the document itself is found at its terminator and reports
    the declared length and the bytes consumed up to and including it. *)
Definition doc_accounts (buffer : list byte) (r : dres) : Prop :=
  match r with
  | DOk n rest =>
      n = declared_length buffer /\
      exists used, buffer = used ++ rest /\ n = Z.of_nat (length used)
  | DErr (ErrSizeMismatch L a) =>
      L = declared_length buffer /\ a <> L /\
      exists used rest, buffer = used ++ x00 :: rest /\ a = Z.of_nat (length used) + 1
  | _ => True
  end.

Definition fuel_stable (fuel : nat) : Prop :=
  (forall b pt old et,
      snd (readEvalue fuel b pt old et) <> DOutOfFuel ->
      readEvalue (S fuel) b pt old et = readEvalue fuel b pt old et) /\
  (forall b old,
      snd (readStruct fuel b old) <> DOutOfFuel ->
      readStruct (S fuel) b old = readStruct fuel b old) /\
  (forall b cur L a,
      snd (readStruct_loop fuel b cur L a) <> DOutOfFuel ->
      readStruct_loop (S fuel) b cur L a = readStruct_loop fuel b cur L a) /\
  (forall b pt old,
      snd (readMap fuel b pt old) <> DOutOfFuel ->
      readMap (S fuel) b pt old = readMap fuel b pt old) /\
  (forall b kt et entries L a,
      snd (readMap_loop fuel b kt et entries L a) <> DOutOfFuel ->
      readMap_loop (S fuel) b kt et entries L a = readMap_loop fuel b kt et entries L a) /\
  (forall b pt old,
      snd (readArray fuel b pt old) <> DOutOfFuel ->
      readArray (S fuel) b pt old = readArray fuel b pt old) /\
  (forall b et elems L a,
      snd (readArray_loop fuel b et elems L a) <> DOutOfFuel ->
      readArray_loop (S fuel) b et elems L a = readArray_loop fuel b et elems L a).

Definition fuel_enough (fuel : nat) : Prop :=
  (forall b pt old et,
      (length b + 2 <= fuel)%nat -> snd (readEvalue fuel b pt old et) <> DOutOfFuel) /\
  (forall b old,
      (length b + 1 <= fuel)%nat -> snd (readStruct fuel b old) <> DOutOfFuel) /\
  (forall b cur L a,
      (length b + 1 <= fuel)%nat -> snd (readStruct_loop fuel b cur L a) <> DOutOfFuel) /\
  (forall b pt old,
      (length b + 1 <= fuel)%nat -> snd (readMap fuel b pt old) <> DOutOfFuel) /\
  (forall b kt et entries L a,
      (length b + 1 <= fuel)%nat ->
      snd (readMap_loop fuel b kt et entries L a) <> DOutOfFuel) /\
  (forall b pt old,
      (length b + 1 <= fuel)%nat -> snd (readArray fuel b pt old) <> DOutOfFuel) /\
  (forall b et elems L a,
      (length b + 1 <= fuel)%nat ->
      snd (readArray_loop fuel b et elems L a) <> DOutOfFuel).

Definition leP (a b : gostring) : Prop := string_leb a b = true.

Definition same_outcome (pre : list byte) (r0 r : eres) : Prop :=
  match r0 with
  | ERet d None => r = ERet (pre ++ d) None
  | ERet _ (Some e) => exists b, r = ERet b (Some e)
  | EPanic => r = EPanic
  | EOutOfFuel => r = EOutOfFuel
  end.

Definition frames (rec : list byte -> value -> eres) : Prop :=
  forall pre b v, same_outcome pre (rec b v) (rec (pre ++ b) v).

Definition encoder_frames (fuel : nat) : Prop :=
  frames (appendAny fuel) /\
  (forall pre b doc, same_outcome pre (appendMap fuel b doc) (appendMap fuel (pre ++ b) doc)) /\
  frames (appendOther fuel).

(** Documents with the same keys and logically equal values under each
    key. *)
Definition same_doc (d1 d2 : list (gostring * value)) : Prop :=
  Permutation (map_keys d1) (map_keys d2) /\
  forall key, veq (doc_get key d1) (doc_get key d2).

(** ** Inputs of the further properties *)

(** The element types the package implements. *)
Definition supported_etype (tag : Z) : bool :=
  existsb (Z.eqb tag)
    [kEtypeDouble; kEtypeString; kEtypeDocument; kEtypeArray; kEtypeBinary;
     kEtypeBoolean; kEtypeUtcDatetime; kEtypeInt32; kEtypeInt64].

(** Names and declared types of the fields of a struct value. *)
Definition field_types (cs : list (gostring * (rtype * value))) : list (gostring * rtype) :=
  map (fun f => (fst f, fst (snd f))) cs.

(** The order in which the elements of a slice of eleven are written. *)
Definition eleven_order (s : list value) : list value :=
  map (fun i => nth i s VNil) [0; 1; 10; 2; 3; 4; 5; 6; 7; 8; 9]%nat.

(** The elements of a slice in the order in which [appendMap] writes them:
    the order of the decimal indices as strings. *)
Definition slice_read_order (s : list value) : list value :=
  map (fun key => doc_get key (convertReflectSliceToMapStringAny (Some s)))
    (sortedKeys (convertReflectSliceToMapStringAny (Some s))).

Definition eleven_ints : list value := map VInt32 [0; 1; 2; 3; 4; 5; 6; 7; 8; 9; 10].

(** What a struct target holding the fields [cs] holds after the fields
    [fs] have been decoded into it. *)
Definition merge_fields (fs cs : list (gostring * (rtype * value)))
  : list (gostring * (rtype * value)) :=
  map (fun c =>
         (fst c,
          (fst (snd c),
           match lookup (fst c) fs with Some (_, v) => v | None => snd (snd c) end))) cs.

(* ================================================================== *)
(** * Properties *)

(** ** The example of the package documentation *)

Example Marshal_ExampleStruct : Marshal ExampleStruct = ERet example_bytes None.
Proof. vm_compute. reflexivity. Qed.

Example Unmarshal_ExampleStruct :
  Unmarshal example_bytes ExampleStruct_rtype (zero_value ExampleStruct_rtype)
  = (ExampleStruct, UOk).
Proof. vm_compute. reflexivity. Qed.

Example Unmarshal_example_map :
  Unmarshal example_bytes (TMap TString TInterface) (VMap TString TInterface None)
  = (VMap TString TInterface
       (Some [(str "BSON",
               VSlice TInterface
                 (Some [VString (str "awesome"); VFloat64 0x4014333333333333; VInt32 1986]))]),
     UOk).
Proof. vm_compute. reflexivity. Qed.

(** ** Bytes and little-endian integers *)

Lemma byte_val_range (b : byte) : 0 <= byte_val b < 256.
Proof.
  unfold byte_val. pose proof (Byte.to_N_bounded b). lia.
Qed.

Lemma byte_val_of_Z (z : Z) : byte_val (byte_of_Z z) = z mod 256.
Proof.
  unfold byte_val, byte_of_Z.
  pose proof (Z.mod_pos_bound z 256 ltac:(lia)) as Hz.
  destruct (Byte.of_N (Z.to_N (z mod 256))) as [b|] eqn:E.
  - apply Byte.to_of_N in E. rewrite E. lia.
  - apply Byte.of_N_None_iff in E. lia.
Qed.

Lemma byte_of_Z_val (b : byte) : byte_of_Z (byte_val b) = b.
Proof.
  unfold byte_of_Z. pose proof (byte_val_range b) as Hb.
  rewrite Z.mod_small by lia. unfold byte_val. rewrite N2Z.id.
  now rewrite Byte.of_to_N.
Qed.

Lemma byte_val_inj (a b : byte) : byte_val a = byte_val b -> a = b.
Proof.
  intros H. rewrite <- (byte_of_Z_val a), <- (byte_of_Z_val b). now rewrite H.
Qed.

Lemma length_le_bytes (n : nat) (z : Z) : length (le_bytes n z) = n.
Proof.
  revert z. induction n as [|n IH]; intros z; simpl; [reflexivity|]. now rewrite IH.
Qed.

Lemma le_unsigned_le_bytes (n : nat) (z : Z) :
  le_unsigned (le_bytes n z) = z mod 256 ^ Z.of_nat n.
Proof.
  revert z. induction n as [|n IH]; intros z.
  - simpl. now rewrite Z.mod_1_r.
  - cbn [le_bytes le_unsigned]. rewrite byte_val_of_Z, IH.
    rewrite Nat2Z.inj_succ, Z.pow_succ_r by lia.
    rewrite Z.rem_mul_r by lia. reflexivity.
Qed.

Lemma le_unsigned_range (bs : list byte) :
  0 <= le_unsigned bs < 256 ^ Z.of_nat (length bs).
Proof.
  induction bs as [|b bs IH].
  - simpl. lia.
  - cbn [le_unsigned length]. rewrite Nat2Z.inj_succ, Z.pow_succ_r by lia.
    pose proof (byte_val_range b). lia.
Qed.

Lemma le_bytes_le_unsigned (bs : list byte) :
  le_bytes (length bs) (le_unsigned bs) = bs.
Proof.
  induction bs as [|b bs IH]; [reflexivity|].
  cbn [length le_bytes le_unsigned]. pose proof (byte_val_range b) as Hb.
  f_equal.
  - rewrite <- (byte_of_Z_val b) at 2. unfold byte_of_Z.
    replace ((byte_val b + 256 * le_unsigned bs) mod 256) with (byte_val b mod 256);
      [reflexivity|].
    replace (byte_val b + 256 * le_unsigned bs) with (byte_val b + le_unsigned bs * 256)
      by lia.
    rewrite Z.mod_add by lia. reflexivity.
  - replace ((byte_val b + 256 * le_unsigned bs) / 256) with (le_unsigned bs); [exact IH|].
    replace (byte_val b + 256 * le_unsigned bs) with (byte_val b + le_unsigned bs * 256)
      by lia.
    rewrite Z.div_add by lia.
    rewrite (Z.div_small (byte_val b)) by lia. lia.
Qed.

Lemma wrap32_id (z : Z) : in_int32 z -> wrap32 z = z.
Proof.
  unfold in_int32, wrap32. intros H. rewrite Z.mod_small by lia. lia.
Qed.

Lemma wrap64_id (z : Z) : in_int64 z -> wrap64 z = z.
Proof.
  unfold in_int64, wrap64. intros H. rewrite Z.mod_small by lia. lia.
Qed.

Lemma wrap32_mod (z : Z) : wrap32 (z mod 2 ^ 32) = wrap32 z.
Proof.
  unfold wrap32. f_equal. rewrite Zplus_mod_idemp_l. reflexivity.
Qed.

Lemma wrap64_mod (z : Z) : wrap64 (z mod 2 ^ 64) = wrap64 z.
Proof.
  unfold wrap64. f_equal. rewrite Zplus_mod_idemp_l. reflexivity.
Qed.

Lemma wrap32_range (z : Z) : in_int32 (wrap32 z).
Proof.
  unfold in_int32, wrap32. pose proof (Z.mod_pos_bound (z + 2 ^ 31) (2 ^ 32) ltac:(lia)). lia.
Qed.

Lemma wrap64_range (z : Z) : in_int64 (wrap64 z).
Proof.
  unfold in_int64, wrap64. pose proof (Z.mod_pos_bound (z + 2 ^ 63) (2 ^ 64) ltac:(lia)). lia.
Qed.

Lemma int32_of_bytes (z : Z) : wrap32 (le_unsigned (le_bytes 4 z)) = wrap32 z.
Proof.
  rewrite le_unsigned_le_bytes. change (256 ^ Z.of_nat 4) with (2 ^ 32). apply wrap32_mod.
Qed.

Lemma int64_of_bytes (z : Z) : wrap64 (le_unsigned (le_bytes 8 z)) = wrap64 z.
Proof.
  rewrite le_unsigned_le_bytes. change (256 ^ Z.of_nat 8) with (2 ^ 64). apply wrap64_mod.
Qed.

(** ** Primitive readers on what the encoder appends *)

Lemma read_full_app (n : nat) (bs rest : list byte) :
  length bs = n -> read_full n (bs ++ rest) = ROk bs (Z.of_nat n) rest.
Proof.
  intros Hlen. unfold read_full.
  assert (Hlt : (length (bs ++ rest) <? n)%nat = false).
  { apply Nat.ltb_ge. rewrite length_app. lia. }
  rewrite Hlt. subst n.
  rewrite firstn_app, firstn_all, Nat.sub_diag, firstn_O, app_nil_r.
  rewrite skipn_app, skipn_all, Nat.sub_diag. reflexivity.
Qed.

Lemma readInt32_app (z : Z) (rest : list byte) :
  readInt32 (le_bytes 4 z ++ rest) = ROk (wrap32 z) kInt32Size rest.
Proof.
  unfold readInt32. rewrite read_full_app by apply length_le_bytes.
  now rewrite int32_of_bytes.
Qed.

Lemma readInt64_app (z : Z) (rest : list byte) :
  readInt64 (le_bytes 8 z ++ rest) = ROk (wrap64 z) kInt64Size rest.
Proof.
  unfold readInt64. rewrite read_full_app by apply length_le_bytes.
  now rewrite int64_of_bytes.
Qed.

Lemma readFloat64_app (bits : Z) (rest : list byte) :
  readFloat64 (le_bytes 8 bits ++ rest) = ROk (bits mod 2 ^ 64) kFloat64Size rest.
Proof.
  unfold readFloat64. rewrite read_full_app by apply length_le_bytes.
  now rewrite le_unsigned_le_bytes.
Qed.

(** ** Locality of the readers

    A reader that succeeds has consumed a prefix [used] of the buffer, reports
    its length as [numread], and does the same whatever follows [used]. *)

Lemma read_full_inv (n : nat) (buffer bs rest : list byte) (m : Z) :
  read_full n buffer = ROk bs m rest ->
  buffer = bs ++ rest /\ length bs = n /\ m = Z.of_nat n.
Proof.
  unfold read_full. destruct (length buffer <? n)%nat eqn:E.
  - destruct buffer; discriminate.
  - intros H. inversion H; subst. apply Nat.ltb_ge in E.
    rewrite firstn_skipn. split; [reflexivity|]. split; [|reflexivity].
    rewrite length_firstn. lia.
Qed.

Lemma read_full_local (n : nat) : local_read (read_full n).
Proof.
  intros buffer bs m rest H. apply read_full_inv in H as (-> & Hlen & ->).
  exists bs. split; [reflexivity|]. split; [now rewrite Hlen|].
  intros rest'. now apply read_full_app.
Qed.

Lemma local_read_map {A B : Type} (r : list byte -> rres A) (g : A -> B) (k : Z) (n0 : nat) :
  local_read r ->
  (forall buffer a n rest, r buffer = ROk a n rest -> n = Z.of_nat n0) ->
  k = Z.of_nat n0 ->
  local_read (fun buffer =>
                match r buffer with
                | ROk a _ rest => ROk (g a) k rest
                | RErr e => RErr e
                | RPanic => RPanic
                end).
Proof.
  intros Hr Hn Hk buffer b n rest H.
  destruct (r buffer) as [a n' rest0| |] eqn:E; try discriminate.
  inversion H; subst b n rest0. pose proof (Hn _ _ _ _ E) as ->.
  destruct (Hr _ _ _ _ E) as (used & -> & Hlen & Hext).
  exists used. split; [reflexivity|]. split; [lia|].
  intros rest'. now rewrite Hext.
Qed.

Lemma read_full_numread (n : nat) buffer a m rest :
  read_full n buffer = ROk a m rest -> m = Z.of_nat n.
Proof. intros H. now apply read_full_inv in H. Qed.

Lemma readInt32_local : local_read readInt32.
Proof.
  apply (local_read_map (read_full 4) (fun bs => wrap32 (le_unsigned bs)) kInt32Size 4);
    [apply read_full_local | apply read_full_numread | reflexivity].
Qed.

Lemma readInt64_local : local_read readInt64.
Proof.
  apply (local_read_map (read_full 8) (fun bs => wrap64 (le_unsigned bs)) kInt64Size 8);
    [apply read_full_local | apply read_full_numread | reflexivity].
Qed.

Lemma readFloat64_local : local_read readFloat64.
Proof.
  apply (local_read_map (read_full 8) le_unsigned kFloat64Size 8);
    [apply read_full_local | apply read_full_numread | reflexivity].
Qed.

Lemma ReadByte_local : local_read ReadByte.
Proof.
  intros buffer b n rest H. destruct buffer as [|x buffer]; [discriminate|].
  inversion H; subst. exists [b]. repeat split.
Qed.

Lemma readEtype_local : local_read readEtype.
Proof.
  intros buffer b n rest H. unfold readEtype in *.
  destruct buffer as [|x buffer]; [discriminate|]. simpl in H.
  inversion H; subst. exists [x]. repeat split.
Qed.

Lemma readBoolean_local : local_read readBoolean.
Proof.
  intros buffer b n rest H. unfold readBoolean in H.
  destruct buffer as [|x buffer]; cbn in H; [discriminate H|].
  exists [x]. unfold readBoolean. cbn.
  destruct (byte_val x =? 0).
  - inversion H; subst. repeat split.
  - destruct (byte_val x =? 1); [|discriminate H].
    inversion H; subst. repeat split.
Qed.

Lemma readEname_loop_local (buffer : list byte) :
  forall acc ename n rest,
    readEname_loop buffer acc = ROk ename n rest ->
    exists used,
      buffer = used ++ rest /\
      Z.of_nat (length used) = n - Z.of_nat (length acc) /\
      forall rest', readEname_loop (used ++ rest') acc = ROk ename n rest'.
Proof.
  induction buffer as [|b buffer IH]; intros acc ename n rest H; [discriminate|].
  cbn [readEname_loop] in H. destruct (byte_val b =? 0) eqn:E.
  - inversion H; subst. exists [b]. split; [reflexivity|]. split; [cbn; lia|].
    intros rest'. cbn. now rewrite E.
  - destruct (IH _ _ _ _ H) as (used & -> & Hlen & Hext).
    exists (b :: used). split; [reflexivity|]. split.
    + rewrite length_app in Hlen. cbn [length] in *. lia.
    + intros rest'. cbn. rewrite E. apply Hext.
Qed.

Lemma readEname_local : local_read readEname.
Proof.
  intros buffer ename n rest H. unfold readEname in *.
  destruct (readEname_loop_local _ _ _ _ _ H) as (used & -> & Hlen & Hext).
  exists used. split; [reflexivity|]. split; [cbn in Hlen; lia|exact Hext].
Qed.

Lemma buffer_Read_full (n : nat) (buffer bs rest : list byte) (m : Z) :
  buffer_Read n buffer = ROk bs m rest ->
  m = Z.of_nat n ->
  buffer = bs ++ rest /\ length bs = n /\
  forall rest', buffer_Read n (bs ++ rest') = ROk bs m rest'.
Proof.
  unfold buffer_Read. intros H Hm. destruct buffer as [|x buffer].
  - destruct (n =? 0)%nat eqn:E; [|discriminate]. apply Nat.eqb_eq in E. subst n.
    inversion H; subst. split; [reflexivity|]. split; [reflexivity|].
    intros rest'. cbn. destruct rest'; reflexivity.
  - injection H as Hbs Hnum Hrest. subst bs rest m.
    assert (Hle : (n <= length (x :: buffer))%nat) by (cbn [length] in *; lia).
    rewrite firstn_skipn. split; [reflexivity|]. split; [rewrite length_firstn; lia|].
    intros rest'. remember (firstn n (x :: buffer)) as pre eqn:Epre.
    assert (Hpre : length pre = n) by (subst pre; rewrite length_firstn; lia).
    clear Epre.
    destruct (pre ++ rest') as [|y l] eqn:E.
    + apply app_eq_nil in E as [E1 E2]. rewrite E1 in Hpre. cbn in Hpre. subst n.
      cbn. rewrite E1, E2. reflexivity.
    + rewrite <- E. rewrite firstn_app, firstn_all2 by lia.
      replace (n - length pre)%nat with O by lia. rewrite firstn_O, app_nil_r.
      rewrite skipn_app, skipn_all2 by lia.
      replace (n - length pre)%nat with O by lia. cbn [skipn app].
      rewrite length_app. f_equal. lia.
Qed.

Lemma ReadByte_inv (buffer : list byte) (b : byte) (n : Z) (rest : list byte) :
  ReadByte buffer = ROk b n rest -> buffer = b :: rest /\ n = 1.
Proof.
  destruct buffer as [|x buffer]; cbn; intros H; [discriminate H|].
  injection H as -> <- ->. split; reflexivity.
Qed.

Lemma readInt32_inv (buffer : list byte) (z n : Z) (rest : list byte) :
  readInt32 buffer = ROk z n rest ->
  exists used, buffer = used ++ rest /\ length used = 4%nat /\ n = 4 /\
               z = wrap32 (le_unsigned used).
Proof.
  unfold readInt32. intros H.
  destruct (read_full 4 buffer) as [bs m r| |] eqn:E; try discriminate H.
  injection H as <- <- <-. apply read_full_inv in E as (-> & Hlen & ->).
  exists bs. repeat split; assumption.
Qed.

Lemma readEstring_local : local_read readEstring.
Proof.
  intros buffer s n rest H. unfold readEstring in H.
  destruct (readInt32 buffer) as [size n1 b1| |] eqn:E1; try discriminate H.
  destruct (readInt32_local _ _ _ _ E1) as (u1 & -> & Hl1 & X1).
  destruct (size - 1 <? 0) eqn:Eneg; [discriminate H|].
  destruct (buffer_Read (Z.to_nat (size - 1)) b1) as [bs m b2| |] eqn:E2; try discriminate H.
  destruct (m =? Z.of_nat (Z.to_nat (size - 1))) eqn:Em; [|discriminate H].
  apply Z.eqb_eq in Em. cbn [negb] in H.
  destruct (buffer_Read_full _ _ _ _ _ E2 Em) as (-> & Hl2 & X2).
  destruct (ReadByte b2) as [nt n3 b3| |] eqn:E3; try discriminate H.
  apply ReadByte_inv in E3 as (-> & ->).
  destruct (byte_val nt =? 0) eqn:Ent; [|discriminate H]. cbn [negb] in H.
  injection H as <- <- <-.
  apply readInt32_inv in E1 as (u & _ & _ & -> & _).
  apply Z.ltb_ge in Eneg.
  exists (u1 ++ bs ++ [nt]). split; [now rewrite <- !app_assoc|]. split.
  - rewrite !length_app. cbn [length]. unfold kInt32Size. lia.
  - intros rest'. unfold readEstring. rewrite <- !app_assoc, X1.
    assert ((size - 1 <? 0) = false) as -> by (apply Z.ltb_ge; lia).
    rewrite X2. rewrite Em, Z.eqb_refl. cbn. rewrite Ent. reflexivity.
Qed.

Lemma readEbinary_local : local_read readEbinary.
Proof.
  intros buffer s n rest H. unfold readEbinary in H.
  destruct (readInt32 buffer) as [size n1 b1| |] eqn:E1; try discriminate H.
  destruct (readInt32_local _ _ _ _ E1) as (u1 & -> & Hl1 & X1).
  destruct (ReadByte b1) as [st n2 b2| |] eqn:E2; try discriminate H.
  apply ReadByte_inv in E2 as (-> & ->).
  destruct (size <? 0) eqn:Eneg; [discriminate H|].
  destruct (buffer_Read (Z.to_nat size) b2) as [bs m b3| |] eqn:E3; try discriminate H.
  destruct (m =? Z.of_nat (Z.to_nat size)) eqn:Em; [|discriminate H].
  apply Z.eqb_eq in Em. cbn [negb] in H.
  destruct (buffer_Read_full _ _ _ _ _ E3 Em) as (-> & Hl3 & X3).
  injection H as <- <- <-.
  apply readInt32_inv in E1 as (u & _ & _ & -> & _).
  apply Z.ltb_ge in Eneg.
  exists (u1 ++ st :: bs). split; [now rewrite <- !app_assoc|]. split.
  - rewrite !length_app. cbn [length]. unfold kInt32Size, kSubtypeSize. lia.
  - intros rest'. unfold readEbinary. rewrite <- !app_assoc, X1. cbn [app ReadByte].
    assert ((size <? 0) = false) as -> by (apply Z.ltb_ge; lia).
    rewrite X3. rewrite Em, Z.eqb_refl. reflexivity.
Qed.

Lemma store_local {A : Type} (mk : A -> value) (old : value) (r : list byte -> rres A) :
  local_read r -> local_doc (fun buffer => store mk old (r buffer)).
Proof.
  intros Hr buffer v n rest H. unfold store in H.
  destruct (r buffer) as [a n' rest0| |] eqn:E; try discriminate H.
  injection H as <- <- <-.
  destruct (Hr _ _ _ _ E) as (used & -> & Hlen & Hext).
  exists used. split; [reflexivity|]. split; [exact Hlen|].
  intros rest'. unfold store. now rewrite Hext.
Qed.

Lemma readEvalue_local_step (f : nat) :
  readers_local f -> forall pt old et, local_doc (fun b => readEvalue (S f) b pt old et).
Proof.
  intros (IHe & IHs & _ & IHm & _ & IHa & _) pt old et.
  unfold local_doc. cbn [readEvalue].
  destruct (et =? kEtypeDouble).
  { destruct (rtype_eqb pt TFloat64); [apply store_local, readFloat64_local|].
    intros ? ? ? ? H; discriminate H. }
  destruct (et =? kEtypeString).
  { destruct (rtype_eqb pt TString); [apply store_local, readEstring_local|].
    intros ? ? ? ? H; discriminate H. }
  destruct (et =? kEtypeBinary).
  { destruct (rtype_eqb pt (TSlice TUint8)); [apply store_local, readEbinary_local|].
    intros ? ? ? ? H; discriminate H. }
  destruct (et =? kEtypeBoolean).
  { destruct (rtype_eqb pt TBool); [apply store_local, readBoolean_local|].
    intros ? ? ? ? H; discriminate H. }
  destruct (et =? kEtypeUtcDatetime).
  { destruct (rtype_eqb pt TTime); [apply store_local, readInt64_local|].
    intros ? ? ? ? H; discriminate H. }
  destruct (et =? kEtypeInt32).
  { destruct (rtype_eqb pt TInt32); [apply store_local, readInt32_local|].
    intros ? ? ? ? H; discriminate H. }
  destruct (et =? kEtypeInt64).
  { destruct pt; try (intros ? ? ? ? H; discriminate H);
      apply store_local, readInt64_local. }
  destruct (et =? kEtypeDocument).
  { destruct (Kind pt); try (intros ? ? ? ? H; discriminate H);
      [apply IHm | apply IHs]. }
  destruct (et =? kEtypeArray); [apply IHa|].
  intros ? ? ? ? H; discriminate H.
Qed.

Lemma readStruct_loop_local_step (f : nat) :
  readers_local f -> forall cur L, local_loop (fun b a => readStruct_loop (S f) b cur L a).
Proof.
  intros (IHe & _ & IHl & _) cur L buffer a v n rest H.
  cbn [readStruct_loop] in H.
  destruct (readEtype buffer) as [et n1 b1| |] eqn:E1; try discriminate H.
  destruct (readEtype_local _ _ _ _ E1) as (u1 & -> & Hl1 & X1). clear E1.
  destruct (et =? kEtypeDone) eqn:Edone.
  - destruct (a + n1 =? L) eqn:EL; cbn [negb] in H; [|discriminate H].
    injection H as <- <- <-. exists u1. split; [reflexivity|]. split; [lia|].
    intros rest'. cbn [readStruct_loop]. rewrite X1, Edone, EL. reflexivity.
  - destruct (readEname b1) as [ename n2 b2| |] eqn:E2; try discriminate H.
    destruct (readEname_local _ _ _ _ E2) as (u2 & -> & Hl2 & X2). clear E2.
    destruct (FieldByName cur ename) as [ft fv|ft| |] eqn:EF; try discriminate H.
    + destruct (validateEtypeCanBeDeserializeToRtype et ft) eqn:EV; [discriminate H|].
      destruct (readEvalue f b2 ft fv et) as [fv' r] eqn:E3.
      destruct r as [n3 b3| | |]; try discriminate H.
      destruct (IHe _ _ _ _ _ _ _ E3) as (u3 & -> & Hl3 & X3). clear E3.
      destruct (IHl _ _ _ _ _ _ _ H) as (u4 & -> & Hl4 & X4). clear H.
      exists (u1 ++ u2 ++ u3 ++ u4). split; [now rewrite <- !app_assoc|]. split.
      * rewrite !length_app. lia.
      * intros rest'. cbn [readStruct_loop]. rewrite <- !app_assoc.
        rewrite X1, Edone, X2, EF, EV, X3. apply X4.
    + destruct (validateEtypeCanBeDeserializeToRtype et ft); discriminate H.
Qed.

Lemma readMap_loop_local_step (f : nat) :
  readers_local f ->
  forall kt et entries L, local_loop (fun b a => readMap_loop (S f) b kt et entries L a).
Proof.
  intros (IHe & _ & _ & _ & IHl & _) kt elt entries L buffer a v n rest H.
  cbn [readMap_loop] in H.
  destruct (readEtype buffer) as [et n1 b1| |] eqn:E1; try discriminate H.
  destruct (readEtype_local _ _ _ _ E1) as (u1 & -> & Hl1 & X1). clear E1.
  destruct (et =? kEtypeDone) eqn:Edone.
  - destruct (a + n1 =? L) eqn:EL; cbn [negb] in H; [|discriminate H].
    injection H as <- <- <-. exists u1. split; [reflexivity|]. split; [lia|].
    intros rest'. cbn [readMap_loop]. rewrite X1, Edone, EL. reflexivity.
  - destruct (readEname b1) as [ename n2 b2| |] eqn:E2; try discriminate H.
    destruct (readEname_local _ _ _ _ E2) as (u2 & -> & Hl2 & X2). clear E2.
    destruct (validateEtypeCanBeDeserializeToRtype et elt) eqn:EV; [discriminate H|].
    destruct (new_tmp et elt _) as [[tt tmp]|err] eqn:ET; [|discriminate H].
    destruct (readEvalue f b2 tt tmp et) as [tmp' r] eqn:E3.
    destruct r as [n3 b3| | |]; try discriminate H.
    destruct (IHe _ _ _ _ _ _ _ E3) as (u3 & -> & Hl3 & X3). clear E3.
    destruct (IHl _ _ _ _ _ _ _ _ _ H) as (u4 & -> & Hl4 & X4). clear H.
    exists (u1 ++ u2 ++ u3 ++ u4). split; [now rewrite <- !app_assoc|]. split.
    + rewrite !length_app. lia.
    + intros rest'. cbn [readMap_loop]. rewrite <- !app_assoc.
      rewrite X1, Edone, X2, EV, ET, X3. apply X4.
Qed.

Lemma readArray_loop_local_step (f : nat) :
  readers_local f ->
  forall et elems L, local_loop (fun b a => readArray_loop (S f) b et elems L a).
Proof.
  intros (IHe & _ & _ & _ & _ & _ & IHl) elt elems L buffer a v n rest H.
  cbn [readArray_loop] in H.
  destruct (readEtype buffer) as [et n1 b1| |] eqn:E1; try discriminate H.
  destruct (readEtype_local _ _ _ _ E1) as (u1 & -> & Hl1 & X1). clear E1.
  destruct (et =? kEtypeDone) eqn:Edone.
  - destruct (a + n1 =? L) eqn:EL; cbn [negb] in H; [|discriminate H].
    injection H as <- <- <-. exists u1. split; [reflexivity|]. split; [lia|].
    intros rest'. cbn [readArray_loop]. rewrite X1, Edone, EL. reflexivity.
  - destruct (readEname b1) as [ename n2 b2| |] eqn:E2; try discriminate H.
    destruct (readEname_local _ _ _ _ E2) as (u2 & -> & Hl2 & X2). clear E2.
    destruct (validateEtypeCanBeDeserializeToRtype et elt) eqn:EV; [discriminate H|].
    destruct (new_tmp et elt _) as [[tt tmp]|err] eqn:ET; [|discriminate H].
    destruct (readEvalue f b2 tt tmp et) as [tmp' r] eqn:E3.
    destruct r as [n3 b3| | |]; try discriminate H.
    destruct (IHe _ _ _ _ _ _ _ E3) as (u3 & -> & Hl3 & X3). clear E3.
    destruct (IHl _ _ _ _ _ _ _ _ H) as (u4 & -> & Hl4 & X4). clear H.
    exists (u1 ++ u2 ++ u3 ++ u4). split; [now rewrite <- !app_assoc|]. split.
    + rewrite !length_app. lia.
    + intros rest'. cbn [readArray_loop]. rewrite <- !app_assoc.
      rewrite X1, Edone, X2, EV, ET, X3. apply X4.
Qed.

Lemma loop_after_prefix (loop : Z -> list byte -> Z -> value * dres) (old : value) :
  (forall L, local_loop (loop L)) ->
  local_doc (fun b =>
               match readInt32 b with
               | RErr e => (old, DErr e)
               | RPanic => (old, DPanic)
               | ROk expectedSize numread b' => loop expectedSize b' (0 + numread)
               end).
Proof.
  intros Hl buffer v n rest H.
  destruct (readInt32 buffer) as [L n1 b1| |] eqn:E1; try discriminate H.
  destruct (readInt32_local _ _ _ _ E1) as (u1 & -> & Hl1 & X1). clear E1.
  destruct (Hl _ _ _ _ _ _ H) as (u2 & -> & Hl2 & X2).
  exists (u1 ++ u2). split; [now rewrite <- app_assoc|]. split.
  - rewrite length_app. lia.
  - intros rest'. rewrite <- app_assoc, X1. apply X2.
Qed.

Lemma readers_local_all (fuel : nat) : readers_local fuel.
Proof.
  induction fuel as [|f IH].
  - unfold readers_local, local_doc, local_loop. cbn.
    repeat split; intros; discriminate.
  - pose proof IH as (IHe & IHs & IHsl & IHm & IHml & IHa & IHal).
    unfold readers_local. repeat split.
    + apply readEvalue_local_step, IH.
    + intros old. unfold local_doc. cbn [readStruct].
      apply (loop_after_prefix (fun L b a => readStruct_loop f b old L a)).
      intros L. apply IHsl.
    + apply readStruct_loop_local_step, IH.
    + intros pt old. unfold local_doc. cbn [readMap].
      destruct pt; try (intros ? ? ? ? H; discriminate H).
      destruct (negb (rkind_eqb (Kind pt1) KString)); [intros ? ? ? ? H; discriminate H|].
      apply (loop_after_prefix (fun L b a => readMap_loop f b pt1 pt2 [] L a)).
      intros L. apply IHml.
    + apply readMap_loop_local_step, IH.
    + intros pt old. unfold local_doc. cbn [readArray].
      destruct pt; try (intros ? ? ? ? H; discriminate H).
      * intros ? ? ? ? H. destruct (readInt32 buffer); discriminate H.
      * apply (loop_after_prefix (fun L b a => readArray_loop f b pt [] L a)).
        intros L. apply IHal.
      * intros ? ? ? ? H. destruct (readInt32 buffer); discriminate H.
    + apply readArray_loop_local_step, IH.
Qed.

(** ** Length accounting of the document readers *)

(** What a loop returns when the next byte is the terminator. *)
Lemma readStruct_loop_done (f : nat) (rest : list byte) (cur : value) (L a : Z) :
  readStruct_loop (S f) (x00 :: rest) cur L a =
  if a + 1 =? L then (cur, DOk (a + 1) rest)
  else (cur, DErr (ErrSizeMismatch L (a + 1))).
Proof.
  cbn [readStruct_loop readEtype ReadByte]. change (byte_val x00 =? kEtypeDone) with true.
  cbv iota. unfold kEtypeSize. destruct (a + 1 =? L); reflexivity.
Qed.

Lemma readMap_loop_done (f : nat) (rest : list byte) (kt et : rtype)
    (entries : list (gostring * value)) (L a : Z) :
  readMap_loop (S f) (x00 :: rest) kt et entries L a =
  if a + 1 =? L then (VMap kt et (Some entries), DOk (a + 1) rest)
  else (VMap kt et (Some entries), DErr (ErrSizeMismatch L (a + 1))).
Proof.
  cbn [readMap_loop readEtype ReadByte]. change (byte_val x00 =? kEtypeDone) with true.
  cbv iota. unfold kEtypeSize. destruct (a + 1 =? L); reflexivity.
Qed.

Lemma readArray_loop_done (f : nat) (rest : list byte) (et : rtype)
    (elems : list value) (L a : Z) :
  readArray_loop (S f) (x00 :: rest) et elems L a =
  if a + 1 =? L then (mk_slice et elems, DOk (a + 1) rest)
  else (mk_slice et elems, DErr (ErrSizeMismatch L (a + 1))).
Proof.
  cbn [readArray_loop readEtype ReadByte]. change (byte_val x00 =? kEtypeDone) with true.
  cbv iota. unfold kEtypeSize. destruct (a + 1 =? L); reflexivity.
Qed.

Lemma readEtype_inv (buffer : list byte) (et n : Z) (rest : list byte) :
  readEtype buffer = ROk et n rest ->
  exists b, buffer = b :: rest /\ et = byte_val b /\ n = 1.
Proof.
  destruct buffer as [|b buffer]; cbn; intros H; [discriminate H|].
  injection H as <- <- <-. exists b. repeat split.
Qed.

Lemma loop_accounts_cons (L : Z) (u : list byte) (buffer : list byte) (a : Z) (r : dres) :
  loop_accounts L buffer (a + Z.of_nat (length u)) r ->
  loop_accounts L (u ++ buffer) a r.
Proof.
  unfold loop_accounts. destruct r as [n rest|e| |]; try exact (fun H => H).
  - intros (-> & used & -> & Hn). split; [reflexivity|].
    exists (u ++ used). split; [now rewrite app_assoc|]. rewrite length_app. lia.
  - destruct e; try exact (fun H => H).
    intros (-> & Hne & used & rest & -> & Hn). split; [reflexivity|]. split; [exact Hne|].
    exists (u ++ used), rest. split; [now rewrite app_assoc|]. rewrite length_app. lia.
Qed.

Lemma loop_accounts_done (L : Z) (b : byte) (rest : list byte) (a : Z) :
  byte_val b = 0 ->
  loop_accounts L (b :: rest) a
    (if negb (a + 1 =? L) then DErr (ErrSizeMismatch L (a + 1)) else DOk (a + 1) rest).
Proof.
  intros Hb. assert (b = x00) as -> by (apply byte_val_inj; rewrite Hb; reflexivity).
  destruct (a + 1 =? L) eqn:E; cbn [negb loop_accounts].
  - apply Z.eqb_eq in E. split; [exact E|]. exists [x00]. split; [reflexivity|]. cbn. lia.
  - apply Z.eqb_neq in E. split; [reflexivity|]. split; [exact E|].
    exists [], rest. split; [reflexivity|]. cbn. lia.
Qed.

Lemma readEtype_err (buffer : list byte) (e : error) :
  readEtype buffer = RErr e -> e = EOF.
Proof.
  destruct buffer; cbn; intros H; [injection H as <-; reflexivity | discriminate H].
Qed.

Lemma readEname_err (buffer : list byte) (e : error) :
  readEname buffer = RErr e -> e = EOF.
Proof.
  unfold readEname. generalize (@nil byte).
  induction buffer as [|b buffer IH]; intros acc; cbn.
  - intros H. injection H as <-. reflexivity.
  - destruct (byte_val b =? 0); [intros H; discriminate H | apply IH].
Qed.

Lemma readStruct_loop_accounts (fuel : nat) :
  forall buffer cur L a,
    loop_accounts L buffer a (snd (readStruct_loop fuel buffer cur L a)).
Proof.
  induction fuel as [|f IH]; intros buffer cur L a; [exact I|].
  cbn [readStruct_loop].
  destruct (readEtype buffer) as [et n1 b1|e|] eqn:E1;
    [|apply readEtype_err in E1 as ->; exact I|exact I].
  apply readEtype_inv in E1 as (b & -> & -> & ->).
  destruct (byte_val b =? kEtypeDone) eqn:Edone.
  - apply Z.eqb_eq in Edone. pose proof (loop_accounts_done L b b1 a Edone) as H.
    destruct (negb (a + 1 =? L)); exact H.
  - destruct (readEname b1) as [ename n2 b2|e|] eqn:E2;
      [|apply readEname_err in E2 as ->; exact I|exact I].
    destruct (readEname_local _ _ _ _ E2) as (u2 & -> & Hl2 & _). clear E2.
    destruct (FieldByName cur ename) as [ft fv|ft| |]; try exact I.
    + destruct (validateEtypeCanBeDeserializeToRtype (byte_val b) ft); [exact I|].
      destruct (readEvalue f b2 ft fv (byte_val b)) as [fv' r] eqn:E3.
      destruct r as [n3 b3| | |]; try exact I.
      destruct (proj1 (readers_local_all f) _ _ _ _ _ _ _ E3) as (u3 & -> & Hl3 & _).
      change (b :: u2 ++ u3 ++ b3) with ([b] ++ u2 ++ u3 ++ b3).
      rewrite !app_assoc. apply loop_accounts_cons.
      rewrite !length_app. cbn [length].
      replace (a + Z.of_nat (1 + length u2 + length u3)) with (a + 1 + n2 + n3) by lia.
      apply IH.
    + destruct (validateEtypeCanBeDeserializeToRtype (byte_val b) ft); exact I.
Qed.

Lemma readMap_loop_accounts (fuel : nat) :
  forall buffer kt et entries L a,
    loop_accounts L buffer a (snd (readMap_loop fuel buffer kt et entries L a)).
Proof.
  induction fuel as [|f IH]; intros buffer kt elt entries L a; [exact I|].
  cbn [readMap_loop].
  destruct (readEtype buffer) as [et n1 b1|e|] eqn:E1;
    [|apply readEtype_err in E1 as ->; exact I|exact I].
  apply readEtype_inv in E1 as (b & -> & -> & ->).
  destruct (byte_val b =? kEtypeDone) eqn:Edone.
  - apply Z.eqb_eq in Edone. pose proof (loop_accounts_done L b b1 a Edone) as H.
    destruct (negb (a + 1 =? L)); exact H.
  - destruct (readEname b1) as [ename n2 b2|e|] eqn:E2;
      [|apply readEname_err in E2 as ->; exact I|exact I].
    destruct (readEname_local _ _ _ _ E2) as (u2 & -> & Hl2 & _). clear E2.
    destruct (validateEtypeCanBeDeserializeToRtype (byte_val b) elt); [exact I|].
    destruct (new_tmp (byte_val b) elt _) as [[tt tmp]|err] eqn:ET.
    + destruct (readEvalue f b2 tt tmp (byte_val b)) as [tmp' r] eqn:E3.
      destruct r as [n3 b3| | |]; try exact I.
      destruct (proj1 (readers_local_all f) _ _ _ _ _ _ _ E3) as (u3 & -> & Hl3 & _).
      change (b :: u2 ++ u3 ++ b3) with ([b] ++ u2 ++ u3 ++ b3).
      rewrite !app_assoc. apply loop_accounts_cons.
      rewrite !length_app. cbn [length].
      replace (a + Z.of_nat (1 + length u2 + length u3)) with (a + 1 + n2 + n3) by lia.
      apply IH.
    + unfold new_tmp in ET.
      repeat match type of ET with
             | (if ?c then _ else _) = _ => destruct c; try discriminate ET
             | match ?c with _ => _ end = _ => destruct c; try discriminate ET
             end;
        injection ET as <-; exact I.
Qed.


Lemma readInt32_err (buffer : list byte) (e : error) :
  readInt32 buffer = RErr e -> e = EOF \/ e = ErrUnexpectedEOF.
Proof.
  unfold readInt32, read_full. destruct (length buffer <? 4)%nat.
  - destruct buffer; intros H; injection H as <-; auto.
  - intros H; discriminate H.
Qed.

Lemma doc_accounts_of_loop (old : value) (loop : Z -> list byte -> Z -> value * dres)
    (buffer : list byte) :
  (forall L b a, loop_accounts L b a (snd (loop L b a))) ->
  doc_accounts buffer
    (snd match readInt32 buffer with
         | RErr e => (old, DErr e)
         | RPanic => (old, DPanic)
         | ROk expectedSize numread b' => loop expectedSize b' (0 + numread)
         end).
Proof.
  intros Hloop.
  destruct (readInt32 buffer) as [L n1 b1|e|] eqn:E1.
  - apply readInt32_inv in E1 as (u & -> & Hu & -> & ->).
    specialize (Hloop (wrap32 (le_unsigned u)) b1 (0 + 4)).
    assert (Hd : declared_length (u ++ b1) = wrap32 (le_unsigned u)).
    { unfold declared_length. rewrite firstn_app, <- Hu, firstn_all, Nat.sub_diag.
      cbn [firstn]. now rewrite app_nil_r. }
    unfold doc_accounts, loop_accounts in *.
    destruct (snd (loop (wrap32 (le_unsigned u)) b1 (0 + 4))) as [n rest|e| |]; try exact I.
    + destruct Hloop as (-> & used & -> & Hn). split; [now rewrite Hd|].
      exists (u ++ used). split; [now rewrite app_assoc|]. rewrite length_app. lia.
    + destruct e; try exact I. destruct Hloop as (-> & Hne & used & rest & -> & Hn).
      split; [now rewrite Hd|]. split; [exact Hne|].
      exists (u ++ used), rest. split; [now rewrite app_assoc|]. rewrite length_app. lia.
  - apply readInt32_err in E1 as [-> | ->]; exact I.
  - exact I.
Qed.

Lemma readStruct_accounts (fuel : nat) (buffer : list byte) (old : value) :
  doc_accounts buffer (snd (readStruct fuel buffer old)).
Proof.
  destruct fuel as [|f]; [exact I|]. cbn [readStruct].
  apply (doc_accounts_of_loop old (fun L b a => readStruct_loop f b old L a)).
  intros. apply readStruct_loop_accounts.
Qed.

Lemma readMap_accounts (fuel : nat) (buffer : list byte) (pt : rtype) (old : value) :
  doc_accounts buffer (snd (readMap fuel buffer pt old)).
Proof.
  destruct fuel as [|f]; [exact I|]. cbn [readMap].
  destruct pt; try exact I.
  destruct (negb (rkind_eqb (Kind pt1) KString)); [exact I|].
  apply (doc_accounts_of_loop old (fun L b a => readMap_loop f b pt1 pt2 [] L a)).
  intros. apply readMap_loop_accounts.
Qed.



(** ** Fuel: more fuel does not change a result, and the length of the
    buffer bounds the fuel needed *)

Lemma fuel_stable_all (fuel : nat) : fuel_stable fuel.
Proof.
  induction fuel as [|f (IHe & IHs & IHsl & IHm & IHml & IHa & IHal)].
  - unfold fuel_stable. cbn. repeat split; intros; congruence.
  - unfold fuel_stable. repeat split.
    + intros b pt old et H. cbn [readEvalue] in H.
      cbn [readEvalue].
      destruct (et =? kEtypeDouble); [reflexivity|].
      destruct (et =? kEtypeString); [reflexivity|].
      destruct (et =? kEtypeBinary); [reflexivity|].
      destruct (et =? kEtypeBoolean); [reflexivity|].
      destruct (et =? kEtypeUtcDatetime); [reflexivity|].
      destruct (et =? kEtypeInt32); [reflexivity|].
      destruct (et =? kEtypeInt64); [reflexivity|].
      destruct (et =? kEtypeDocument).
      { destruct (Kind pt); try reflexivity; [apply IHm | apply IHs]; exact H. }
      destruct (et =? kEtypeArray); [|reflexivity].
      apply IHa; exact H.
    + intros b old H. cbn [readStruct] in H |- *.
      destruct (readInt32 b); try reflexivity. apply IHsl; exact H.
    + intros b cur L a H. cbn [readStruct_loop] in H.
      cbn [readStruct_loop].
      destruct (readEtype b) as [et n1 b1| |]; try reflexivity.
      destruct (et =? kEtypeDone); [reflexivity|].
      destruct (readEname b1) as [ename n2 b2| |]; try reflexivity.
      destruct (FieldByName cur ename) as [ft fv|ft| |]; try reflexivity.
      destruct (validateEtypeCanBeDeserializeToRtype et ft); [reflexivity|].
      destruct (readEvalue f b2 ft fv et) as [fv' r] eqn:E.
      assert (Hr : r <> DOutOfFuel) by (intros ->; apply H; reflexivity).
      rewrite IHe by (rewrite E; exact Hr). rewrite E.
      destruct r; try reflexivity. apply IHsl; exact H.
    + intros b pt old H. cbn [readMap] in H |- *.
      destruct pt; try reflexivity.
      destruct (negb (rkind_eqb (Kind pt1) KString)); [reflexivity|].
      destruct (readInt32 b); try reflexivity. apply IHml; exact H.
    + intros b kt elt entries L a H. cbn [readMap_loop] in H.
      cbn [readMap_loop].
      destruct (readEtype b) as [et n1 b1| |]; try reflexivity.
      destruct (et =? kEtypeDone); [reflexivity|].
      destruct (readEname b1) as [ename n2 b2| |]; try reflexivity.
      destruct (validateEtypeCanBeDeserializeToRtype et elt); [reflexivity|].
      destruct (new_tmp et elt _) as [[tt tmp]|err]; [|reflexivity].
      destruct (readEvalue f b2 tt tmp et) as [tmp' r] eqn:E.
      assert (Hr : r <> DOutOfFuel) by (intros ->; apply H; reflexivity).
      rewrite IHe by (rewrite E; exact Hr). rewrite E.
      destruct r; try reflexivity. apply IHml; exact H.
    + intros b pt old H. cbn [readArray] in H |- *.
      destruct pt; try reflexivity.
      destruct (readInt32 b); try reflexivity. apply IHal; exact H.
    + intros b elt elems L a H. cbn [readArray_loop] in H.
      cbn [readArray_loop].
      destruct (readEtype b) as [et n1 b1| |]; try reflexivity.
      destruct (et =? kEtypeDone); [reflexivity|].
      destruct (readEname b1) as [ename n2 b2| |]; try reflexivity.
      destruct (validateEtypeCanBeDeserializeToRtype et elt); [reflexivity|].
      destruct (new_tmp et elt _) as [[tt tmp]|err]; [|reflexivity].
      destruct (readEvalue f b2 tt tmp et) as [tmp' r] eqn:E.
      assert (Hr : r <> DOutOfFuel) by (intros ->; apply H; reflexivity).
      rewrite IHe by (rewrite E; exact Hr). rewrite E.
      destruct r; try reflexivity. apply IHal; exact H.
Qed.

Lemma store_fuel {A : Type} (mk : A -> value) (old : value) (r : rres A) :
  snd (store mk old r) <> DOutOfFuel.
Proof. destruct r; cbn; discriminate. Qed.

Lemma local_read_length {A : Type} (r : list byte -> rres A) buffer a n rest :
  local_read r -> r buffer = ROk a n rest -> 0 <= n ->
  Z.of_nat (length buffer) = n + Z.of_nat (length rest).
Proof.
  intros Hr H Hn. destruct (Hr _ _ _ _ H) as (used & -> & Hl & _).
  rewrite length_app. lia.
Qed.

Lemma readEname_loop_numread (buffer : list byte) :
  forall acc ename n rest,
    readEname_loop buffer acc = ROk ename n rest -> n = Z.of_nat (length ename) + 1.
Proof.
  induction buffer as [|b buffer IH]; intros acc ename n rest H; cbn in H; [discriminate H|].
  destruct (byte_val b =? 0); [|exact (IH _ _ _ _ H)].
  injection H as <- <- <-. reflexivity.
Qed.

Lemma readEname_numread (buffer : list byte) (ename : gostring) (n : Z) (rest : list byte) :
  readEname buffer = ROk ename n rest -> n = Z.of_nat (length ename) + 1.
Proof. apply readEname_loop_numread. Qed.

Lemma fuel_enough_all (fuel : nat) : fuel_enough fuel.
Proof.
  induction fuel as [|f (IHe & IHs & IHsl & IHm & IHml & IHa & IHal)].
  - unfold fuel_enough. repeat split; intros; lia.
  - unfold fuel_enough. repeat split.
    + intros b pt old et Hf. cbn [readEvalue].
      destruct (et =? kEtypeDouble).
      { destruct (rtype_eqb pt TFloat64); [apply store_fuel|discriminate]. }
      destruct (et =? kEtypeString).
      { destruct (rtype_eqb pt TString); [apply store_fuel|discriminate]. }
      destruct (et =? kEtypeBinary).
      { destruct (rtype_eqb pt (TSlice TUint8)); [apply store_fuel|discriminate]. }
      destruct (et =? kEtypeBoolean).
      { destruct (rtype_eqb pt TBool); [apply store_fuel|discriminate]. }
      destruct (et =? kEtypeUtcDatetime).
      { destruct (rtype_eqb pt TTime); [apply store_fuel|discriminate]. }
      destruct (et =? kEtypeInt32).
      { destruct (rtype_eqb pt TInt32); [apply store_fuel|discriminate]. }
      destruct (et =? kEtypeInt64).
      { destruct pt; try discriminate; apply store_fuel. }
      destruct (et =? kEtypeDocument).
      { destruct (Kind pt); try discriminate; [apply IHm | apply IHs]; lia. }
      destruct (et =? kEtypeArray); [|discriminate].
      apply IHa; lia.
    + intros b old Hf. cbn [readStruct].
      destruct (readInt32 b) as [L n1 b1| |] eqn:E1; try discriminate.
      apply readInt32_inv in E1 as (u & -> & Hu & -> & _).
      apply IHsl. rewrite length_app in Hf. lia.
    + intros b cur L a Hf. cbn [readStruct_loop].
      destruct (readEtype b) as [et n1 b1| |] eqn:E1; try discriminate.
      apply readEtype_inv in E1 as (x & -> & -> & ->).
      destruct (byte_val x =? kEtypeDone).
      { destruct (negb (a + 1 =? L)); discriminate. }
      destruct (readEname b1) as [ename n2 b2| |] eqn:E2; try discriminate.
      destruct (readEname_local _ _ _ _ E2) as (u2 & -> & Hl2 & _).
      pose proof (readEname_numread _ _ _ _ E2) as Hn2.
      cbn [length] in Hf. rewrite length_app in Hf.
      destruct (FieldByName cur ename) as [ft fv|ft| |]; try discriminate.
      * destruct (validateEtypeCanBeDeserializeToRtype (byte_val x) ft); [discriminate|].
        destruct (readEvalue f b2 ft fv (byte_val x)) as [fv' r] eqn:E3.
        pose proof (IHe b2 ft fv (byte_val x) ltac:(lia)) as He. rewrite E3 in He.
        destruct r as [n3 b3| | |]; try discriminate; [|contradiction].
        destruct (proj1 (readers_local_all f) _ _ _ _ _ _ _ E3) as (u3 & -> & _).
        apply IHsl. rewrite length_app in Hf. lia.
      * destruct (validateEtypeCanBeDeserializeToRtype (byte_val x) ft); discriminate.
    + intros b pt old Hf. cbn [readMap].
      destruct pt; try discriminate.
      destruct (negb (rkind_eqb (Kind pt1) KString)); [discriminate|].
      destruct (readInt32 b) as [L n1 b1| |] eqn:E1; try discriminate.
      apply readInt32_inv in E1 as (u & -> & Hu & -> & _).
      apply IHml. rewrite length_app in Hf. lia.
    + intros b kt elt entries L a Hf. cbn [readMap_loop].
      destruct (readEtype b) as [et n1 b1| |] eqn:E1; try discriminate.
      apply readEtype_inv in E1 as (x & -> & -> & ->).
      destruct (byte_val x =? kEtypeDone).
      { destruct (negb (a + 1 =? L)); discriminate. }
      destruct (readEname b1) as [ename n2 b2| |] eqn:E2; try discriminate.
      destruct (readEname_local _ _ _ _ E2) as (u2 & -> & Hl2 & _).
      cbn [length] in Hf. rewrite length_app in Hf.
      destruct (validateEtypeCanBeDeserializeToRtype (byte_val x) elt); [discriminate|].
      destruct (new_tmp (byte_val x) elt _) as [[tt tmp]|err]; [|discriminate].
      destruct (readEvalue f b2 tt tmp (byte_val x)) as [tmp' r] eqn:E3.
      pose proof (readEname_numread _ _ _ _ E2) as Hn2.
      pose proof (IHe b2 tt tmp (byte_val x) ltac:(lia)) as He. rewrite E3 in He.
      destruct r as [n3 b3| | |]; try discriminate; [|contradiction].
      destruct (proj1 (readers_local_all f) _ _ _ _ _ _ _ E3) as (u3 & -> & _).
      apply IHml. rewrite length_app in Hf. lia.
    + intros b pt old Hf. cbn [readArray].
      destruct pt; try discriminate.
      * destruct (readInt32 b); discriminate.
      * destruct (readInt32 b) as [L n1 b1| |] eqn:E1; try discriminate.
        apply readInt32_inv in E1 as (u & -> & Hu & -> & _).
        apply IHal. rewrite length_app in Hf. lia.
      * destruct (readInt32 b); discriminate.
    + intros b elt elems L a Hf. cbn [readArray_loop].
      destruct (readEtype b) as [et n1 b1| |] eqn:E1; try discriminate.
      apply readEtype_inv in E1 as (x & -> & -> & ->).
      destruct (byte_val x =? kEtypeDone).
      { destruct (negb (a + 1 =? L)); discriminate. }
      destruct (readEname b1) as [ename n2 b2| |] eqn:E2; try discriminate.
      destruct (readEname_local _ _ _ _ E2) as (u2 & -> & Hl2 & _).
      cbn [length] in Hf. rewrite length_app in Hf.
      destruct (validateEtypeCanBeDeserializeToRtype (byte_val x) elt); [discriminate|].
      destruct (new_tmp (byte_val x) elt _) as [[tt tmp]|err]; [|discriminate].
      destruct (readEvalue f b2 tt tmp (byte_val x)) as [tmp' r] eqn:E3.
      pose proof (readEname_numread _ _ _ _ E2) as Hn2.
      pose proof (IHe b2 tt tmp (byte_val x) ltac:(lia)) as He. rewrite E3 in He.
      destruct r as [n3 b3| | |]; try discriminate; [|contradiction].
      destruct (proj1 (readers_local_all f) _ _ _ _ _ _ _ E3) as (u3 & -> & _).
      apply IHal. rewrite length_app in Hf. lia.
Qed.

Lemma fuel_stable_le (R : nat -> value * dres) :
  (forall f, snd (R f) <> DOutOfFuel -> R (S f) = R f) ->
  forall f f', (f <= f')%nat -> snd (R f) <> DOutOfFuel -> R f' = R f.
Proof.
  intros HR f f' Hle Hf. induction Hle as [|f' Hle IH]; [reflexivity|].
  rewrite HR; rewrite IH; auto.
Qed.

Lemma readStruct_fuel (f f' : nat) (b : list byte) (old : value) :
  (length b + 1 <= f)%nat -> (f <= f')%nat -> readStruct f' b old = readStruct f b old.
Proof.
  intros Hf Hle.
  apply (fuel_stable_le (fun f => readStruct f b old)); [|exact Hle|].
  - intros g. apply (fuel_stable_all g).
  - apply (fuel_enough_all f); exact Hf.
Qed.

Lemma readMap_fuel (f f' : nat) (b : list byte) (pt : rtype) (old : value) :
  (length b + 1 <= f)%nat -> (f <= f')%nat -> readMap f' b pt old = readMap f b pt old.
Proof.
  intros Hf Hle.
  apply (fuel_stable_le (fun f => readMap f b pt old)); [|exact Hle|].
  - intros g. apply (fuel_stable_all g).
  - apply (fuel_enough_all f); exact Hf.
Qed.

(** ** Removing the last byte of a document that was read to its end *)

Lemma readStruct_loop_truncated (fuel : nat) :
  forall b cur L a v n,
    readStruct_loop fuel b cur L a = (v, DOk n []) ->
    snd (readStruct_loop fuel (removelast b) cur L a) = DErr EOF.
Proof.
  induction fuel as [|f IH]; intros b cur L a v n H; [discriminate H|].
  cbn [readStruct_loop] in H.
  destruct (readEtype b) as [et n1 b1| |] eqn:E1; try discriminate H.
  destruct (readEtype_local _ _ _ _ E1) as (u1 & -> & Hl1 & X1).
  apply readEtype_inv in E1 as (x & E1 & -> & ->).
  destruct (byte_val x =? kEtypeDone) eqn:Edone.
  - destruct (negb (a + 1 =? L)); [discriminate H|]. injection H as <- <- ->.
    rewrite app_nil_r in E1. subst u1. reflexivity.
  - destruct (readEname b1) as [ename n2 b2| |] eqn:E2; try discriminate H.
    destruct (readEname_local _ _ _ _ E2) as (u2 & -> & Hl2 & X2). clear E2.
    destruct (FieldByName cur ename) as [ft fv|ft| |] eqn:EF; try discriminate H.
    + destruct (validateEtypeCanBeDeserializeToRtype (byte_val x) ft) eqn:EV;
        [discriminate H|].
      destruct (readEvalue f b2 ft fv (byte_val x)) as [fv' r] eqn:E3.
      destruct r as [n3 b3| | |]; try discriminate H.
      destruct (proj1 (readers_local_all f) _ _ _ _ _ _ _ E3) as (u3 & -> & Hl3 & X3).
      assert (Hb3 : b3 <> []).
      { intros ->. destruct f; cbn in H; discriminate H. }
      rewrite !app_assoc, removelast_app by exact Hb3. rewrite <- !app_assoc.
      cbn [readStruct_loop]. rewrite X1, Edone, X2, EF, EV, X3.
      apply (IH _ _ _ _ _ _ H).
    + destruct (validateEtypeCanBeDeserializeToRtype (byte_val x) ft); discriminate H.
Qed.

Lemma readMap_loop_truncated (fuel : nat) :
  forall b kt elt entries L a v n,
    readMap_loop fuel b kt elt entries L a = (v, DOk n []) ->
    snd (readMap_loop fuel (removelast b) kt elt entries L a) = DErr EOF.
Proof.
  induction fuel as [|f IH]; intros b kt elt entries L a v n H; [discriminate H|].
  cbn [readMap_loop] in H.
  destruct (readEtype b) as [et n1 b1| |] eqn:E1; try discriminate H.
  destruct (readEtype_local _ _ _ _ E1) as (u1 & -> & Hl1 & X1).
  apply readEtype_inv in E1 as (x & E1 & -> & ->).
  destruct (byte_val x =? kEtypeDone) eqn:Edone.
  - destruct (negb (a + 1 =? L)); [discriminate H|]. injection H as <- <- ->.
    rewrite app_nil_r in E1. subst u1. reflexivity.
  - destruct (readEname b1) as [ename n2 b2| |] eqn:E2; try discriminate H.
    destruct (readEname_local _ _ _ _ E2) as (u2 & -> & Hl2 & X2). clear E2.
    destruct (validateEtypeCanBeDeserializeToRtype (byte_val x) elt) eqn:EV;
      [discriminate H|].
    destruct (new_tmp (byte_val x) elt _) as [[tt tmp]|err] eqn:ET; [|discriminate H].
    destruct (readEvalue f b2 tt tmp (byte_val x)) as [tmp' r] eqn:E3.
    destruct r as [n3 b3| | |]; try discriminate H.
    destruct (proj1 (readers_local_all f) _ _ _ _ _ _ _ E3) as (u3 & -> & Hl3 & X3).
    assert (Hb3 : b3 <> []).
    { intros ->. destruct f; cbn in H; discriminate H. }
    rewrite !app_assoc, removelast_app by exact Hb3. rewrite <- !app_assoc.
    cbn [readMap_loop]. rewrite X1, Edone, X2, EV, ET, X3.
    apply (IH _ _ _ _ _ _ _ _ H).
Qed.

Lemma readStruct_truncated (fuel : nat) (b : list byte) (old v : value) (n : Z) :
  readStruct fuel b old = (v, DOk n []) ->
  snd (readStruct fuel (removelast b) old) = DErr EOF.
Proof.
  destruct fuel as [|f]; intros H; [discriminate H|]. cbn [readStruct] in H.
  destruct (readInt32 b) as [L n1 b1| |] eqn:E1; try discriminate H.
  destruct (readInt32_local _ _ _ _ E1) as (u1 & -> & Hl1 & X1).
  assert (Hb1 : b1 <> []) by (intros ->; destruct f; cbn in H; discriminate H).
  rewrite removelast_app by exact Hb1. cbn [readStruct]. rewrite X1.
  apply (readStruct_loop_truncated _ _ _ _ _ _ _ H).
Qed.

Lemma readMap_truncated (fuel : nat) (b : list byte) (pt : rtype) (old v : value) (n : Z) :
  readMap fuel b pt old = (v, DOk n []) ->
  snd (readMap fuel (removelast b) pt old) = DErr EOF.
Proof.
  destruct fuel as [|f]; intros H; [discriminate H|]. cbn [readMap] in H |- *.
  destruct pt; try discriminate H.
  destruct (negb (rkind_eqb (Kind pt1) KString)); [discriminate H|].
  destruct (readInt32 b) as [L n1 b1| |] eqn:E1; try discriminate H.
  destruct (readInt32_local _ _ _ _ E1) as (u1 & -> & Hl1 & X1).
  assert (Hb1 : b1 <> []) by (intros ->; destruct f; cbn in H; discriminate H).
  rewrite removelast_app by exact Hb1. rewrite X1.
  apply (readMap_loop_truncated _ _ _ _ _ _ _ _ _ H).
Qed.

(** ** Exact consumption at the top level *)

Section TopLevel.
(** [R] is the reader [Unmarshal] chooses: [readStruct] or [readMap] at the
    target. *)
Variable R : nat -> list byte -> value * dres.
Hypothesis R_accounts : forall f b, doc_accounts b (snd (R f b)).
Hypothesis R_local : forall f, local_doc (R f).
Hypothesis R_fuel :
  forall f f' b, (length b + 1 <= f)%nat -> (f <= f')%nat -> R f' b = R f b.
Hypothesis R_truncated :
  forall f b v n, R f b = (v, DOk n []) -> snd (R f (removelast b)) = DErr EOF.

Lemma finish_ok (B : list byte) (new : value) (f : nat) :
  finish B (R f B) = (new, UOk) ->
  R f B = (new, DOk (Z.of_nat (length B)) []) /\
  declared_length B = Z.of_nat (length B).
Proof.
  unfold finish. pose proof (R_accounts f B) as Hacc.
  destruct (R f B) as [v r]. destruct r as [n rest|e| |]; try discriminate.
  destruct (negb (n =? Z.of_nat (length B))) eqn:E; [discriminate|].
  intros H. injection H as ->. apply negb_false_iff, Z.eqb_eq in E. subst n.
  cbn in Hacc. destruct Hacc as (Hd & used & HB & Hn).
  assert (rest = []) as ->.
  { assert (Hl : length B = length (used ++ rest)) by now rewrite <- HB.
    rewrite length_app in Hl. destruct rest; [reflexivity|]. cbn in Hl. lia. }
  split; [reflexivity|]. now rewrite <- Hd.
Qed.

Lemma top_exact (B : list byte) (new : value) (x : byte) :
  finish B (R (length B + 2) B) = (new, UOk) ->
  declared_length B = Z.of_nat (length B) /\
  finish (B ++ [x]) (R (length (B ++ [x]) + 2) (B ++ [x])) =
    (new, UErr (ErrNotConsumed (Z.of_nat (length B)) (Z.of_nat (length B) + 1))) /\
  snd (finish (removelast B) (R (length (removelast B) + 2) (removelast B))) =
    UErr (WrapUnmarshal EOF).
Proof.
  intros H. apply finish_ok in H as (HR & Hd). split; [exact Hd|]. split.
  - destruct (R_local _ _ _ _ _ HR) as (used & HB & _ & Hext).
    rewrite app_nil_r in HB. subst used.
    rewrite (R_fuel (length B + 2) (length (B ++ [x]) + 2));
      [|rewrite length_app; cbn; lia|rewrite length_app; lia].
    rewrite Hext. unfold finish. rewrite length_app. cbn [length].
    assert ((Z.of_nat (length B) =? Z.of_nat (length B + 1)) = false) as ->
        by (apply Z.eqb_neq; lia).
    cbn [negb]. do 3 f_equal. lia.
  - pose proof (R_truncated _ _ _ _ HR) as Ht.
    assert (Hlen : (length (removelast B) <= length B)%nat).
    { destruct B as [|b B] using rev_ind; [cbn; lia|].
      rewrite removelast_last, length_app. lia. }
    rewrite <- (R_fuel (length (removelast B) + 2) (length B + 2)) by lia.
    unfold finish. destruct (R (length B + 2) (removelast B)) as [v r].
    cbn in Ht. subst r. reflexivity.
Qed.
End TopLevel.

(** C4. Exact consumption.  If [Unmarshal] succeeds on [B], then the length
    prefix of [B] is the length of [B]; with any byte appended [Unmarshal]
    fails with the did-not-consume-all-bytes error; with the last byte removed
    it fails with end of file. *)
Theorem exact_consumption (B : list byte) (t : rtype) (old new : value) (x : byte) :
  Unmarshal B t old = (new, UOk) ->
  declared_length B = Z.of_nat (length B) /\
  Unmarshal (B ++ [x]) t old =
    (new, UErr (ErrNotConsumed (Z.of_nat (length B)) (Z.of_nat (length B) + 1))) /\
  snd (Unmarshal (removelast B) t old) = UErr (WrapUnmarshal EOF).
Proof.
  unfold Unmarshal, Unmarshal_at. cbn [validate64bit].
  destruct (Kind t) eqn:EK; try discriminate.
  - apply (top_exact (fun f b => readMap f b t old)).
    + intros. apply readMap_accounts.
    + intros f. apply (readers_local_all f).
    + intros. now apply readMap_fuel.
    + intros f b v n. apply readMap_truncated.
  - apply (top_exact (fun f b => readStruct f b old)).
    + intros. apply readStruct_accounts.
    + intros f. apply (readers_local_all f).
    + intros. now apply readStruct_fuel.
    + intros f b v n. apply readStruct_truncated.
Qed.

Lemma exact_consumption_witness :
  declared_length empty_document = Z.of_nat (length empty_document) /\
  Unmarshal (empty_document ++ [x07]) (TStruct []) (VStruct []) =
    (VStruct [],
     UErr (ErrNotConsumed (Z.of_nat (length empty_document))
                          (Z.of_nat (length empty_document) + 1))) /\
  snd (Unmarshal (removelast empty_document) (TStruct []) (VStruct [])) =
    UErr (WrapUnmarshal EOF).
Proof.
  apply (exact_consumption empty_document (TStruct []) (VStruct []) (VStruct []) x07).
  vm_compute. reflexivity.
Defined.

(** ** Map and slice targets are rebuilt *)




(** ** The order on strings and [sort.Strings] *)

Lemma string_ltb_irrefl (a : gostring) : string_ltb a a = false.
Proof.
  induction a as [|x a IH]; [reflexivity|]. cbn. rewrite Z.ltb_irrefl. exact IH.
Qed.

Lemma string_ltb_trans (a : gostring) :
  forall b c, string_ltb a b = true -> string_ltb b c = true -> string_ltb a c = true.
Proof.
  induction a as [|x a IH]; intros [|y b] [|z c] Hab Hbc; cbn in *; try congruence.
  destruct (byte_val x <? byte_val y) eqn:Exy.
  - apply Z.ltb_lt in Exy. destruct (byte_val y <? byte_val z) eqn:Eyz.
    + apply Z.ltb_lt in Eyz. assert ((byte_val x <? byte_val z) = true) as ->
        by (apply Z.ltb_lt; lia). reflexivity.
    + destruct (byte_val z <? byte_val y) eqn:Ezy; [discriminate|].
      apply Z.ltb_ge in Eyz, Ezy.
      assert ((byte_val x <? byte_val z) = true) as -> by (apply Z.ltb_lt; lia). reflexivity.
  - destruct (byte_val y <? byte_val x) eqn:Eyx; [discriminate|].
    apply Z.ltb_ge in Exy, Eyx. assert (Hxy : byte_val x = byte_val y) by lia.
    rewrite Hxy. destruct (byte_val y <? byte_val z); [reflexivity|].
    destruct (byte_val z <? byte_val y); [discriminate|]. eapply IH; eassumption.
Qed.

Lemma string_ltb_total (a : gostring) :
  forall b, string_ltb a b = false -> string_ltb b a = false -> a = b.
Proof.
  induction a as [|x a IH]; intros [|y b] Hab Hba; cbn in *; try congruence.
  destruct (byte_val x <? byte_val y) eqn:Exy; [discriminate|].
  destruct (byte_val y <? byte_val x) eqn:Eyx; [discriminate|].
  apply Z.ltb_ge in Exy, Eyx. assert (Hxy : byte_val x = byte_val y) by lia.
  apply byte_val_inj in Hxy. subst y. f_equal. apply IH; assumption.
Qed.

Lemma string_ltb_asym (a b : gostring) :
  string_ltb a b = true -> string_ltb b a = false.
Proof.
  intros Hab. destruct (string_ltb b a) eqn:Hba; [|reflexivity].
  pose proof (string_ltb_trans _ _ _ Hab Hba) as H. now rewrite string_ltb_irrefl in H.
Qed.

Lemma string_leb_refl (a : gostring) : string_leb a a = true.
Proof. unfold string_leb. now rewrite string_ltb_irrefl. Qed.

Lemma string_leb_total (a b : gostring) : string_leb a b = true \/ string_leb b a = true.
Proof.
  unfold string_leb. destruct (string_ltb b a) eqn:E; [|left; reflexivity].
  right. now rewrite (string_ltb_asym _ _ E).
Qed.

Lemma string_leb_trans (a b c : gostring) :
  string_leb a b = true -> string_leb b c = true -> string_leb a c = true.
Proof.
  unfold string_leb. intros Hab Hbc. apply negb_true_iff in Hab, Hbc. apply negb_true_iff.
  destruct (string_ltb c a) eqn:Hca; [|reflexivity].
  destruct (string_ltb a b) eqn:Eab.
  - pose proof (string_ltb_trans _ _ _ Hca Eab). congruence.
  - pose proof (string_ltb_total _ _ Eab Hab). subst b. congruence.
Qed.

Lemma string_leb_antisym (a b : gostring) :
  string_leb a b = true -> string_leb b a = true -> a = b.
Proof.
  unfold string_leb. intros Hab Hba. apply negb_true_iff in Hab, Hba.
  now apply string_ltb_total.
Qed.

Lemma insert_sorted_perm (k : gostring) (l : list gostring) :
  Permutation (insert_sorted k l) (k :: l).
Proof.
  induction l as [|x l IH]; cbn; [reflexivity|].
  destruct (string_leb k x); [reflexivity|].
  rewrite IH. apply perm_swap.
Qed.

Lemma sort_strings_perm (l : list gostring) : Permutation (sort_strings l) l.
Proof.
  induction l as [|x l IH]; cbn; [reflexivity|].
  rewrite insert_sorted_perm. now constructor.
Qed.

Lemma insert_sorted_sorted (k : gostring) (l : list gostring) :
  StronglySorted leP l -> StronglySorted leP (insert_sorted k l).
Proof.
  induction 1 as [|x l Hs IH Hx]; cbn; [repeat constructor|].
  destruct (string_leb k x) eqn:E.
  - constructor; [now constructor|]. constructor; [exact E|].
    eapply Forall_impl; [|exact Hx]. intros y Hy. eapply string_leb_trans; eassumption.
  - constructor; [exact IH|].
    eapply Permutation_Forall; [symmetry; apply insert_sorted_perm|].
    constructor; [|exact Hx].
    destruct (string_leb_total k x) as [H|H]; [congruence|exact H].
Qed.

Lemma sort_strings_sorted (l : list gostring) : StronglySorted leP (sort_strings l).
Proof.
  induction l as [|x l IH]; cbn; [constructor|]. now apply insert_sorted_sorted.
Qed.

Lemma sorted_perm_unique (l1 : list gostring) :
  forall l2, StronglySorted leP l1 -> StronglySorted leP l2 -> Permutation l1 l2 -> l1 = l2.
Proof.
  induction l1 as [|x l1 IH]; intros l2 H1 H2 HP.
  - apply Permutation_nil in HP. now subst.
  - destruct l2 as [|y l2]; [apply Permutation_sym, Permutation_nil in HP; discriminate|].
    inversion H1 as [|? ? Hs1 Hx]; subst. inversion H2 as [|? ? Hs2 Hy]; subst.
    assert (x = y).
    { assert (Hin1 : In x (y :: l2)) by (eapply Permutation_in; [exact HP|now left]).
      assert (Hin2 : In y (x :: l1))
        by (eapply Permutation_in; [symmetry; exact HP|now left]).
      destruct Hin1 as [->|Hin1]; [reflexivity|].
      destruct Hin2 as [->|Hin2]; [reflexivity|].
      apply string_leb_antisym.
      - rewrite Forall_forall in Hx. now apply Hx.
      - rewrite Forall_forall in Hy. now apply Hy. }
    subst y. f_equal. apply IH; try assumption. eapply Permutation_cons_inv; exact HP.
Qed.

Lemma sort_strings_of_perm (l1 l2 : list gostring) :
  Permutation l1 l2 -> sort_strings l1 = sort_strings l2.
Proof.
  intros HP. apply sorted_perm_unique; try apply sort_strings_sorted.
  rewrite !sort_strings_perm. exact HP.
Qed.

Lemma sort_strings_id (l : list gostring) : StronglySorted leP l -> sort_strings l = l.
Proof.
  intros Hs. apply sorted_perm_unique; [apply sort_strings_sorted|exact Hs|].
  apply sort_strings_perm.
Qed.

(** ** The encoder only appends, and what it appends does not depend on
    what the buffer holds *)

Lemma appendMap_loop_frame (rec : list byte -> value -> eres) (doc : list (gostring * value)) :
  frames rec ->
  forall keys pre b,
    same_outcome pre (appendMap_loop rec doc keys b) (appendMap_loop rec doc keys (pre ++ b)).
Proof.
  intros Hrec keys. induction keys as [|key keys IH]; intros pre b; cbn [appendMap_loop].
  - reflexivity.
  - destruct (validateEname key); [cbn; eauto|].
    destruct (getEtype _) as [et [err|]|]; [cbn; eauto| |reflexivity].
    cbv zeta.
    set (val := match lookup key doc with Some v => v | None => VNil end).
    replace ((((pre ++ b) ++ [byte_of_Z et]) ++ key) ++ [kNullTerminator])
      with (pre ++ (((b ++ [byte_of_Z et]) ++ key) ++ [kNullTerminator]))
      by (now rewrite !app_assoc).
    pose proof (Hrec pre (((b ++ [byte_of_Z et]) ++ key) ++ [kNullTerminator]) val) as H.
    destruct (rec (((b ++ [byte_of_Z et]) ++ key) ++ [kNullTerminator]) val) as [d [e|]| |];
      cbn [same_outcome] in H.
    + destruct H as (b' & ->). cbn. eauto.
    + rewrite H. apply IH.
    + rewrite H. reflexivity.
    + rewrite H. reflexivity.
Qed.

Lemma copy_at_app (pre x src : list byte) (s : nat) :
  copy_at (pre ++ x) (length pre + s) src = pre ++ copy_at x s src.
Proof.
  unfold copy_at.
  rewrite firstn_app, firstn_all2 by lia.
  replace (length pre + s - length pre)%nat with s by lia.
  rewrite skipn_app, skipn_all2 by lia.
  replace (length pre + s - length pre)%nat with s by lia.
  cbn [app]. now rewrite <- app_assoc.
Qed.

Lemma appendMap_finish_frame (pre : list byte) (s : nat) (r0 r : eres) :
  same_outcome pre r0 r ->
  same_outcome pre (appendMap_finish s r0) (appendMap_finish (length pre + s) r).
Proof.
  destruct r0 as [d [e|]| |]; cbn [same_outcome].
  - intros (b & ->). cbn. eauto.
  - intros ->. cbn [appendMap_finish].
    rewrite <- (app_assoc pre d), (length_app pre).
    replace (Z.of_nat (length pre + length (d ++ [byte_of_Z kEtypeDone]))
             - Z.of_nat (length pre + s))
      with (Z.of_nat (length (d ++ [byte_of_Z kEtypeDone])) - Z.of_nat s) by lia.
    destruct (_ || _); [cbn; eauto|].
    cbn [same_outcome]. now rewrite copy_at_app.
  - intros ->. reflexivity.
  - intros ->. reflexivity.
Qed.

Lemma encoder_frames_all (fuel : nat) : encoder_frames fuel.
Proof.
  induction fuel as [|f (IHa & IHm & IHo)].
  - repeat split; intros ? ? ?; reflexivity.
  - assert (Hm : forall pre b doc,
               same_outcome pre (appendMap (S f) b doc) (appendMap (S f) (pre ++ b) doc)).
    { intros pre b doc. cbn [appendMap]. cbv zeta. unfold appendInt32.
      rewrite length_app, <- app_assoc.
      apply appendMap_finish_frame, appendMap_loop_frame, IHa. }
    repeat split; [|exact Hm|].
    + intros pre b v. cbn [appendAny].
      destruct v as [| | |[bs|]| | | | | | | | | |t [p|]];
        cbn [same_outcome]; cbv zeta;
        unfold appendInt32, appendInt64, appendFloat64, appendBoolean;
        try reflexivity; try (now rewrite <- !app_assoc); try apply IHo; try apply IHa.
      * destruct (_ >? _); cbn [same_outcome]; [eauto|]. now rewrite <- !app_assoc.
      * destruct (_ >? _); cbn [same_outcome]; [eauto|]. now rewrite <- !app_assoc.
      * destruct b0; now rewrite <- !app_assoc.
    + intros pre b v. cbn [appendOther].
      destruct v; cbn [same_outcome]; eauto.
      destruct (negb _); [cbn; eauto|]. apply IHm.
Qed.

(** ** Layout of what [appendMap] appends *)

Lemma frames_success (rec : list byte -> value -> eres) (pre out : list byte) (v : value) :
  frames rec -> rec pre v = ERet out None ->
  exists d, rec [] v = ERet d None /\ out = pre ++ d.
Proof.
  intros Hrec H. pose proof (Hrec pre [] v) as Hf. rewrite app_nil_r, H in Hf.
  destruct (rec [] v) as [d [e|]| |]; cbn in Hf.
  - destruct Hf as (b & Hf). discriminate Hf.
  - injection Hf as ->. eauto.
  - discriminate Hf.
  - discriminate Hf.
Qed.

Lemma appendMap_loop_elements (rec : list byte -> value -> eres)
    (doc : list (gostring * value)) :
  frames rec ->
  forall keys b out,
    appendMap_loop rec doc keys b = ERet out None ->
    exists body, out = b ++ body /\ elements rec doc keys body.
Proof.
  intros Hrec keys. induction keys as [|key keys IH]; intros b out H; cbn [appendMap_loop] in H.
  - injection H as <-. exists []. split; [now rewrite app_nil_r|constructor].
  - destruct (validateEname key) eqn:EV; [discriminate H|].
    fold (doc_get key doc) in H.
    destruct (getEtype (doc_get key doc)) as [et [err|]|] eqn:EG; try discriminate H.
    cbv zeta in H.
    destruct (rec _ (doc_get key doc)) as [d [e|]| |] eqn:ER; try discriminate H.
    apply (frames_success rec _ _ _ Hrec) in ER as (p & Hp & ->).
    apply IH in H as (body & -> & Hel).
    exists (element et key p ++ body). split.
    + unfold element. rewrite <- !app_assoc. cbn [app]. rewrite <- !app_assoc.
      reflexivity.
    + now constructor.
Qed.

Lemma copy_at_placeholder (bin ph tail : list byte) :
  length bin = 4%nat -> length ph = 4%nat -> copy_at (ph ++ tail) 0 bin = bin ++ tail.
Proof.
  intros Hb Hp. unfold copy_at. cbn [firstn skipn app].
  rewrite length_app, Hp, Hb. replace (Nat.min (4 + length tail) 4) with 4%nat by lia.
  rewrite <- Hb at 1. rewrite firstn_all.
  rewrite <- Hp. rewrite skipn_app, skipn_all, Nat.sub_diag. reflexivity.
Qed.

Lemma appendMap_layout (f : nat) (b : list byte) (doc : list (gostring * value))
    (out : list byte) :
  appendMap (S f) b doc = ERet out None ->
  exists body,
    elements (appendAny f) doc (sortedKeys doc) body /\
    out = b ++ le_bytes 4 (Z.of_nat (length body) + 5) ++ body ++ [x00] /\
    Z.of_nat (length body) + 5 <= MaxInt32.
Proof.
  cbn [appendMap]. cbv zeta. intros H.
  destruct (appendMap_loop (appendAny f) doc (sortedKeys doc) (appendInt32 b 0))
    as [o [e|]| |] eqn:EL; try discriminate H.
  apply appendMap_loop_elements in EL as (body & -> & Hel);
    [|apply (encoder_frames_all f)].
  exists body. split; [exact Hel|].
  cbn [appendMap_finish] in H. unfold appendInt32 in H.
  rewrite <- !app_assoc in H. rewrite !length_app in H.
  unfold convertInt32ToBytes in H. rewrite length_le_bytes in H. cbn [length] in H.
  replace (Z.of_nat (length b + (4 + (length body + 1))) - Z.of_nat (length b))
    with (Z.of_nat (length body) + 5) in H by lia.
  destruct ((Z.of_nat (length body) + 5 <? 0) || (Z.of_nat (length body) + 5 >? MaxInt32))
    eqn:E; [discriminate H|].
  apply orb_false_elim in E as (_ & E).
  injection H as <-. split; [|lia].
  replace (length b) with (length b + 0)%nat by lia.
  rewrite copy_at_app. f_equal.
  change (byte_of_Z kEtypeDone) with x00.
  apply (copy_at_placeholder (le_bytes 4 (Z.of_nat (length body) + 5)) (le_bytes 4 0)
           (body ++ [x00])); apply length_le_bytes.
Qed.

Lemma firstn_exact {A : Type} (l t : list A) (n : nat) :
  length l = n -> firstn n (l ++ t) = l.
Proof.
  intros <-. rewrite firstn_app, firstn_all, Nat.sub_diag. cbn. apply app_nil_r.
Qed.

Lemma declared_length_le_bytes (n : Z) (tail : list byte) :
  0 <= n <= MaxInt32 -> declared_length (le_bytes 4 n ++ tail) = n.
Proof.
  intros Hn. unfold declared_length.
  rewrite (firstn_exact (le_bytes 4 n) tail 4) by apply length_le_bytes.
  rewrite int32_of_bytes. apply wrap32_id. unfold in_int32, MaxInt32 in *. lia.
Qed.

(** C3. Length-prefix correctness.  What a successful [appendMap] appends
    for a document or array is the 4-byte little-endian length of the whole
    of it, the elements of the sorted keys and the terminator: the first four
    bytes, read as a signed 32-bit integer, are the number of bytes appended
    (length field and terminator included).  The bytes are the same whatever
    the buffer holds, so a nested document carries its own length inside the
    payload of its element. *)
Theorem length_prefix (f : nat) (buffer : list byte) (doc : list (gostring * value))
    (out : list byte) :
  appendMap (S f) buffer doc = ERet out None ->
  exists d body,
    out = buffer ++ d /\
    declared_length d = Z.of_nat (length d) /\
    d = le_bytes 4 (Z.of_nat (length d)) ++ body ++ [x00] /\
    elements (appendAny f) doc (sortedKeys doc) body /\
    forall buffer', appendMap (S f) buffer' doc = ERet (buffer' ++ d) None.
Proof.
  intros H. destruct (appendMap_layout _ _ _ _ H) as (body & Hel & -> & Hmax).
  set (d := le_bytes 4 (Z.of_nat (length body) + 5) ++ body ++ [x00]).
  assert (Hd : Z.of_nat (length d) = Z.of_nat (length body) + 5).
  { unfold d. rewrite !length_app, length_le_bytes. cbn [length]. lia. }
  exists d, body. split; [reflexivity|]. split; [|split; [|split]].
  - unfold d at 1. rewrite declared_length_le_bytes by lia. now rewrite Hd.
  - rewrite Hd. reflexivity.
  - exact Hel.
  - intros buffer'.
    pose proof (proj1 (proj2 (encoder_frames_all (S f))) buffer [] doc) as H1.
    pose proof (proj1 (proj2 (encoder_frames_all (S f))) buffer' [] doc) as H2.
    rewrite app_nil_r in H1, H2. rewrite H in H1.
    destruct (appendMap (S f) [] doc) as [d0 [e|]| |]; cbn in H1.
    + destruct H1 as (b0 & H1). discriminate H1.
    + injection H1 as H1. apply app_inv_head in H1. subst d0. exact H2.
    + discriminate H1.
    + discriminate H1.
Qed.

Lemma length_prefix_witness :
  exists d body,
    hex [12; 0; 0; 0; 0x10; 0x61; 0; 1; 0; 0; 0; 0] = [] ++ d /\
    declared_length d = Z.of_nat (length d) /\
    d = le_bytes 4 (Z.of_nat (length d)) ++ body ++ [x00] /\
    elements (appendAny 1) one_int32 (sortedKeys one_int32) body /\
    forall buffer', appendMap 2 buffer' one_int32 = ERet (buffer' ++ d) None.
Proof.
  apply (length_prefix 1 [] one_int32). vm_compute. reflexivity.
Defined.

(** ** Behaviour at particular inputs *)

(** C6. A nil pointer makes [Marshal] panic: [getEtype] and [appendAny] call
    [Interface()] on the zero [Value] that [Elem()] returns for a nil
    pointer.  A pointer that is not nil is encoded as the value it points
    to. *)
Theorem Marshal_nil_pointer_panics :
  Marshal nil_pointer_doc = EPanic /\
  Marshal (VPtr (TMap TString TInterface) None) = EPanic /\
  Marshal pointer_doc = Marshal int64_doc /\
  (forall fuel buffer t p,
      appendAny (S fuel) buffer (VPtr t (Some p)) = appendAny fuel buffer p) /\
  (forall t p, getEtype (VPtr t (Some p)) = getEtype p).
Proof.
  repeat split; vm_compute; reflexivity.
Qed.

(** C7. A struct field of type [any] passes the type validation and then
    makes [readEvalue] panic on its type assertion, while the same element is
    decoded into a map value or a slice element of type [any]; a binary
    element decoded into [map[string]any] gives a byte slice. *)
Theorem dynamic_struct_field_panics :
  validateEtypeCanBeDeserializeToRtype kEtypeInt32 TInterface = None /\
  snd (Unmarshal int32_A_bytes any_field_rtype (zero_value any_field_rtype)) = UPanic /\
  snd (Unmarshal binary_A_bytes any_field_rtype (zero_value any_field_rtype)) = UPanic /\
  Unmarshal int32_A_bytes (TMap TString TInterface) (VMap TString TInterface None) =
    (VMap TString TInterface (Some [(str "A", VInt32 1)]), UOk) /\
  Unmarshal binary_A_bytes (TMap TString TInterface) (VMap TString TInterface None) =
    (VMap TString TInterface (Some [(str "A", VBytes (Some (str "hi")))]), UOk).
Proof.
  repeat split; vm_compute; reflexivity.
Qed.

(** C8. A string element whose size field is zero and a binary element whose
    size field is negative make [Unmarshal] panic: [make([]byte, n)] is
    called with a negative length. *)
Theorem Unmarshal_bad_size_panics :
  snd (Unmarshal zero_size_string_bytes (TMap TString TInterface)
         (VMap TString TInterface None)) = UPanic /\
  snd (Unmarshal negative_size_binary_bytes (TMap TString TInterface)
         (VMap TString TInterface None)) = UPanic /\
  (forall rest, readEstring (hex [0; 0; 0; 0] ++ rest) = RPanic) /\
  (forall st rest, readEbinary (hex [0xff; 0xff; 0xff; 0xff] ++ st :: rest) = RPanic).
Proof.
  repeat split; vm_compute; reflexivity.
Qed.

(** [Unmarshal] always has enough fuel: the recursion of the decoder ends. *)
Lemma Unmarshal_has_fuel (marshalled : list byte) (t : rtype) (old : value) :
  snd (Unmarshal marshalled t old) <> UOutOfFuel.
Proof.
  unfold Unmarshal, Unmarshal_at. cbn [validate64bit].
  destruct (Kind t); try discriminate.
  - pose proof (proj1 (proj2 (proj2 (proj2 (fuel_enough_all (length marshalled + 2)))))
                  marshalled t old ltac:(lia)) as H.
    destruct (readMap _ _ _ _) as [v r]. cbn in H.
    destruct r; try discriminate; [|contradiction].
    destruct (negb _); discriminate.
  - pose proof (proj1 (proj2 (fuel_enough_all (length marshalled + 2)))
                  marshalled old ltac:(lia)) as H.
    destruct (readStruct _ _ _) as [v r]. cbn in H.
    destruct r; try discriminate; [|contradiction].
    destruct (negb _); discriminate.
Qed.

(** ** Keys with a null byte *)

Lemma validateEname_cases (key : gostring) :
  validateEname key = None \/ validateEname key = Some ErrNullInEname.
Proof. unfold validateEname. destruct (existsb _ key); auto. Qed.







(** ** The encoding depends on the logical content only *)

Lemma gostring_eqb_eq (a b : gostring) : gostring_eqb a b = true <-> a = b.
Proof.
  unfold gostring_eqb. destruct (list_eq_dec Byte.byte_eq_dec a b); split; congruence.
Qed.

Lemma gostring_eqb_refl (a : gostring) : gostring_eqb a a = true.
Proof. now apply gostring_eqb_eq. Qed.

Lemma gostring_eqb_neq (a b : gostring) : gostring_eqb a b = false <-> a <> b.
Proof.
  unfold gostring_eqb. destruct (list_eq_dec Byte.byte_eq_dec a b); split; congruence.
Qed.

Lemma getEtype_veq (v1 v2 : value) : veq v1 v2 -> getEtype v1 = getEtype v2.
Proof. induction 1; cbn; auto. Qed.

Lemma entries_eq_keys (d1 d2 : list (gostring * value)) :
  entries_eq d1 d2 -> map_keys d1 = map_keys d2.
Proof.
  unfold map_keys.
  induction 1 as [|e1 e2 d1 d2 (Hk & _) _ IH]; cbn; [reflexivity|]. now rewrite Hk, IH.
Qed.

Lemma entries_eq_get (d1 d2 : list (gostring * value)) (key : gostring) :
  entries_eq d1 d2 -> veq (doc_get key d1) (doc_get key d2).
Proof.
  unfold doc_get.
  induction 1 as [|[k1 v1] [k2 v2] d1 d2 (Hk & Hv) _ IH]; cbn in *; [constructor|].
  subst k2. destruct (gostring_eqb key k1); [exact Hv|exact IH].
Qed.

Lemma entries_eq_set (d1 d2 : list (gostring * value)) (k : gostring) (v1 v2 : value) :
  entries_eq d1 d2 -> veq v1 v2 -> entries_eq (map_set k v1 d1) (map_set k v2 d2).
Proof.
  intros Hd Hv.
  induction Hd as [|[k1 w1] [k2 w2] d1 d2 (Hk & Hw) Hd IH]; cbn in *.
  - repeat constructor; assumption.
  - subst k2. destruct (gostring_eqb k k1).
    + constructor; [split; [reflexivity|exact Hv]|exact Hd].
    + constructor; [split; [reflexivity|exact Hw]|exact IH].
Qed.

Lemma lookup_not_in {A : Type} (k : gostring) (m : list (gostring * A)) :
  ~ In k (map_keys m) -> lookup k m = None.
Proof.
  induction m as [|[k' v] m IH]; cbn; [reflexivity|]. intros Hn.
  destruct (gostring_eqb k k') eqn:E.
  - apply gostring_eqb_eq in E. subst. exfalso. apply Hn. now left.
  - apply IH. intros Hin. apply Hn. now right.
Qed.

Lemma lookup_perm {A : Type} (m1 m2 : list (gostring * A)) (k : gostring) :
  Permutation m1 m2 -> NoDup (map_keys m1) -> lookup k m1 = lookup k m2.
Proof.
  induction 1 as [|[k' v] m1 m2 HP IH|[k1 v1] [k2 v2] m|m1 m2 m3 HP1 IH1 HP2 IH2];
    intros Hnd.
  - reflexivity.
  - cbn in *. inversion Hnd; subst. destruct (gostring_eqb k k'); [reflexivity|auto].
  - cbn in *. inversion Hnd as [|? ? Hn1 Hnd']; subst.
    destruct (gostring_eqb k k2) eqn:E2; destruct (gostring_eqb k k1) eqn:E1; try reflexivity.
    apply gostring_eqb_eq in E1, E2. subst. exfalso. apply Hn1. now left.
  - rewrite IH1 by exact Hnd. apply IH2.
    eapply Permutation_NoDup; [|exact Hnd]. unfold map_keys. now apply Permutation_map.
Qed.

Lemma map_set_new {A : Type} (k : gostring) (v : A) (m : list (gostring * A)) :
  ~ In k (map_keys m) -> map_set k v m = m ++ [(k, v)].
Proof.
  induction m as [|[k' v'] m IH]; cbn; [reflexivity|]. intros Hn.
  destruct (gostring_eqb k k') eqn:E.
  - apply gostring_eqb_eq in E. subst. exfalso. apply Hn. now left.
  - rewrite IH; [reflexivity|]. intros Hin. apply Hn. now right.
Qed.

Lemma fold_map_set_nodup (m acc : list (gostring * value)) :
  NoDup (map_keys (acc ++ m)) ->
  fold_left (fun result e => map_set (fst e) (snd e) result) m acc = acc ++ m.
Proof.
  revert acc. induction m as [|[k v] m IH]; intros acc Hnd; cbn.
  - now rewrite app_nil_r.
  - rewrite map_set_new.
    + rewrite IH; rewrite <- app_assoc; [reflexivity|exact Hnd].
    + unfold map_keys in *. rewrite map_app in Hnd. cbn in Hnd.
      apply NoDup_remove_2 in Hnd. intros Hin. apply Hnd. apply in_or_app. now left.
Qed.

Lemma convert_map_nodup (m : list (gostring * value)) :
  NoDup (map_keys m) -> convertReflectMapToMapStringAny (Some m) = m.
Proof. intros Hnd. cbn. now rewrite fold_map_set_nodup. Qed.

Lemma fold_map_set_entries_eq (m1 m2 : list (gostring * value)) :
  entries_eq m1 m2 ->
  forall acc1 acc2,
    entries_eq acc1 acc2 ->
    entries_eq (fold_left (fun result e => map_set (fst e) (snd e) result) m1 acc1)
               (fold_left (fun result e => map_set (fst e) (snd e) result) m2 acc2).
Proof.
  induction 1 as [|[k1 v1] [k2 v2] m1 m2 (Hk & Hv) _ IH]; intros acc1 acc2 Hacc; cbn in *.
  - exact Hacc.
  - subst k2. apply IH. now apply entries_eq_set.
Qed.

Lemma slice_to_map_entries_eq (s1 s2 : list value) :
  Forall2 veq s1 s2 ->
  forall i acc1 acc2,
    entries_eq acc1 acc2 ->
    entries_eq (slice_to_map i s1 acc1) (slice_to_map i s2 acc2).
Proof.
  induction 1 as [|v1 v2 s1 s2 Hv _ IH]; intros i acc1 acc2 Hacc; cbn.
  - exact Hacc.
  - apply IH. now apply entries_eq_set.
Qed.

Lemma struct_to_map_entries_eq (fs1 fs2 : list (gostring * (rtype * value))) :
  Forall2 (fun f1 f2 => fst f1 = fst f2 /\ fst (snd f1) = fst (snd f2) /\
                        veq (snd (snd f1)) (snd (snd f2))) fs1 fs2 ->
  forall acc1 acc2,
    entries_eq acc1 acc2 ->
    entries_eq (fold_left (fun result f => map_set (fst f) (snd (snd f)) result) fs1 acc1)
               (fold_left (fun result f => map_set (fst f) (snd (snd f)) result) fs2 acc2).
Proof.
  induction 1 as [|[k1 [t1 v1]] [k2 [t2 v2]] fs1 fs2 (Hk & _ & Hv) _ IH];
    intros acc1 acc2 Hacc; cbn in *.
  - exact Hacc.
  - subst k2. apply IH. now apply entries_eq_set.
Qed.

Lemma entries_eq_same_doc (d1 d2 : list (gostring * value)) :
  entries_eq d1 d2 -> same_doc d1 d2.
Proof.
  intros H. split.
  - pose proof (entries_eq_keys _ _ H) as Hk. unfold map_keys in *. now rewrite Hk.
  - intros key. now apply entries_eq_get.
Qed.

Lemma appendMap_loop_veq (rec : list byte -> value -> eres) (d1 d2 : list (gostring * value)) :
  (forall b v1 v2, veq v1 v2 -> rec b v1 = rec b v2) ->
  (forall key, veq (doc_get key d1) (doc_get key d2)) ->
  forall keys b, appendMap_loop rec d1 keys b = appendMap_loop rec d2 keys b.
Proof.
  intros Hrec Hget keys. induction keys as [|key keys IH]; intros b; cbn [appendMap_loop].
  - reflexivity.
  - destruct (validateEname key); [reflexivity|].
    fold (doc_get key d1). fold (doc_get key d2).
    rewrite (getEtype_veq _ _ (Hget key)).
    destruct (getEtype (doc_get key d2)) as [et [err|]|]; try reflexivity.
    cbv zeta. rewrite (Hrec _ _ _ (Hget key)).
    destruct (rec _ (doc_get key d2)) as [d [e|]| |]; try reflexivity. apply IH.
Qed.

Lemma appendMap_same_doc (f : nat) (d1 d2 : list (gostring * value)) (b : list byte) :
  (forall b v1 v2, veq v1 v2 -> appendAny f b v1 = appendAny f b v2) ->
  same_doc d1 d2 -> appendMap (S f) b d1 = appendMap (S f) b d2.
Proof.
  intros Hrec (Hk & Hget). cbn [appendMap]. cbv zeta. f_equal.
  unfold sortedKeys. rewrite (sort_strings_of_perm _ _ Hk).
  now apply appendMap_loop_veq.
Qed.

Lemma appendAny_veq (fuel : nat) :
  forall b v1 v2, veq v1 v2 -> appendAny fuel b v1 = appendAny fuel b v2.
Proof.
  induction fuel as [fuel IH] using lt_wf_ind. intros b v1 v2 Hv.
  destruct fuel as [|f]; [reflexivity|].
  inversion Hv as [v|kt et m1 m1' m2 Hnd HF HP|et s1 s2 HF|fs1 fs2 HF|t p1 p2 Hp]; subst.
  - reflexivity.
  - cbn [appendAny]. destruct f as [|f]; [reflexivity|]. cbn [appendOther].
    destruct (negb _); [reflexivity|]. destruct f as [|f]; [reflexivity|].
    apply appendMap_same_doc; [apply IH; lia|].
    assert (Hnd' : NoDup (map_keys m1')) by (now rewrite <- (entries_eq_keys _ _ HF)).
    assert (Hnd2 : NoDup (map_keys m2)).
    { eapply Permutation_NoDup; [|exact Hnd']. unfold map_keys. now apply Permutation_map. }
    rewrite !convert_map_nodup by assumption.
    split.
    + rewrite (entries_eq_keys _ _ HF). unfold map_keys. now apply Permutation_map.
    + intros key. pose proof (entries_eq_get _ _ key HF) as Hg.
      unfold doc_get in *. now rewrite <- (lookup_perm m1' m2 key HP Hnd').
  - cbn [appendAny]. destruct f as [|f]; [reflexivity|]. cbn [appendOther].
    destruct f as [|f]; [reflexivity|].
    apply appendMap_same_doc; [apply IH; lia|].
    apply entries_eq_same_doc. cbn. apply slice_to_map_entries_eq; [exact HF|constructor].
  - cbn [appendAny]. destruct f as [|f]; [reflexivity|]. cbn [appendOther].
    destruct f as [|f]; [reflexivity|].
    apply appendMap_same_doc; [apply IH; lia|].
    apply entries_eq_same_doc. apply struct_to_map_entries_eq; [exact HF|constructor].
  - cbn [appendAny]. apply IH; [lia|exact Hp].
Qed.

Lemma vsize_map (kt et : rtype) (m : list (gostring * value)) :
  vsize (VMap kt et (Some m)) = S (list_sum (map (fun e => vsize (snd e)) m)).
Proof.
  cbn [vsize]. f_equal. induction m as [|e m IH]; [reflexivity|]. cbn. now rewrite IH.
Qed.

Lemma vsize_slice (et : rtype) (s : list value) :
  vsize (VSlice et (Some s)) = S (list_sum (map vsize s)).
Proof.
  cbn [vsize]. f_equal. induction s as [|e s IH]; [reflexivity|]. cbn. now rewrite IH.
Qed.

Lemma vsize_struct (fs : list (gostring * (rtype * value))) :
  vsize (VStruct fs) = S (list_sum (map (fun f => vsize (snd (snd f))) fs)).
Proof.
  cbn [vsize]. f_equal. induction fs as [|e fs IH]; [reflexivity|]. cbn. now rewrite IH.
Qed.

Lemma list_sum_perm (l1 l2 : list nat) : Permutation l1 l2 -> list_sum l1 = list_sum l2.
Proof. unfold list_sum. induction 1; cbn [fold_right] in *; lia. Qed.

Lemma list_sum_cons (x : nat) (l : list nat) : list_sum (x :: l) = (x + list_sum l)%nat.
Proof. reflexivity. Qed.

Lemma vsize_pos (v : value) : (1 <= vsize v)%nat.
Proof.
  destruct v as [| | | | | | | | | |? ? [?|]|? [?|]|?|? [?|]]; cbn [vsize]; lia.
Qed.

Lemma vsize_veq (n : nat) :
  forall v1 v2, (vsize v1 <= n)%nat -> veq v1 v2 -> vsize v1 = vsize v2.
Proof.
  induction n as [|n IH]; intros v1 v2 Hn Hv.
  - pose proof (vsize_pos v1). lia.
  - inversion Hv as [v|kt et m1 m1' m2 Hnd HF HP|et s1 s2 HF|fs1 fs2 HF|t p1 p2 Hp]; subst.
    + reflexivity.
    + rewrite vsize_map in Hn |- *. rewrite vsize_map. f_equal.
      rewrite <- (list_sum_perm _ _ (Permutation_map (fun e => vsize (snd e)) HP)).
      assert (Hle : (list_sum (map (fun e => vsize (snd e)) m1) <= n)%nat) by lia.
      clear Hn Hnd HP Hv. induction HF as [|e1 e2 m1 m1' (_ & He) _ IHF]; [reflexivity|].
      cbn [map] in *. rewrite !list_sum_cons in *.
      rewrite (IH (snd e1) (snd e2) ltac:(lia) He), IHF by lia. reflexivity.
    + rewrite vsize_slice in Hn |- *. rewrite vsize_slice. f_equal.
      assert (Hle : (list_sum (map vsize s1) <= n)%nat) by lia.
      clear Hn Hv. induction HF as [|e1 e2 s1 s2 He _ IHF]; [reflexivity|].
      cbn [map] in *. rewrite !list_sum_cons in *.
      rewrite (IH e1 e2 ltac:(lia) He), IHF by lia. reflexivity.
    + rewrite vsize_struct in Hn |- *. rewrite vsize_struct. f_equal.
      assert (Hle : (list_sum (map (fun f => vsize (snd (snd f))) fs1) <= n)%nat) by lia.
      clear Hn Hv. induction HF as [|e1 e2 fs1 fs2 (_ & _ & He) _ IHF]; [reflexivity|].
      cbn [map] in *. rewrite !list_sum_cons in *.
      rewrite (IH (snd (snd e1)) (snd (snd e2)) ltac:(lia) He), IHF by lia. reflexivity.
    + cbn [vsize] in *. f_equal. apply IH; [lia|exact Hp].
Qed.

Lemma Marshal_at_veq (fuel : nat) (D1 D2 : value) :
  veq D1 D2 -> Marshal_at fuel D1 = Marshal_at fuel D2.
Proof.
  intros Hv. induction Hv as [v|kt et m1 m1' m2 Hnd HF HP|et s1 s2 HF|fs1 fs2 HF|t p1 p2 Hp IH].
  - reflexivity.
  - cbn [Marshal_at validate64bit TypeOf Kind rkind_eqb negb andb].
    rewrite (appendAny_veq fuel [] (VMap kt et (Some m1)) (VMap kt et (Some m2)));
      [reflexivity|]. econstructor; eassumption.
  - reflexivity.
  - cbn [Marshal_at validate64bit TypeOf Kind rkind_eqb negb andb].
    rewrite (appendAny_veq fuel [] (VStruct fs1) (VStruct fs2)); [reflexivity|].
    now constructor.
  - cbn [Marshal_at validate64bit]. exact IH.
Qed.

(** C2. Encoder determinism.  Two documents with the same logical content
    (maps with the same entries in any iteration order, at any depth) are
    encoded to the same result, and the elements of every document that
    [appendMap] emits are those of its keys in ascending byte-wise order. *)
Theorem encoding_canonical :
  (forall D1 D2, veq D1 D2 -> Marshal D1 = Marshal D2) /\
  (forall f buffer doc out,
      appendMap (S f) buffer doc = ERet out None ->
      exists body,
        out = buffer ++ le_bytes 4 (Z.of_nat (length body) + 5) ++ body ++ [x00] /\
        elements (appendAny f) doc (sortedKeys doc) body /\
        StronglySorted leP (sortedKeys doc) /\
        Permutation (sortedKeys doc) (map_keys doc)).
Proof.
  split.
  - intros D1 D2 Hv. unfold Marshal.
    rewrite (vsize_veq (vsize D1) D1 D2 (Nat.le_refl _) Hv). now apply Marshal_at_veq.
  - intros f buffer doc out H.
    destruct (appendMap_layout _ _ _ _ H) as (body & Hel & -> & _).
    exists body. split; [reflexivity|]. split; [exact Hel|]. split.
    + apply sort_strings_sorted.
    + apply sort_strings_perm.
Qed.

Lemma encoding_canonical_witness :
  Marshal two_entries = Marshal two_entries_swapped /\
  exists body,
    hex [12; 0; 0; 0; 0x10; 0x61; 0; 1; 0; 0; 0; 0] =
      [] ++ le_bytes 4 (Z.of_nat (length body) + 5) ++ body ++ [x00] /\
    elements (appendAny 1) one_int32 (sortedKeys one_int32) body /\
    StronglySorted leP (sortedKeys one_int32) /\
    Permutation (sortedKeys one_int32) (map_keys one_int32).
Proof.
  destruct encoding_canonical as (H1 & H2). split.
  - apply H1. unfold two_entries, two_entries_swapped.
    apply veq_map with (m1' := [(str "x", VInt32 1); (str "y", VBool true)]).
    + repeat constructor; cbn; intuition discriminate.
    + repeat constructor.
    + apply perm_swap.
  - apply (H2 1%nat [] one_int32). vm_compute. reflexivity.
Defined.

(** ** Round trip *)

(** C1, the claim as stated fails: an [int] inside a [map[string]any] is
    written as a 64-bit integer and read back as an [int64]. *)
Lemma round_trip_counterexample :
  Marshal int_doc = ERet int_doc_bytes None /\
  Unmarshal int_doc_bytes (TMap TString TInterface) (zero_value (TMap TString TInterface)) =
    (int64_doc, UOk) /\
  int64_doc <> int_doc.
Proof.
  repeat split; try (vm_compute; reflexivity). discriminate.
Qed.

Lemma readEname_loop_key (key : gostring) :
  validateEname key = None ->
  forall acc rest,
    readEname_loop (key ++ x00 :: rest) acc =
    ROk (acc ++ key) (Z.of_nat (length (acc ++ key)) + 1) rest.
Proof.
  unfold validateEname. induction key as [|b key IH]; intros Hv acc rest.
  - cbn. now rewrite app_nil_r.
  - cbn [existsb] in Hv. destruct (byte_val b =? 0) eqn:E; [discriminate Hv|].
    cbn [orb] in Hv. cbn [app readEname_loop]. rewrite E.
    rewrite IH by exact Hv. now rewrite <- app_assoc.
Qed.

Lemma readEname_key (key : gostring) (rest : list byte) :
  validateEname key = None ->
  readEname (key ++ x00 :: rest) = ROk key (Z.of_nat (length key) + 1) rest.
Proof. intros Hv. unfold readEname. now rewrite readEname_loop_key. Qed.

Lemma buffer_Read_app (n : nat) (s rest : list byte) :
  length s = n -> buffer_Read n (s ++ rest) = ROk s (Z.of_nat n) rest.
Proof.
  intros Hn. unfold buffer_Read. destruct (s ++ rest) as [|x l] eqn:E.
  - apply app_eq_nil in E as (-> & ->). cbn in Hn. subst n. reflexivity.
  - rewrite <- E. rewrite (firstn_exact s rest n Hn).
    rewrite length_app, skipn_app, skipn_all2 by lia.
    replace (n - length s)%nat with O by lia. cbn [skipn app]. do 2 f_equal. lia.
Qed.

Lemma readEstring_app (s : gostring) (rest : list byte) :
  Z.of_nat (length s) + 1 <= MaxInt32 ->
  readEstring (le_bytes 4 (Z.of_nat (length s) + 1) ++ s ++ x00 :: rest) =
  ROk s (Z.of_nat (length s) + 1 + kInt32Size) rest.
Proof.
  intros Hmax. unfold readEstring. rewrite readInt32_app.
  rewrite wrap32_id by (unfold in_int32, MaxInt32 in *; lia).
  replace (Z.of_nat (length s) + 1 - 1) with (Z.of_nat (length s)) by lia.
  assert ((Z.of_nat (length s) <? 0) = false) as -> by (apply Z.ltb_ge; lia).
  rewrite Nat2Z.id, buffer_Read_app by reflexivity.
  rewrite Z.eqb_refl. reflexivity.
Qed.

Lemma readEbinary_app (b rest : list byte) :
  Z.of_nat (length b) <= MaxInt32 ->
  readEbinary (le_bytes 4 (Z.of_nat (length b)) ++ kBinarySubtype :: b ++ rest) =
  ROk b (Z.of_nat (length b) + kInt32Size + kSubtypeSize) rest.
Proof.
  intros Hmax. unfold readEbinary. rewrite readInt32_app.
  rewrite wrap32_id by (unfold in_int32, MaxInt32 in *; lia).
  cbn [ReadByte].
  assert ((Z.of_nat (length b) <? 0) = false) as -> by (apply Z.ltb_ge; lia).
  rewrite Nat2Z.id, buffer_Read_app by reflexivity.
  rewrite Z.eqb_refl. reflexivity.
Qed.

(** [time.Unix] of the milliseconds [val.UnixMilli()] wrote gives the
    instant back. *)
Lemma time_of_millis (sec k : Z) :
  0 <= k < 1000 -> in_int64 (sec * 1000 + k) ->
  let ms := sec * 1000 + k in
  time_Unix (Z.quot ms 1000) (Z.rem ms 1000 * 1000000) = (sec, k * 1000000).
Proof.
  intros Hk Hr ms. unfold in_int64 in Hr.
  pose proof (Z.quot_rem' ms 1000) as Hqr.
  pose proof (Z.rem_bound_pos ms 1000) as Hpos.
  assert (Hneg : ms < 0 -> -1000 < Z.rem ms 1000 <= 0).
  { intros Hlt. pose proof (Z.rem_bound_pos (- ms) 1000 ltac:(lia) ltac:(lia)) as Hb.
    rewrite Z.rem_opp_l in Hb by lia. lia. }
  unfold time_Unix.
  destruct (Z_le_gt_dec 0 ms) as [Hms|Hms].
  - specialize (Hpos Hms ltac:(lia)).
    assert (Z.quot ms 1000 = sec /\ Z.rem ms 1000 = k) as (-> & ->) by (unfold ms in *; lia).
    assert ((k * 1000000 <? 0) = false) as -> by (apply Z.ltb_ge; lia).
    assert ((k * 1000000 >=? 1000000000) = false) as -> by (rewrite Z.geb_leb; apply Z.leb_gt; lia).
    reflexivity.
  - specialize (Hneg ltac:(lia)).
    destruct (Z.eq_dec (Z.rem ms 1000) 0) as [Hz|Hnz].
    + assert (Z.quot ms 1000 = sec /\ k = 0) as (-> & ->) by (unfold ms in *; lia).
      rewrite Hz. cbn. reflexivity.
    + assert (Hq : Z.quot ms 1000 = sec + 1 /\ Z.rem ms 1000 = k - 1000)
        by (unfold ms in *; lia).
      destruct Hq as (-> & ->).
      assert (((k - 1000) * 1000000 <? 0) = true) as -> by (apply Z.ltb_lt; lia).
      cbn [orb].
      assert (Z.quot ((k - 1000) * 1000000) 1000000000 = 0) as ->.
      { apply Z.quot_small_iff; lia. }
      rewrite Z.add_0_r, Z.mul_0_l, Z.sub_0_r.
      assert (((k - 1000) * 1000000 <? 0) = true) as -> by (apply Z.ltb_lt; lia).
      rewrite (wrap64_id (sec + 1)) by (unfold in_int64; lia).
      rewrite wrap64_id by (unfold in_int64; lia).
      f_equal; lia.
Qed.

Lemma target_init_zero (t : rtype) : target_init t (zero_value t).
Proof. destruct t; exact I || reflexivity. Qed.

Lemma readEtype_tag (tag : Z) (rest : list byte) :
  0 < tag < 256 -> readEtype (byte_of_Z tag :: rest) = ROk tag kEtypeSize rest.
Proof.
  intros Ht. cbn. rewrite byte_val_of_Z, Z.mod_small by lia. reflexivity.
Qed.

Lemma getEtype_inj (v : value) (t1 t2 : Z) :
  getEtype v = GRet t1 None -> getEtype v = GRet t2 None -> t1 = t2.
Proof. intros H1 H2. rewrite H1 in H2. now injection H2. Qed.

Lemma length_element (tag : Z) (key : gostring) (payload : list byte) :
  Z.of_nat (length (element tag key payload)) =
  1 + (Z.of_nat (length key) + 1) + Z.of_nat (length payload).
Proof. unfold element. cbn [length]. rewrite length_app. cbn [length]. lia. Qed.

Lemma readMap_loop_elements (rec : list byte -> value -> eres)
    (doc : list (gostring * value)) (et : rtype) :
  forall keys body,
    elements rec doc keys body ->
    (forall key, In key keys ->
       exists t, slot et t (doc_get key doc) /\ element_ok rec t (doc_get key doc)) ->
    exists F0, forall F rest entries L a,
        (F0 <= F)%nat ->
        readMap_loop F (body ++ x00 :: rest) TString et entries L a =
        at_terminator
          (VMap TString et
             (Some (fold_left (fun es k => map_set k (doc_get k doc) es) keys entries)))
          L (a + Z.of_nat (length body)) rest.
Proof.
  induction 1 as [|key keys tag payload body Hval Htag Hrec Hel IH]; intros Hok.
  - exists 1%nat. intros F rest entries L a HF. destruct F as [|F]; [lia|].
    cbn [app fold_left length]. rewrite Z.add_0_r. apply readMap_loop_done.
  - destruct IH as (F1 & IH); [intros k Hk; apply Hok; now right|].
    destruct (Hok key (or_introl eq_refl)) as (t & Hslot & Helem).
    destruct (Helem payload Hrec) as (tag' & Htag' & Hrange & Hdec).
    pose proof (getEtype_inj _ _ _ Htag Htag'). subst tag'.
    destruct (Hslot tag Htag) as (Hv & tmp & Htmp & Hinit).
    destruct (Hdec tmp Hinit) as (F2 & Hread).
    exists (S (Nat.max F1 F2)). intros F rest entries L a HF.
    destruct F as [|F]; [lia|].
    rewrite length_app, Nat2Z.inj_add, length_element.
    unfold element. cbn [app]. rewrite <- !app_assoc. cbn [app].
    cbn [readMap_loop]. rewrite readEtype_tag by exact Hrange.
    assert ((tag =? kEtypeDone) = false) as -> by (apply Z.eqb_neq; unfold kEtypeDone; lia).
    rewrite readEname_key by exact Hval. rewrite Hv.
    change (rtype_eqb (TMap TString et) (TMap TString TInterface))
      with (rtype_eqb et TInterface).
    rewrite Htmp. rewrite Hread by lia.
    rewrite IH by lia. cbn [fold_left]. f_equal. unfold kEtypeSize. lia.
Qed.

Lemma readArray_loop_elements (rec : list byte -> value -> eres)
    (doc : list (gostring * value)) (et : rtype) :
  forall keys body,
    elements rec doc keys body ->
    (forall key, In key keys ->
       exists t, slot et t (doc_get key doc) /\ element_ok rec t (doc_get key doc)) ->
    exists F0, forall F rest elems L a,
        (F0 <= F)%nat ->
        readArray_loop F (body ++ x00 :: rest) et elems L a =
        at_terminator (mk_slice et (elems ++ map (fun k => doc_get k doc) keys))
          L (a + Z.of_nat (length body)) rest.
Proof.
  induction 1 as [|key keys tag payload body Hval Htag Hrec Hel IH]; intros Hok.
  - exists 1%nat. intros F rest elems L a HF. destruct F as [|F]; [lia|].
    cbn [app map length]. rewrite Z.add_0_r, app_nil_r. apply readArray_loop_done.
  - destruct IH as (F1 & IH); [intros k Hk; apply Hok; now right|].
    destruct (Hok key (or_introl eq_refl)) as (t & Hslot & Helem).
    destruct (Helem payload Hrec) as (tag' & Htag' & Hrange & Hdec).
    pose proof (getEtype_inj _ _ _ Htag Htag'). subst tag'.
    destruct (Hslot tag Htag) as (Hv & tmp & Htmp & Hinit).
    destruct (Hdec tmp Hinit) as (F2 & Hread).
    exists (S (Nat.max F1 F2)). intros F rest elems L a HF.
    destruct F as [|F]; [lia|].
    rewrite length_app, Nat2Z.inj_add, length_element.
    unfold element. cbn [app]. rewrite <- !app_assoc. cbn [app].
    cbn [readArray_loop]. rewrite readEtype_tag by exact Hrange.
    assert ((tag =? kEtypeDone) = false) as -> by (apply Z.eqb_neq; unfold kEtypeDone; lia).
    rewrite readEname_key by exact Hval. rewrite Hv.
    change (rtype_eqb (TSlice et) (TSlice TInterface)) with (rtype_eqb et TInterface).
    rewrite Htmp. rewrite Hread by lia.
    rewrite IH by lia. cbn [map]. rewrite <- app_assoc. cbn [app].
    f_equal. unfold kEtypeSize. lia.
Qed.

Lemma lookup_set_field_other (k k' : gostring) (v : value)
    (cs : list (gostring * (rtype * value))) :
  k' <> k -> lookup k' (set_field_list k v cs) = lookup k' cs.
Proof.
  intros Hne. induction cs as [|[n [ft fv]] cs IH]; cbn; [reflexivity|].
  destruct (gostring_eqb k n) eqn:E; cbn.
  - apply gostring_eqb_eq in E. subst n.
    assert (gostring_eqb k' k = false) as -> by now apply gostring_eqb_neq.
    reflexivity.
  - destruct (gostring_eqb k' n); [reflexivity|exact IH].
Qed.

Lemma readStruct_loop_elements (rec : list byte -> value -> eres)
    (doc : list (gostring * value)) (ftype : gostring -> rtype) :
  forall keys body,
    elements rec doc keys body ->
    NoDup keys ->
    (forall key, In key keys ->
       (forall tag, getEtype (doc_get key doc) = GRet tag None ->
                    validateEtypeCanBeDeserializeToRtype tag (ftype key) = None) /\
       element_ok rec (ftype key) (doc_get key doc)) ->
    exists F0, forall F rest cs L a,
        (F0 <= F)%nat ->
        (forall key, In key keys ->
                     lookup key cs = Some (ftype key, zero_value (ftype key))) ->
        readStruct_loop F (body ++ x00 :: rest) (VStruct cs) L a =
        at_terminator
          (VStruct (fold_left (fun cs k => set_field_list k (doc_get k doc) cs) keys cs))
          L (a + Z.of_nat (length body)) rest.
Proof.
  induction 1 as [|key keys tag payload body Hval Htag Hrec Hel IH]; intros Hnd Hok.
  - exists 1%nat. intros F rest cs L a HF _. destruct F as [|F]; [lia|].
    cbn [app fold_left length]. rewrite Z.add_0_r. apply readStruct_loop_done.
  - inversion Hnd as [|? ? Hnin Hnd']; subst.
    destruct IH as (F1 & IH); [exact Hnd'|intros k Hk; apply Hok; now right|].
    destruct (Hok key (or_introl eq_refl)) as (Hvalid & Helem).
    destruct (Helem payload Hrec) as (tag' & Htag' & Hrange & Hdec).
    pose proof (getEtype_inj _ _ _ Htag Htag'). subst tag'.
    destruct (Hdec (zero_value (ftype key)) (target_init_zero _)) as (F2 & Hread).
    exists (S (Nat.max F1 F2)). intros F rest cs L a HF Hcs.
    destruct F as [|F]; [lia|].
    rewrite length_app, Nat2Z.inj_add, length_element.
    unfold element. cbn [app]. rewrite <- !app_assoc. cbn [app].
    cbn [readStruct_loop]. rewrite readEtype_tag by exact Hrange.
    assert ((tag =? kEtypeDone) = false) as -> by (apply Z.eqb_neq; unfold kEtypeDone; lia).
    rewrite readEname_key by exact Hval.
    cbn [FieldByName]. rewrite (Hcs key (or_introl eq_refl)).
    rewrite (Hvalid tag Htag). rewrite Hread by lia.
    cbn [set_field]. rewrite IH.
    + cbn [fold_left]. f_equal. unfold kEtypeSize. lia.
    + lia.
    + intros k Hk. rewrite lookup_set_field_other.
      * apply Hcs. now right.
      * intros ->. contradiction.
Qed.

(** *** Maps: the entries come back in key order *)

Lemma lookup_in {A : Type} (k : gostring) (m : list (gostring * A)) :
  In k (map_keys m) -> exists v, lookup k m = Some v /\ In (k, v) m.
Proof.
  induction m as [|[k' v'] m IH]; cbn; [intros []|]. intros Hin.
  destruct (gostring_eqb k k') eqn:E.
  - apply gostring_eqb_eq in E. subst k'. exists v'. split; [reflexivity|now left].
  - destruct Hin as [->|Hin]; [now rewrite gostring_eqb_refl in E|].
    destruct (IH Hin) as (v & Hv & Hi). exists v. split; [exact Hv|now right].
Qed.

Lemma lookup_app_new {A : Type} (k : gostring) (v : A) (m1 m2 : list (gostring * A)) :
  ~ In k (map_keys m1) -> lookup k (m1 ++ (k, v) :: m2) = Some v.
Proof.
  induction m1 as [|[k' v'] m1 IH]; cbn; intros Hn.
  - now rewrite gostring_eqb_refl.
  - destruct (gostring_eqb k k') eqn:E.
    + apply gostring_eqb_eq in E. subst. exfalso. apply Hn. now left.
    + apply IH. intros Hin. apply Hn. now right.
Qed.

Lemma fold_map_set_keys_aux (M : list (gostring * value)) :
  NoDup (map_keys M) ->
  forall m2 m1,
    M = m1 ++ m2 ->
    fold_left (fun es k => map_set k (doc_get k M) es) (map_keys m2) m1 = M.
Proof.
  intros Hnd m2. induction m2 as [|[k v] m2 IH]; intros m1 HM; cbn.
  - now rewrite app_nil_r in HM.
  - assert (Hk : ~ In k (map_keys m1)).
    { subst M. unfold map_keys in *. rewrite map_app in Hnd. cbn in Hnd.
      apply NoDup_remove_2 in Hnd. intros Hin. apply Hnd, in_or_app. now left. }
    assert (Hget : doc_get k M = v).
    { unfold doc_get. rewrite HM. now rewrite lookup_app_new. }
    rewrite Hget, map_set_new by exact Hk. apply IH. rewrite HM, <- app_assoc. reflexivity.
Qed.

Lemma fold_map_set_keys (m : list (gostring * value)) :
  NoDup (map_keys m) ->
  fold_left (fun es k => map_set k (doc_get k m) es) (map_keys m) [] = m.
Proof. intros Hnd. now apply fold_map_set_keys_aux. Qed.

(** *** Slices: up to ten elements come back in order *)

Lemma slice_doc_sorted (s : list value) :
  (length s <= 10)%nat ->
  map (fun k => doc_get k (slice_to_map 0 s [])) (sortedKeys (slice_to_map 0 s [])) = s.
Proof.
  intros Hlen.
  do 11 (destruct s as [|? s]; [vm_compute; reflexivity|]).
  cbn in Hlen. lia.
Qed.

(** *** Structs: every field is assigned *)

Lemma set_field_list_names (k : gostring) (v : value)
    (cs : list (gostring * (rtype * value))) :
  map fst (set_field_list k v cs) = map fst cs.
Proof.
  induction cs as [|[n [ft fv]] cs IH]; cbn; [reflexivity|].
  destruct (gostring_eqb k n); cbn; [reflexivity|now rewrite IH].
Qed.

Lemma set_field_list_absent (k : gostring) (v : value)
    (cs : list (gostring * (rtype * value))) :
  ~ In k (map fst cs) -> set_field_list k v cs = cs.
Proof.
  induction cs as [|[n [ft fv]] cs IH]; cbn; [reflexivity|]. intros Hn.
  destruct (gostring_eqb k n) eqn:E.
  - apply gostring_eqb_eq in E. subst. exfalso. apply Hn. now left.
  - f_equal. apply IH. intros Hin. apply Hn. now right.
Qed.

Lemma set_field_list_map (k : gostring) (v : value)
    (cs : list (gostring * (rtype * value))) :
  NoDup (map fst cs) ->
  set_field_list k v cs =
  map (fun f => (fst f, (fst (snd f), if gostring_eqb k (fst f) then v else snd (snd f)))) cs.
Proof.
  induction cs as [|[n [ft fv]] cs IH]; cbn; [reflexivity|]. intros Hnd.
  inversion Hnd as [|? ? Hn Hnd']; subst.
  destruct (gostring_eqb k n) eqn:E.
  - apply gostring_eqb_eq in E. subst n. f_equal.
    rewrite <- (set_field_list_absent k v cs Hn) at 1. now apply IH.
  - f_equal. now apply IH.
Qed.

Lemma fold_set_fields (doc : list (gostring * value)) (keys : list gostring) :
  forall cs : list (gostring * (rtype * value)),
    NoDup (map fst cs) ->
    fold_left (fun cs k => set_field_list k (doc_get k doc) cs) keys cs =
    map (fun f =>
           (fst f,
            (fst (snd f),
             fold_left (fun w k => if gostring_eqb k (fst f) then doc_get k doc else w)
               keys (snd (snd f))))) cs.
Proof.
  induction keys as [|k keys IH]; intros cs Hnd; cbn [fold_left].
  - rewrite <- (map_id cs) at 1. apply map_ext. now intros [n [ft w]].
  - rewrite IH by now rewrite set_field_list_names.
    rewrite set_field_list_map by exact Hnd. rewrite map_map. reflexivity.
Qed.

Lemma fold_assign_absent (doc : list (gostring * value)) (n : gostring) (keys : list gostring) :
  ~ In n keys ->
  forall w, fold_left (fun w k => if gostring_eqb k n then doc_get k doc else w) keys w = w.
Proof.
  induction keys as [|k keys IH]; intros Hn w; cbn; [reflexivity|].
  assert (gostring_eqb k n = false) as ->
      by (apply gostring_eqb_neq; intros ->; apply Hn; now left).
  apply IH. intros H. apply Hn. now right.
Qed.

Lemma fold_assign_present (doc : list (gostring * value)) (n : gostring) (keys : list gostring) :
  In n keys ->
  forall w,
    fold_left (fun w k => if gostring_eqb k n then doc_get k doc else w) keys w =
    doc_get n doc.
Proof.
  induction keys as [|k keys IH]; intros Hin w; [destruct Hin|]. cbn [fold_left].
  destruct (in_dec (list_eq_dec Byte.byte_eq_dec) n keys) as [Hk|Hk]; [now apply IH|].
  destruct Hin as [->|Hin]; [|contradiction].
  rewrite gostring_eqb_refl. now apply fold_assign_absent.
Qed.

Lemma zero_value_struct (fields : list (gostring * rtype)) :
  zero_value (TStruct fields) =
  VStruct (map (fun f => (fst f, (snd f, zero_value (snd f)))) fields).
Proof.
  cbn [zero_value]. f_equal. induction fields as [|[n ft] fields IH]; [reflexivity|].
  cbn [map fst snd]. now rewrite <- IH.
Qed.

Lemma struct_doc (fs : list (gostring * (rtype * value))) :
  NoDup (map fst fs) ->
  convertReflectStructToMapStringAny fs = map (fun f => (fst f, snd (snd f))) fs.
Proof.
  intros Hnd. unfold convertReflectStructToMapStringAny.
  assert (H : forall (fs2 : list (gostring * (rtype * value)))
                     (acc : list (gostring * value)),
             NoDup (map_keys acc ++ map fst fs2) ->
             fold_left (fun result f => map_set (fst f) (snd (snd f)) result) fs2 acc =
             acc ++ map (fun f => (fst f, snd (snd f))) fs2).
  { induction fs2 as [|[n [ft v]] fs2 IH]; intros acc Hn; cbn.
    - now rewrite app_nil_r.
    - rewrite map_set_new.
      + rewrite IH.
        * now rewrite <- app_assoc.
        * unfold map_keys in *. rewrite map_app, <- app_assoc. exact Hn.
      + cbn in Hn. apply NoDup_remove_2 in Hn. intros Hin. apply Hn, in_or_app. now left. }
  apply (H fs []). exact Hnd.
Qed.

Lemma struct_doc_get (fs : list (gostring * (rtype * value))) (n : gostring)
    (ft : rtype) (v : value) :
  NoDup (map fst fs) -> In (n, (ft, v)) fs ->
  lookup n fs = Some (ft, v) /\
  doc_get n (map (fun f => (fst f, snd (snd f))) fs) = v.
Proof.
  unfold doc_get. induction fs as [|[n1 [t1 v1]] fs IH]; intros Hnd Hin; [destruct Hin|].
  inversion Hnd as [|? ? Hn Hnd']; subst. cbn.
  destruct Hin as [Heq|Hin].
  - injection Heq as -> -> ->. rewrite gostring_eqb_refl. split; reflexivity.
  - destruct (gostring_eqb n n1) eqn:E.
    + apply gostring_eqb_eq in E. subst n1. exfalso. apply Hn.
      change n with (fst (n, (ft, v))). now apply in_map.
    + now apply IH.
Qed.

(** *** The temporaries of [readMap] and [readArray] fit the values *)

Lemma repr_slot_concrete (t : rtype) (v : value) :
  repr t v -> t <> TInterface -> slot t t v.
Proof.
  intros Hr Ht tag Htag.
  destruct Hr; try contradiction; cbn in Htag; injection Htag as <-;
    (split; [reflexivity|]); eexists; (split; [reflexivity|]);
    try exact I; try reflexivity.
Qed.

Lemma repr_slot_dynamic (t : rtype) (v : value) :
  dynamic_type t -> repr t v -> slot TInterface t v.
Proof.
  intros Hd Hr tag Htag.
  destruct Hd as [->|[->|[->|[->|[->|[->|[->|[->| ->]]]]]]]];
    inversion Hr; subst;
    try match goal with H : ?x <> ?x |- _ => now destruct H end;
    cbn in Htag; injection Htag as <-;
    (split; [reflexivity|]); eexists; (split; [reflexivity|]); exact I.
Qed.

Lemma repr_slot (et : rtype) (v : value) :
  repr et v -> exists t, t <> TInterface /\ repr t v /\ slot et t v.
Proof.
  intros Hr. destruct (Hr) as [| | | | | | | |t v Hd Hr'| | |];
    try (eexists; split; [|split; [exact Hr|apply repr_slot_concrete; [exact Hr|]]];
         discriminate).
  exists t. split; [|split; [exact Hr'|now apply repr_slot_dynamic]].
  destruct Hd as [->|[->|[->|[->|[->|[->|[->|[->| ->]]]]]]]]; discriminate.
Qed.

(** *** Every representable value is read back *)

Ltac eval_tags :=
  repeat match goal with
         | |- context [?a =? ?b] =>
             let c := eval vm_compute in (a =? b) in
             match c with
             | true => change (a =? b) with true
             | false => change (a =? b) with false
             end
         end;
  cbv iota.

Ltac primitive_case tag :=
  exists tag; split; [reflexivity|]; split; [unfold tag; lia|];
  intros old _; exists 1%nat; intros F rest HF;
  destruct F as [|F]; [lia|];
  cbn [readEvalue]; eval_tags; cbn [rtype_eqb]; cbv iota; unfold store.

Lemma ERet_inj (a b : list byte) (e : option error) : ERet a e = ERet b e -> a = b.
Proof. intros H. now injection H. Qed.

Lemma round_trip_primitive (f : nat) (t : rtype) (v : value) :
  repr t v ->
  match v with
  | VMap _ _ _ | VSlice _ _ | VStruct _ => False
  | _ => True
  end ->
  t <> TInterface ->
  element_ok (appendAny (S f)) t v.
Proof.
  intros Hr Hprim Ht p Hp.
  destruct Hr; try contradiction; cbn [appendAny] in Hp.
  - (* float64 *)
    apply ERet_inj in Hp; subst p. primitive_case kEtypeDouble.
    unfold appendFloat64, convertFloat64ToBytes. rewrite app_nil_l.
    rewrite readFloat64_app, length_le_bytes.
    unfold in_uint64 in *. rewrite Z.mod_small by lia. reflexivity.
  - (* string *)
    cbv zeta in Hp. destruct (Z.of_nat (length s) + 1 >? MaxInt32) eqn:E; [discriminate Hp|].
    apply ERet_inj in Hp; subst p. primitive_case kEtypeString.
    unfold appendInt32, convertInt32ToBytes. rewrite app_nil_l, <- !app_assoc.
    change ([kNullTerminator] ++ rest) with (x00 :: rest).
    rewrite readEstring_app by lia.
    rewrite !length_app, length_le_bytes. cbn [length]. unfold kInt32Size.
    do 2 f_equal. lia.
  - (* []byte *)
    cbv zeta in Hp. destruct (Z.of_nat (length b) >? MaxInt32) eqn:E; [discriminate Hp|].
    apply ERet_inj in Hp; subst p. primitive_case kEtypeBinary.
    unfold appendInt32, convertInt32ToBytes. rewrite app_nil_l, <- !app_assoc.
    change ([kBinarySubtype] ++ b ++ rest) with (kBinarySubtype :: b ++ rest).
    rewrite readEbinary_app by lia.
    rewrite !length_app, length_le_bytes. cbn [length]. unfold kInt32Size, kSubtypeSize.
    do 2 f_equal. lia.
  - (* bool *)
    apply ERet_inj in Hp; subst p. primitive_case kEtypeBoolean.
    destruct b; reflexivity.
  - (* time.Time *)
    cbv zeta in Hp. apply ERet_inj in Hp; subst p. primitive_case kEtypeUtcDatetime.
    unfold appendInt64, convertInt64ToBytes. rewrite app_nil_l.
    replace (k * 1000000 / 1000000) with k by (rewrite Z.div_mul; lia).
    rewrite readInt64_app, length_le_bytes.
    rewrite !wrap64_id by (try apply wrap64_range; assumption).
    rewrite (time_of_millis sec k) by assumption. reflexivity.
  - (* int32 *)
    apply ERet_inj in Hp; subst p. primitive_case kEtypeInt32.
    unfold appendInt32, convertInt32ToBytes. rewrite app_nil_l.
    rewrite readInt32_app, length_le_bytes, wrap32_id by assumption. reflexivity.
  - (* int64 *)
    apply ERet_inj in Hp; subst p. primitive_case kEtypeInt64.
    unfold appendInt64, convertInt64ToBytes. rewrite app_nil_l.
    rewrite readInt64_app, length_le_bytes, wrap64_id by assumption. reflexivity.
  - (* int *)
    apply ERet_inj in Hp; subst p. primitive_case kEtypeInt64.
    unfold appendInt64, convertInt64ToBytes, readInt. rewrite app_nil_l.
    rewrite readInt64_app, length_le_bytes, wrap64_id by assumption. reflexivity.
Qed.

Lemma at_terminator_ok (target : value) (n : Z) (rest : list byte) :
  0 <= n -> n + 5 <= MaxInt32 ->
  at_terminator target (wrap32 (n + 5)) (0 + kInt32Size + n) rest =
  (target, DOk (n + 5) rest).
Proof.
  intros Hn Hmax. unfold at_terminator, kInt32Size.
  rewrite wrap32_id by (unfold in_int32, MaxInt32 in *; lia).
  assert ((0 + 4 + n + 1 =? n + 5) = true) as -> by (apply Z.eqb_eq; lia).
  do 2 f_equal. lia.
Qed.

Lemma length_doc_bytes (n : Z) (body : list byte) :
  Z.of_nat (length ([] ++ le_bytes 4 n ++ body ++ [x00])) = Z.of_nat (length body) + 5.
Proof. rewrite app_nil_l, !length_app, length_le_bytes. cbn [length]. lia. Qed.

Section RoundTripContainers.
Variable f : nat.
Hypothesis IH : forall t v, repr t v -> t <> TInterface -> element_ok (appendAny f) t v.

Lemma elements_slots (et : rtype) (doc : list (gostring * value)) (keys : list gostring) :
  (forall key, In key keys -> repr et (doc_get key doc)) ->
  forall key, In key keys ->
    exists t, slot et t (doc_get key doc) /\ element_ok (appendAny f) t (doc_get key doc).
Proof.
  intros H key Hin. destruct (repr_slot _ _ (H key Hin)) as (t & Ht & Hr & Hs).
  exists t. split; [exact Hs|]. now apply IH.
Qed.

Lemma round_trip_map (et : rtype) (m : list (gostring * value)) :
  repr (TMap TString et) (VMap TString et (Some m)) ->
  element_ok (appendAny (S (S (S f)))) (TMap TString et) (VMap TString et (Some m)).
Proof.
  intros Hr p Hp. inversion Hr as [| | | | | | | | |et' m' Hnd Hsorted Hall| |]; subst.
  cbn [appendAny appendOther Kind rkind_eqb negb] in Hp.
  rewrite convert_map_nodup in Hp by exact Hnd.
  apply appendMap_layout in Hp as (body & Hel & -> & Hmax).
  rewrite Hsorted in Hel.
  destruct (readMap_loop_elements (appendAny f) m et _ _ Hel) as (F0 & Hloop).
  { apply elements_slots. intros key Hin.
    destruct (lookup_in key m Hin) as (v & Hv & Hi). unfold doc_get. rewrite Hv.
    rewrite Forall_forall in Hall. exact (Hall _ Hi). }
  exists kEtypeDocument. split; [reflexivity|]. split; [unfold kEtypeDocument; lia|].
  intros old _. exists (S (S F0)). intros F rest HF.
  destruct F as [|[|F]]; try lia.
  rewrite length_doc_bytes. rewrite app_nil_l, <- !app_assoc.
  change ([x00] ++ rest) with (x00 :: rest).
  cbn [readEvalue]. eval_tags. cbn [Kind readMap rkind_eqb negb]. cbv iota.
  rewrite readInt32_app. rewrite Hloop by lia.
  rewrite fold_map_set_keys by exact Hnd.
  apply at_terminator_ok; lia.
Qed.

Lemma round_trip_slice (et : rtype) (s : list value) :
  repr (TSlice et) (VSlice et (Some s)) ->
  element_ok (appendAny (S (S (S f)))) (TSlice et) (VSlice et (Some s)).
Proof.
  intros Hr p Hp. inversion Hr as [| | | | | | | | | |et' s' Hne Hlen Hall|]; subst.
  cbn [appendAny appendOther convertReflectSliceToMapStringAny] in Hp.
  apply appendMap_layout in Hp as (body & Hel & -> & Hmax).
  pose proof (slice_doc_sorted s Hlen) as Hs.
  destruct (readArray_loop_elements (appendAny f) _ et _ _ Hel) as (F0 & Hloop).
  { apply elements_slots. intros key Hin.
    rewrite Forall_forall in Hall. apply Hall. rewrite <- Hs at 2.
    now apply (in_map (fun k => doc_get k (slice_to_map 0 s []))). }
  exists kEtypeArray. split; [reflexivity|]. split; [unfold kEtypeArray; lia|].
  intros old _. exists (S (S F0)). intros F rest HF.
  destruct F as [|[|F]]; try lia.
  rewrite length_doc_bytes. rewrite app_nil_l, <- !app_assoc.
  change ([x00] ++ rest) with (x00 :: rest).
  cbn [readEvalue]. eval_tags. cbn [readArray].
  rewrite readInt32_app. rewrite Hloop by lia.
  cbn [app]. rewrite Hs.
  replace (mk_slice et s) with (VSlice et (Some s)) by (destruct et; try reflexivity; contradiction).
  apply at_terminator_ok; lia.
Qed.
End RoundTripContainers.

Lemma lookup_zero_fields (fs : list (gostring * (rtype * value))) (key : gostring) :
  lookup key (map (fun f => (fst f, (fst (snd f), zero_value (fst (snd f))))) fs) =
  match lookup key fs with
  | Some (ft, _) => Some (ft, zero_value ft)
  | None => None
  end.
Proof.
  induction fs as [|[n [ft v]] fs IH]; cbn; [reflexivity|].
  destruct (gostring_eqb key n); [reflexivity|exact IH].
Qed.

Lemma round_trip_struct (f : nat) (fs : list (gostring * (rtype * value))) :
  (forall t v, repr t v -> t <> TInterface -> element_ok (appendAny f) t v) ->
  repr (TStruct (map (fun f => (fst f, fst (snd f))) fs)) (VStruct fs) ->
  element_ok (appendAny (S (S (S f))))
    (TStruct (map (fun f => (fst f, fst (snd f))) fs)) (VStruct fs).
Proof.
  intros IH Hr p Hp.
  assert (Hfs : NoDup (map fst fs) /\
                Forall (fun f => fst (snd f) <> TInterface /\
                                 repr (fst (snd f)) (snd (snd f))) fs).
  { inversion Hr as [| | | | | | | | | | |fs' Hnd Hall Heq]; subst. split; assumption. }
  destruct Hfs as (Hnd & Hall). clear Hr.
  cbn [appendAny appendOther] in Hp. rewrite struct_doc in Hp by exact Hnd.
  set (doc := map (fun f => (fst f, snd (snd f))) fs) in *.
  apply appendMap_layout in Hp as (body & Hel & -> & Hmax).
  set (ftype := fun key => match lookup key fs with Some (ft, _) => ft | None => TInterface end).
  assert (Hkeys : forall key, In key (sortedKeys doc) <-> In key (map fst fs)).
  { intros key. unfold sortedKeys.
    assert (Hk : map_keys doc = map fst fs).
    { unfold doc, map_keys. rewrite map_map. reflexivity. }
    rewrite <- Hk. split; apply Permutation_in;
      [apply sort_strings_perm|symmetry; apply sort_strings_perm]. }
  assert (Hfield : forall key, In key (sortedKeys doc) ->
             exists ft v, In (key, (ft, v)) fs /\ lookup key fs = Some (ft, v) /\
                          doc_get key doc = v /\ ftype key = ft).
  { intros key Hin. apply Hkeys in Hin. apply in_map_iff in Hin as ([n [ft v]] & Hn & Hin).
    cbn in Hn. subst n. exists ft, v.
    destruct (struct_doc_get fs key ft v Hnd Hin) as (Hl & Hg).
    repeat split; try assumption. unfold ftype. now rewrite Hl. }
  assert (Hndk : NoDup (sortedKeys doc)).
  { eapply Permutation_NoDup; [symmetry; apply sort_strings_perm|].
    unfold doc, map_keys. rewrite map_map. exact Hnd. }
  destruct (readStruct_loop_elements (appendAny f) doc ftype _ _ Hel Hndk) as (F0 & Hloop).
  { intros key Hin. destruct (Hfield key Hin) as (ft & v & Hi & Hl & Hg & Hft).
    rewrite Hg, Hft. rewrite Forall_forall in Hall.
    destruct (Hall _ Hi) as (Hne & Hrv). cbn in Hne, Hrv. split.
    - intros tag Htag. exact (proj1 (repr_slot_concrete ft v Hrv Hne tag Htag)).
    - now apply IH. }
  exists kEtypeDocument. split; [reflexivity|]. split; [unfold kEtypeDocument; lia|].
  intros old Hold. exists (S (S F0)). intros F rest HF.
  destruct F as [|[|F]]; try lia.
  cbn [target_init] in Hold. subst old.
  rewrite length_doc_bytes. rewrite app_nil_l, <- !app_assoc.
  change ([x00] ++ rest) with (x00 :: rest).
  cbn [readEvalue]. eval_tags. cbn [Kind readStruct].
  rewrite readInt32_app, zero_value_struct, map_map. cbn [fst snd].
  rewrite Hloop.
  - rewrite fold_set_fields by (rewrite map_map; exact Hnd).
    rewrite map_map. cbn [fst snd].
    replace (map _ fs) with fs; [apply at_terminator_ok; lia|].
    rewrite <- (map_id fs) at 1. apply map_ext_in. intros [n [ft v]] Hin. cbn [fst snd].
    rewrite fold_assign_present.
    + destruct (struct_doc_get fs n ft v Hnd Hin) as (_ & Hg). unfold doc. now rewrite Hg.
    + apply Hkeys. change n with (fst (n, (ft, v))). now apply in_map.
  - lia.
  - intros key Hin. destruct (Hfield key Hin) as (ft & v & Hi & Hl & Hg & Hft).
    rewrite lookup_zero_fields, Hl, Hft. reflexivity.
Qed.

Lemma round_trip_value (fuel : nat) :
  forall t v, repr t v -> t <> TInterface -> element_ok (appendAny fuel) t v.
Proof.
  induction fuel as [fuel IH] using lt_wf_ind. intros t v Hr Ht.
  destruct fuel as [|f1]; [intros p Hp; discriminate Hp|].
  destruct v as [| | | | | | | | | |kt et m|et s|fs|pt pp];
    try (apply round_trip_primitive; [exact Hr|exact I|exact Ht]);
    try (inversion Hr; subst; contradiction).
  - (* map *)
    assert (Ht' : t = TMap TString et /\ kt = TString /\ exists m', m = Some m').
    { inversion Hr as [| | | | | | | |t0 v0 Hd Hr0| | |]; subst; try contradiction; eauto. }
    destruct Ht' as (-> & -> & m' & ->).
    destruct f1 as [|[|f]]; try (intros p Hp; cbn in Hp; discriminate Hp).
    apply round_trip_map; [|exact Hr]. intros. apply IH; [lia|assumption|assumption].
  - (* slice *)
    assert (Ht' : t = TSlice et /\ exists s', s = Some s').
    { inversion Hr as [| | | | | | | |t0 v0 Hd Hr0| | |]; subst; try contradiction; eauto. }
    destruct Ht' as (-> & s' & ->).
    destruct f1 as [|[|f]]; try (intros p Hp; cbn in Hp; discriminate Hp).
    apply round_trip_slice; [|exact Hr]. intros. apply IH; [lia|assumption|assumption].
  - (* struct *)
    assert (Ht' : t = TStruct (map (fun f => (fst f, fst (snd f))) fs)).
    { inversion Hr as [| | | | | | | |t0 v0 Hd Hr0| | |]; subst; try contradiction; eauto. }
    subst t.
    destruct f1 as [|[|f]]; try (intros p Hp; cbn in Hp; discriminate Hp).
    apply round_trip_struct; [|exact Hr]. intros. apply IH; [lia|assumption|assumption].
Qed.

(** C1, amended.  Round trip: if [D] is a representable value of a struct
    or string-keyed map type [t] and [Marshal] encodes it, then [Unmarshal]
    of the bytes into a zero target of type [t] succeeds and the target then
    holds [D]. *)
Theorem round_trip (t : rtype) (D : value) (B : list byte) :
  repr t D -> top_level t -> Marshal D = ERet B None ->
  Unmarshal B t (zero_value t) = (D, UOk).
Proof.
  intros Hr Htop HM.
  assert (Ht : t <> TInterface) by (destruct Htop as [(? & ->)|(? & ->)]; discriminate).
  assert (Happ : appendAny (3 * vsize D) [] D = ERet B None).
  { unfold Marshal in HM.
    destruct Htop as [(fields & ->)|(et & ->)]; inversion Hr; subst;
      cbn [Marshal_at validate64bit TypeOf Kind rkind_eqb negb andb] in HM;
      destruct (appendAny _ [] _) as [o [e|]| |]; try discriminate HM; exact HM. }
  destruct (round_trip_value _ t D Hr Ht B Happ) as (tag & Htag & _ & Hdec).
  destruct (Hdec (zero_value t) (target_init_zero t)) as (F0 & Hread).
  set (F1 := Nat.max (length B + 2) F0).
  specialize (Hread (S F1) [] ltac:(lia)). rewrite app_nil_r in Hread.
  unfold Unmarshal, Unmarshal_at. cbn [validate64bit].
  destruct Htop as [(fields & ->)|(et & ->)]; inversion Hr; subst;
    cbn in Htag; injection Htag as <-;
    cbn [readEvalue] in Hread; revert Hread; eval_tags; cbn [Kind]; intros Hread.
  - rewrite <- (readStruct_fuel (length B + 2) F1) by lia.
    rewrite Hread. rewrite Z.eqb_refl. reflexivity.
  - rewrite <- (readMap_fuel (length B + 2) F1) by lia.
    rewrite Hread. rewrite Z.eqb_refl. reflexivity.
Qed.

Lemma round_trip_witness :
  Unmarshal example_bytes ExampleStruct_rtype (zero_value ExampleStruct_rtype) =
  (ExampleStruct, UOk).
Proof.
  apply (round_trip ExampleStruct_rtype ExampleStruct example_bytes).
  - apply (repr_struct [(str "BSON",
                         (TSlice TInterface,
                          VSlice TInterface
                            (Some [VString (str "awesome");
                                   VFloat64 0x4014333333333333;
                                   VInt32 1986])))]).
    + repeat constructor. intros [].
    + repeat constructor; cbn; try discriminate; try lia.
      * apply (repr_any TString); [unfold dynamic_type; tauto|constructor].
      * apply (repr_any TFloat64); [unfold dynamic_type; tauto|].
        constructor. unfold in_uint64. lia.
      * apply (repr_any TInt32); [unfold dynamic_type; tauto|].
        constructor. unfold in_int32. lia.
  - left. eexists. reflexivity.
  - vm_compute. reflexivity.
Defined.

(* ================================================================== *)
(** * Further properties of the decoder and the encoder *)

(** ** The decoder ends on every input *)

(** X1.  The recursion of the decoder always ends: every call of a reader
    consumes at least one byte of the input, so [Unmarshal] never runs out of
    its fuel, and any larger amount of fuel gives the same result. *)
Theorem Unmarshal_terminates (marshalled : list byte) (t : rtype) (old : value) (n : nat) :
  snd (Unmarshal marshalled t old) <> UOutOfFuel /\
  Unmarshal_at (length marshalled + 2 + n) marshalled t old = Unmarshal marshalled t old.
Proof.
  split; [apply Unmarshal_has_fuel|].
  unfold Unmarshal, Unmarshal_at. cbn [validate64bit].
  destruct (Kind t); try reflexivity.
  - rewrite (readMap_fuel (length marshalled + 2) (length marshalled + 2 + n)) by lia.
    reflexivity.
  - rewrite (readStruct_fuel (length marshalled + 2) (length marshalled + 2 + n)) by lia.
    reflexivity.
Qed.

(** ** The readers do not look ahead *)



(** ** Elements the target cannot take *)

(** X4.  An element whose name is not a field of the struct target makes
    [readStruct]'s loop fail with the field-not-found error; the fields of
    the target are left as they are. *)
Theorem field_not_found (f : nat) (tag : Z) (name : gostring) (rest : list byte)
    (cs : list (gostring * (rtype * value))) (L a : Z) :
  0 < tag < 256 ->
  validateEname name = None ->
  lookup name cs = None ->
  readStruct_loop (S f) (byte_of_Z tag :: name ++ x00 :: rest) (VStruct cs) L a =
  (VStruct cs, DErr (ErrFieldNotFound name)).
Proof.
  intros Htag Hname Hlook. cbn [readStruct_loop]. rewrite readEtype_tag by exact Htag.
  assert ((tag =? kEtypeDone) = false) as -> by (apply Z.eqb_neq; unfold kEtypeDone; lia).
  rewrite readEname_key by exact Hname. cbn [FieldByName]. now rewrite Hlook.
Qed.

Lemma field_not_found_witness :
  readStruct_loop 1 (byte_of_Z kEtypeString :: str "Hello" ++ x00 :: []) (VStruct []) 22 4 =
  (VStruct [], DErr (ErrFieldNotFound (str "Hello"))).
Proof.
  apply (field_not_found 0 kEtypeString (str "Hello") [] [] 22 4).
  - unfold kEtypeString. lia.
  - vm_compute. reflexivity.
  - reflexivity.
Defined.

Lemma validate_unsupported (tag : Z) (t : rtype) :
  supported_etype tag = false -> validateEtypeCanBeDeserializeToRtype tag t = None.
Proof.
  unfold supported_etype. cbn [existsb]. intros H.
  repeat (apply orb_false_elim in H; destruct H as (? & H)).
  unfold validateEtypeCanBeDeserializeToRtype.
  destruct (rtype_eqb t TInterface); [reflexivity|].
  repeat match goal with E : (tag =? _) = false |- _ => rewrite E; clear E end.
  reflexivity.
Qed.

Lemma new_tmp_unsupported (tag : Z) (t : rtype) (dynamic : bool) :
  supported_etype tag = false -> new_tmp tag t dynamic = inr (ErrUnsupportedEtype tag).
Proof.
  unfold supported_etype. cbn [existsb]. intros H.
  repeat (apply orb_false_elim in H; destruct H as (? & H)).
  unfold new_tmp.
  repeat match goal with E : (tag =? _) = false |- _ => rewrite E; clear E end.
  reflexivity.
Qed.

Lemma readEvalue_unsupported (f : nat) (tag : Z) (b : list byte) (pt : rtype) (old : value) :
  supported_etype tag = false ->
  readEvalue (S f) b pt old tag = (old, DErr (ErrUnsupportedEtype tag)).
Proof.
  unfold supported_etype. cbn [existsb]. intros H.
  repeat (apply orb_false_elim in H; destruct H as (? & H)).
  cbn [readEvalue].
  repeat match goal with E : (tag =? _) = false |- _ => rewrite E; clear E end.
  reflexivity.
Qed.

Lemma set_field_list_same (name : gostring) (ft : rtype) (fv : value)
    (cs : list (gostring * (rtype * value))) :
  lookup name cs = Some (ft, fv) -> set_field_list name fv cs = cs.
Proof.
  induction cs as [|[n [t v]] cs IH]; cbn; [discriminate|].
  destruct (gostring_eqb name n) eqn:E.
  - intros H. injection H as -> ->. apply gostring_eqb_eq in E. now subst.
  - intros H. f_equal. now apply IH.
Qed.

(** X5.  An element whose type tag is none of the nine implemented ones is
    rejected with the unsupported-etype error by every container reader,
    whatever the type of the target: by [readMap] and [readArray] before a
    temporary is made, by [readStruct] when the value is read (the type
    validation lets such a tag pass). *)
Theorem unsupported_etype_rejected (f : nat) (tag : Z) (name : gostring)
    (rest : list byte) (L a : Z) :
  0 < tag < 256 ->
  supported_etype tag = false ->
  validateEname name = None ->
  (forall kt et entries,
      readMap_loop (S f) (byte_of_Z tag :: name ++ x00 :: rest) kt et entries L a =
      (VMap kt et (Some entries), DErr (ErrUnsupportedEtype tag))) /\
  (forall et elems,
      readArray_loop (S f) (byte_of_Z tag :: name ++ x00 :: rest) et elems L a =
      (mk_slice et elems, DErr (ErrUnsupportedEtype tag))) /\
  (forall cs ft fv,
      lookup name cs = Some (ft, fv) ->
      readStruct_loop (S (S f)) (byte_of_Z tag :: name ++ x00 :: rest) (VStruct cs) L a =
      (VStruct cs, DErr (WrapField name (ErrUnsupportedEtype tag)))).
Proof.
  intros Htag Hsup Hname.
  assert (Hdone : (tag =? kEtypeDone) = false)
    by (apply Z.eqb_neq; unfold kEtypeDone; lia).
  split; [|split].
  - intros kt et entries. cbn [readMap_loop]. rewrite readEtype_tag, Hdone by exact Htag.
    rewrite readEname_key by exact Hname.
    rewrite validate_unsupported, new_tmp_unsupported by exact Hsup. reflexivity.
  - intros et elems. cbn [readArray_loop]. rewrite readEtype_tag, Hdone by exact Htag.
    rewrite readEname_key by exact Hname.
    rewrite validate_unsupported, new_tmp_unsupported by exact Hsup. reflexivity.
  - intros cs ft fv Hlook. cbn [readStruct_loop]. rewrite readEtype_tag, Hdone by exact Htag.
    rewrite readEname_key by exact Hname. cbn [FieldByName]. rewrite Hlook.
    rewrite validate_unsupported by exact Hsup.
    rewrite readEvalue_unsupported by exact Hsup. cbn [set_field].
    now rewrite (set_field_list_same name ft fv cs Hlook).
Qed.

Lemma unsupported_etype_rejected_witness :
  (forall kt et entries,
      readMap_loop 1 (byte_of_Z 7 :: str "A" ++ x00 :: []) kt et entries 9 4 =
      (VMap kt et (Some entries), DErr (ErrUnsupportedEtype 7))) /\
  (forall et elems,
      readArray_loop 1 (byte_of_Z 7 :: str "A" ++ x00 :: []) et elems 9 4 =
      (mk_slice et elems, DErr (ErrUnsupportedEtype 7))) /\
  (forall cs ft fv,
      lookup (str "A") cs = Some (ft, fv) ->
      readStruct_loop 2 (byte_of_Z 7 :: str "A" ++ x00 :: []) (VStruct cs) 9 4 =
      (VStruct cs, DErr (WrapField (str "A") (ErrUnsupportedEtype 7)))).
Proof.
  apply (unsupported_etype_rejected 0 7 (str "A") [] 9 4).
  - lia.
  - vm_compute. reflexivity.
  - vm_compute. reflexivity.
Defined.

(** ** The payload readers accept exactly what the payload writers write *)

Lemma le_bytes_mod (n : nat) (z : Z) : le_bytes n (z mod 256 ^ Z.of_nat n) = le_bytes n z.
Proof.
  rewrite <- (le_unsigned_le_bytes n z).
  rewrite <- (length_le_bytes n z) at 1. apply le_bytes_le_unsigned.
Qed.

Lemma wrap32_mod_eq (z : Z) : wrap32 z mod 2 ^ 32 = z mod 2 ^ 32.
Proof.
  unfold wrap32. rewrite Zminus_mod, Zmod_mod, <- Zminus_mod.
  f_equal. lia.
Qed.

Lemma wrap64_mod_eq (z : Z) : wrap64 z mod 2 ^ 64 = z mod 2 ^ 64.
Proof.
  unfold wrap64. rewrite Zminus_mod, Zmod_mod, <- Zminus_mod.
  f_equal. lia.
Qed.

Lemma le_bytes_wrap32 (z : Z) : le_bytes 4 (wrap32 z) = le_bytes 4 z.
Proof.
  rewrite <- (le_bytes_mod 4 (wrap32 z)), <- (le_bytes_mod 4 z).
  change (256 ^ Z.of_nat 4) with (2 ^ 32). now rewrite wrap32_mod_eq.
Qed.

Lemma le_bytes_wrap64 (z : Z) : le_bytes 8 (wrap64 z) = le_bytes 8 z.
Proof.
  rewrite <- (le_bytes_mod 8 (wrap64 z)), <- (le_bytes_mod 8 z).
  change (256 ^ Z.of_nat 8) with (2 ^ 64). now rewrite wrap64_mod_eq.
Qed.

(** X6.  [readInt32], [readInt64] and [readFloat64] succeed exactly on a buffer
    that starts with the bytes [convertInt32ToBytes], [convertInt64ToBytes]
    and [convertFloat64ToBytes] produce for the value read, and consume
    these bytes only. *)
Theorem fixed_width_exact (buffer : list byte) (z n : Z) (rest : list byte) :
  (readInt32 buffer = ROk z n rest <->
   in_int32 z /\ n = kInt32Size /\ buffer = convertInt32ToBytes z ++ rest) /\
  (readInt64 buffer = ROk z n rest <->
   in_int64 z /\ n = kInt64Size /\ buffer = convertInt64ToBytes z ++ rest) /\
  (readFloat64 buffer = ROk z n rest <->
   in_uint64 z /\ n = kFloat64Size /\ buffer = convertFloat64ToBytes z ++ rest).
Proof.
  unfold convertInt32ToBytes, convertInt64ToBytes, convertFloat64ToBytes.
  split; [|split]; split.
  - intros H. apply readInt32_inv in H as (u & -> & Hu & -> & ->).
    split; [apply wrap32_range|]. split; [reflexivity|].
    rewrite le_bytes_wrap32. rewrite <- Hu. now rewrite le_bytes_le_unsigned.
  - intros (Hz & -> & ->). rewrite readInt32_app. now rewrite wrap32_id.
  - unfold readInt64. intros H.
    destruct (read_full 8 buffer) as [bs m r| |] eqn:E; try discriminate H.
    injection H as <- <- <-. apply read_full_inv in E as (-> & Hlen & _).
    split; [apply wrap64_range|]. split; [reflexivity|].
    rewrite le_bytes_wrap64. rewrite <- Hlen. now rewrite le_bytes_le_unsigned.
  - intros (Hz & -> & ->). rewrite readInt64_app. now rewrite wrap64_id.
  - unfold readFloat64. intros H.
    destruct (read_full 8 buffer) as [bs m r| |] eqn:E; try discriminate H.
    injection H as <- <- <-. apply read_full_inv in E as (-> & Hlen & _).
    split.
    { pose proof (le_unsigned_range bs) as Hr. rewrite Hlen in Hr.
      change (256 ^ Z.of_nat 8) with (2 ^ 64) in Hr. exact Hr. }
    split; [reflexivity|].
    rewrite <- Hlen. now rewrite le_bytes_le_unsigned.
  - intros (Hz & -> & ->). rewrite readFloat64_app.
    unfold in_uint64 in Hz. now rewrite Z.mod_small.
Qed.

Lemma fixed_width_exact_witness :
  readInt32 (hex [0xff; 0xff; 0xff; 0xff; 9]) = ROk (-1) 4 [x09].
Proof.
  apply (proj2 (proj1 (fixed_width_exact (hex [0xff; 0xff; 0xff; 0xff; 9]) (-1) 4 [x09]))).
  split; [unfold in_int32; lia|]. split; reflexivity.
Defined.



(** X8.  [readEbinary] succeeds exactly on a buffer that starts with the 32-bit
    length of the bytes it returns, one subtype byte and the bytes; the
    subtype byte is not looked at, where [appendAny] always writes zero. *)
Theorem readEbinary_exact (buffer : list byte) (b : list byte) (n : Z) (rest : list byte) :
  readEbinary buffer = ROk b n rest <->
  Z.of_nat (length b) <= MaxInt32 /\
  n = Z.of_nat (length b) + kInt32Size + kSubtypeSize /\
  exists subtype,
    buffer = convertInt32ToBytes (Z.of_nat (length b)) ++ subtype :: b ++ rest.
Proof.
  split.
  - unfold readEbinary. intros H.
    destruct (readInt32 buffer) as [size n1 b1| |] eqn:E1; try discriminate H.
    apply readInt32_inv in E1 as (u & -> & Hu & -> & Hsize).
    destruct (ReadByte b1) as [st n2 b2| |] eqn:E2; try discriminate H.
    apply ReadByte_inv in E2 as (-> & ->).
    destruct (size <? 0) eqn:Eneg; [discriminate H|]. apply Z.ltb_ge in Eneg.
    destruct (buffer_Read (Z.to_nat size) b2) as [bs m b3| |] eqn:E3; try discriminate H.
    destruct (m =? Z.of_nat (Z.to_nat size)) eqn:Em; [|discriminate H].
    apply Z.eqb_eq in Em. cbn [negb] in H.
    destruct (buffer_Read_full _ _ _ _ _ E3 Em) as (-> & Hl3 & _).
    injection H as <- <- <-.
    assert (Hlen : Z.of_nat (length bs) = size) by lia.
    pose proof (wrap32_range (le_unsigned u)) as Hr. rewrite <- Hsize in Hr.
    unfold in_int32 in Hr. split; [unfold MaxInt32; lia|]. split; [lia|].
    exists st. unfold convertInt32ToBytes. rewrite Hlen, Hsize, le_bytes_wrap32.
    rewrite <- Hu. now rewrite le_bytes_le_unsigned.
  - intros (Hmax & -> & st & ->). unfold convertInt32ToBytes, readEbinary.
    rewrite readInt32_app. rewrite wrap32_id by (unfold in_int32, MaxInt32 in *; lia).
    cbn [ReadByte].
    assert ((Z.of_nat (length b) <? 0) = false) as -> by (apply Z.ltb_ge; lia).
    rewrite Nat2Z.id, buffer_Read_app by reflexivity.
    rewrite Z.eqb_refl. reflexivity.
Qed.

Lemma readEbinary_exact_witness :
  readEbinary (hex [2; 0; 0; 0; 0x80; 0x68; 0x69; 9]) = ROk (str "hi") 7 [x09].
Proof.
  apply (proj2 (readEbinary_exact (hex [2; 0; 0; 0; 0x80; 0x68; 0x69; 9]) (str "hi") 7 [x09])).
  split; [vm_compute; congruence|]. split; [reflexivity|].
  exists x80. reflexivity.
Defined.

(** X9.  [readBoolean] succeeds exactly on a buffer that starts with the byte
    [appendBoolean] writes, 0 for false and 1 for true; any other first byte
    gives the unexpected-value error. *)
Theorem readBoolean_exact (buffer : list byte) :
  (forall v n rest,
      readBoolean buffer = ROk v n rest <->
      n = kInt8Size /\ buffer = appendBoolean [] v ++ rest) /\
  (forall b rest,
      buffer = b :: rest -> byte_val b <> 0 -> byte_val b <> 1 ->
      readBoolean buffer = RErr (ErrBadBoolean (byte_val b))).
Proof.
  split.
  - intros v n rest. unfold readBoolean, appendBoolean. split.
    + destruct buffer as [|b buffer]; cbn [ReadByte]; [discriminate|].
      destruct (byte_val b =? 0) eqn:E0.
      * intros H. injection H as <- <- <-. apply Z.eqb_eq in E0.
        assert (b = x00) as -> by (apply byte_val_inj; rewrite E0; reflexivity).
        split; reflexivity.
      * destruct (byte_val b =? 1) eqn:E1; [|discriminate].
        intros H. injection H as <- <- <-. apply Z.eqb_eq in E1.
        assert (b = x01) as -> by (apply byte_val_inj; rewrite E1; reflexivity).
        split; reflexivity.
    + intros (-> & ->). destruct v; reflexivity.
  - intros b rest -> H0 H1. unfold readBoolean. cbn [ReadByte].
    apply Z.eqb_neq in H0, H1. now rewrite H0, H1.
Qed.

Lemma readBoolean_exact_witness :
  readBoolean (hex [2; 0]) = RErr (ErrBadBoolean 2).
Proof.
  apply (proj2 (readBoolean_exact (hex [2; 0])) (byte_of_Z 2) [x00]).
  - reflexivity.
  - vm_compute. discriminate.
  - vm_compute. discriminate.
Defined.

(** ** A [time.Time] at the top level *)

Lemma readStruct_loop_time (fuel : nat) (buffer : list byte) (sec nsec L a n : Z)
    (rest : list byte) (v : value) :
  readStruct_loop fuel buffer (VTime sec nsec) L a = (v, DOk n rest) -> n = a + 1.
Proof.
  destruct fuel as [|f]; cbn [readStruct_loop]; [discriminate|].
  destruct (readEtype buffer) as [et n1 b1| |] eqn:E; try discriminate.
  apply readEtype_inv in E as (b & -> & -> & ->).
  destruct (byte_val b =? kEtypeDone).
  - destruct (negb _); [discriminate|]. intros H. injection H as _ <- _. reflexivity.
  - destruct (readEname b1) as [ename n2 b2| |]; try discriminate.
    unfold FieldByName.
    repeat match goal with
           | |- context [gostring_eqb ?x ?y] => destruct (gostring_eqb x y)
           end;
      try discriminate;
      destruct (validateEtypeCanBeDeserializeToRtype _ _); discriminate.
Qed.

Lemma Unmarshal_time_empty_only (marshalled : list byte) (sec nsec : Z) :
  snd (Unmarshal marshalled TTime (VTime sec nsec)) = UOk -> length marshalled = 5%nat.
Proof.
  unfold Unmarshal, Unmarshal_at. cbn [validate64bit Kind].
  replace (length marshalled + 2)%nat with (S (S (length marshalled))) by lia.
  cbn [readStruct].
  destruct (readInt32 marshalled) as [L n b| |] eqn:E; try discriminate.
  apply readInt32_inv in E as (u & _ & _ & -> & _).
  destruct (readStruct_loop _ b _ L _) as [v r] eqn:El.
  destruct r as [m rest| | |]; try discriminate.
  apply readStruct_loop_time in El. subst m. unfold kInt32Size.
  destruct (0 + 4 + 1 =? Z.of_nat (length marshalled)) eqn:Em; [|discriminate].
  apply Z.eqb_eq in Em. intros _. lia.
Qed.

(** X10.  [Marshal] accepts a [time.Time] as a document, its kind being struct,
    and returns the eight bytes of its milliseconds instead of a document;
    [Unmarshal] into a [time.Time] never succeeds on them: it succeeds on an
    input of five bytes only. *)
Theorem Marshal_time_top_level (sec nsec : Z) :
  Marshal (VTime sec nsec) =
  ERet (convertInt64ToBytes (wrap64 (sec * 1000 + nsec / 1000000))) None /\
  (forall old_sec old_nsec,
      snd (Unmarshal (convertInt64ToBytes (wrap64 (sec * 1000 + nsec / 1000000)))
             TTime (VTime old_sec old_nsec)) <> UOk) /\
  (forall marshalled old_sec old_nsec,
      snd (Unmarshal marshalled TTime (VTime old_sec old_nsec)) = UOk ->
      length marshalled = 5%nat).
Proof.
  split; [reflexivity|]. split.
  - intros os on H. apply Unmarshal_time_empty_only in H.
    unfold convertInt64ToBytes in H. rewrite length_le_bytes in H. discriminate H.
  - intros marshalled os on. apply Unmarshal_time_empty_only.
Qed.

(** ** Slices come back in the order of their keys *)

Lemma lookup_map_set {A : Type} (k k' : gostring) (v : A) (m : list (gostring * A)) :
  lookup k (map_set k' v m) = if gostring_eqb k k' then Some v else lookup k m.
Proof.
  induction m as [|[k2 v2] m IH]; cbn; [reflexivity|].
  destruct (gostring_eqb k' k2) eqn:E; cbn.
  - destruct (gostring_eqb k k') eqn:E1; [reflexivity|].
    apply gostring_eqb_eq in E. subst k2. now rewrite E1.
  - destruct (gostring_eqb k k2) eqn:E2; [|exact IH].
    destruct (gostring_eqb k k') eqn:E1; [|reflexivity].
    apply gostring_eqb_eq in E1, E2. subst. now rewrite gostring_eqb_refl in E.
Qed.

Lemma slice_to_map_values (s : list value) :
  forall i m key,
    In (doc_get key (slice_to_map i s m)) s \/
    lookup key (slice_to_map i s m) = lookup key m.
Proof.
  induction s as [|v s IH]; intros i m key; cbn [slice_to_map]; [now right|].
  destruct (IH (S i) (map_set (Itoa i) v m) key) as [H|H]; [left; now right|].
  rewrite lookup_map_set in H. destruct (gostring_eqb key (Itoa i)).
  - left. left. unfold doc_get. now rewrite H.
  - now right.
Qed.

Lemma slice_read_order_eleven (s : list value) :
  length s = 11%nat -> slice_read_order s = eleven_order s.
Proof.
  intros Hlen.
  do 11 (destruct s as [|? s]; [discriminate Hlen|]).
  destruct s; [vm_compute; reflexivity|discriminate Hlen].
Qed.

(** X11.  A slice is written as a document whose keys are the decimal indices,
    in the bytewise order of these strings, and [readArray] appends the
    elements in the order of the wire: a slice is read back in the order of
    its indices as strings.  With eleven elements the last one comes back
    third. *)
Theorem slice_read_back_in_key_order (et : rtype) (s : list value) (fuel : nat)
    (p : list byte) (old : value) :
  et <> TUint8 ->
  Forall (repr et) s ->
  appendAny fuel [] (VSlice et (Some s)) = ERet p None ->
  decodes_as (TSlice et) old (VSlice et (Some (slice_read_order s))) kEtypeArray p /\
  (length s = 11%nat -> slice_read_order s = eleven_order s).
Proof.
  intros Hne Hall Hp. split; [|apply slice_read_order_eleven].
  destruct fuel as [|[|[|f]]]; try (cbn in Hp; discriminate Hp).
  cbn [appendAny appendOther] in Hp.
  apply appendMap_layout in Hp as (body & Hel & -> & Hmax).
  destruct (readArray_loop_elements (appendAny f) _ et _ _ Hel) as (F0 & Hloop).
  { apply (elements_slots f (round_trip_value f)). intros key Hin.
    rewrite Forall_forall in Hall. apply Hall.
    unfold convertReflectSliceToMapStringAny.
    destruct (slice_to_map_values s 0 [] key) as [H|H]; [exact H|].
    exfalso. apply (Permutation_in _ (sort_strings_perm _)) in Hin.
    apply lookup_in in Hin as (v & Hv & _).
    unfold convertReflectSliceToMapStringAny in Hv. rewrite H in Hv. discriminate Hv. }
  exists (S (S F0)). intros F rest HF.
  destruct F as [|[|F]]; try lia.
  rewrite length_doc_bytes. rewrite app_nil_l, <- !app_assoc.
  change ([x00] ++ rest) with (x00 :: rest).
  cbn [readEvalue]. eval_tags. cbn [readArray].
  rewrite readInt32_app. rewrite Hloop by lia.
  cbn [app]. fold (slice_read_order s).
  replace (mk_slice et (slice_read_order s)) with (VSlice et (Some (slice_read_order s)))
    by (destruct et; try reflexivity; contradiction).
  apply at_terminator_ok; lia.
Qed.

Lemma slice_read_back_in_key_order_witness :
  decodes_as (TSlice TInt32) VNil
    (VSlice TInt32 (Some (map VInt32 [0; 1; 10; 2; 3; 4; 5; 6; 7; 8; 9]))) kEtypeArray
    (match appendAny 4 [] (VSlice TInt32 (Some eleven_ints)) with
     | ERet p _ => p
     | _ => []
     end).
Proof.
  refine (proj1 (slice_read_back_in_key_order TInt32 eleven_ints 4 _ VNil _ _ _)).
  - discriminate.
  - unfold eleven_ints. repeat constructor; unfold in_int32; lia.
  - vm_compute. reflexivity.
Defined.

(** ** [readArray] does not look at the names of the elements *)

(** X12.  The name of an array element is read and counted, and used in error
    messages only: two wires that differ in the name of their first element,
    the names having the same length, are read with the same result. *)
Theorem readArray_ignores_names (f : nat) (b : byte) (name1 name2 : gostring)
    (rest : list byte) (et : rtype) (elems : list value) (L a : Z)
    (v : value) (n : Z) (r : list byte) :
  byte_val b <> kEtypeDone ->
  validateEname name1 = None -> validateEname name2 = None ->
  length name1 = length name2 ->
  readArray_loop f (b :: name1 ++ x00 :: rest) et elems L a = (v, DOk n r) ->
  readArray_loop f (b :: name2 ++ x00 :: rest) et elems L a = (v, DOk n r).
Proof.
  intros Hb H1 H2 Hlen. destruct f as [|f]; [discriminate|].
  cbn [readArray_loop readEtype ReadByte]. apply Z.eqb_neq in Hb. rewrite Hb.
  rewrite !readEname_key by assumption. rewrite Hlen.
  destruct (validateEtypeCanBeDeserializeToRtype _ et); [discriminate|].
  destruct (new_tmp _ et _) as [[tt tmp]|err]; [|discriminate].
  destruct (readEvalue f rest tt tmp (byte_val b)) as [tmp' res].
  destruct res; try discriminate. exact (fun H => H).
Qed.

Lemma readArray_ignores_names_witness :
  readArray_loop 2 (hex [0x10; 0x78; 0x79; 0; 7; 0; 0; 0; 0]) TInt32 [] 13 4 =
  (VSlice TInt32 (Some [VInt32 7]), DOk 13 []).
Proof.
  apply (readArray_ignores_names 2 (byte_of_Z 0x10) (str "10") (str "xy")
           (hex [7; 0; 0; 0; 0]) TInt32 [] 13 4).
  - vm_compute. discriminate.
  - reflexivity.
  - reflexivity.
  - reflexivity.
  - vm_compute. reflexivity.
Defined.

(** ** A struct target is merged into *)

(** X13.  Decoding the encoding of a struct into a struct target that has its
    fields, with zero content, among others: the fields of the document are
    assigned and every other field of the target keeps the content it had.
    Unlike a map or a slice, a struct target is not reset. *)
Theorem struct_target_merged (fs cs : list (gostring * (rtype * value))) (fuel : nat)
    (p : list byte) :
  repr (TStruct (field_types fs)) (VStruct fs) ->
  NoDup (map fst cs) ->
  (forall n ft v, In (n, (ft, v)) fs -> lookup n cs = Some (ft, zero_value ft)) ->
  appendAny fuel [] (VStruct fs) = ERet p None ->
  decodes_as (TStruct (field_types cs)) (VStruct cs) (VStruct (merge_fields fs cs))
    kEtypeDocument p.
Proof.
  intros Hr Hndc Hcs Hp.
  assert (Hfs : NoDup (map fst fs) /\
                Forall (fun f => fst (snd f) <> TInterface /\
                                 repr (fst (snd f)) (snd (snd f))) fs).
  { inversion Hr as [| | | | | | | | | | |fs' Hnd Hall Heq]; subst. split; assumption. }
  destruct Hfs as (Hnd & Hall). clear Hr.
  destruct fuel as [|[|[|f]]]; try (cbn in Hp; discriminate Hp).
  cbn [appendAny appendOther] in Hp. rewrite struct_doc in Hp by exact Hnd.
  set (doc := map (fun f => (fst f, snd (snd f))) fs) in *.
  apply appendMap_layout in Hp as (body & Hel & -> & Hmax).
  set (ftype := fun key => match lookup key fs with Some (ft, _) => ft | None => TInterface end).
  assert (Hkeys : forall key, In key (sortedKeys doc) <-> In key (map fst fs)).
  { intros key. unfold sortedKeys.
    assert (Hk : map_keys doc = map fst fs).
    { unfold doc, map_keys. rewrite map_map. reflexivity. }
    rewrite <- Hk. split; apply Permutation_in;
      [apply sort_strings_perm|symmetry; apply sort_strings_perm]. }
  assert (Hfield : forall key, In key (sortedKeys doc) ->
             exists ft v, In (key, (ft, v)) fs /\ lookup key fs = Some (ft, v) /\
                          doc_get key doc = v /\ ftype key = ft).
  { intros key Hin. apply Hkeys in Hin. apply in_map_iff in Hin as ([n [ft v]] & Hn & Hin).
    cbn in Hn. subst n. exists ft, v.
    destruct (struct_doc_get fs key ft v Hnd Hin) as (Hl & Hg).
    repeat split; try assumption. unfold ftype. now rewrite Hl. }
  assert (Hndk : NoDup (sortedKeys doc)).
  { eapply Permutation_NoDup; [symmetry; apply sort_strings_perm|].
    unfold doc, map_keys. rewrite map_map. exact Hnd. }
  destruct (readStruct_loop_elements (appendAny f) doc ftype _ _ Hel Hndk) as (F0 & Hloop).
  { intros key Hin. destruct (Hfield key Hin) as (ft & v & Hi & Hl & Hg & Hft).
    rewrite Hg, Hft. rewrite Forall_forall in Hall.
    destruct (Hall _ Hi) as (Hne & Hrv). cbn in Hne, Hrv. split.
    - intros tag Htag. exact (proj1 (repr_slot_concrete ft v Hrv Hne tag Htag)).
    - now apply round_trip_value. }
  exists (S (S F0)). intros F rest HF.
  destruct F as [|[|F]]; try lia.
  rewrite length_doc_bytes. rewrite app_nil_l, <- !app_assoc.
  change ([x00] ++ rest) with (x00 :: rest).
  cbn [readEvalue]. eval_tags. cbn [Kind readStruct].
  rewrite readInt32_app.
  rewrite Hloop.
  - rewrite fold_set_fields by exact Hndc.
    replace (map _ cs) with (merge_fields fs cs); [apply at_terminator_ok; lia|].
    unfold merge_fields. apply map_ext_in. intros [n [ft v]] Hin. cbn [fst snd].
    do 2 f_equal.
    destruct (in_dec (list_eq_dec Byte.byte_eq_dec) n (sortedKeys doc)) as [Hk|Hk].
    + rewrite fold_assign_present by exact Hk.
      destruct (Hfield n Hk) as (ft' & v' & _ & Hl & Hg & _). now rewrite Hl, Hg.
    + rewrite fold_assign_absent by exact Hk.
      rewrite (lookup_not_in n fs); [reflexivity|].
      intros Hn. apply Hk, Hkeys. exact Hn.
  - lia.
  - intros key Hin. destruct (Hfield key Hin) as (ft & v & Hi & Hl & Hg & Hft).
    rewrite Hft. exact (Hcs key ft v Hi).
Qed.

Lemma struct_target_merged_witness :
  decodes_as
    (TStruct [(str "A", TInt32); (str "B", TString)])
    (VStruct [(str "A", (TInt32, VInt32 0)); (str "B", (TString, VString (str "kept")))])
    (VStruct [(str "A", (TInt32, VInt32 7)); (str "B", (TString, VString (str "kept")))])
    kEtypeDocument
    (hex [12; 0; 0; 0; 0x10; 0x41; 0; 7; 0; 0; 0; 0]).
Proof.
  apply (struct_target_merged
           [(str "A", (TInt32, VInt32 7))]
           [(str "A", (TInt32, VInt32 0)); (str "B", (TString, VString (str "kept")))]
           4).
  - apply (repr_struct [(str "A", (TInt32, VInt32 7))]).
    + repeat constructor. intros [].
    + repeat constructor; cbn; try discriminate; unfold in_int32; lia.
  - repeat constructor; cbn; intuition discriminate.
  - intros n ft v [H|[]]. injection H as <- <- <-. reflexivity.
  - vm_compute. reflexivity.
Defined.

(** ** The encoding determines the document *)

Lemma repr_tag (t : rtype) (v1 v2 : value) (tag1 tag2 : Z) :
  repr t v1 -> repr t v2 -> t <> TInterface ->
  getEtype v1 = GRet tag1 None -> getEtype v2 = GRet tag2 None -> tag1 = tag2.
Proof.
  intros H1 H2 Ht. inversion H1; subst; inversion H2; subst; cbn; congruence.
Qed.

Lemma encoding_determines_value (t : rtype) (v1 v2 : value) (f1 f2 : nat) (p : list byte) :
  repr t v1 -> repr t v2 -> t <> TInterface ->
  appendAny f1 [] v1 = ERet p None -> appendAny f2 [] v2 = ERet p None -> v1 = v2.
Proof.
  intros H1 H2 Ht Hp1 Hp2.
  destruct (round_trip_value f1 t v1 H1 Ht p Hp1) as (tag1 & Hg1 & _ & Hd1).
  destruct (round_trip_value f2 t v2 H2 Ht p Hp2) as (tag2 & Hg2 & _ & Hd2).
  pose proof (repr_tag t v1 v2 tag1 tag2 H1 H2 Ht Hg1 Hg2). subst tag2.
  destruct (Hd1 (zero_value t) (target_init_zero t)) as (F1 & HF1).
  destruct (Hd2 (zero_value t) (target_init_zero t)) as (F2 & HF2).
  specialize (HF1 (Nat.max F1 F2) [] ltac:(lia)).
  specialize (HF2 (Nat.max F1 F2) [] ltac:(lia)).
  rewrite HF1 in HF2. now injection HF2.
Qed.

Lemma Marshal_success (t : rtype) (D : value) (B : list byte) :
  repr t D -> top_level t -> Marshal D = ERet B None ->
  appendAny (3 * vsize D) [] D = ERet B None.
Proof.
  intros Hr Htop HM. unfold Marshal in HM.
  destruct Htop as [(fields & ->)|(et & ->)]; inversion Hr; subst;
    cbn [Marshal_at validate64bit TypeOf Kind rkind_eqb negb andb] in HM;
    destruct (appendAny _ [] _) as [o [e|]| |]; try discriminate HM; exact HM.
Qed.

(** X14.  [Marshal] is injective on the representable documents of a type: two
    of them with the same encoding are equal. *)
Theorem Marshal_injective (t : rtype) (D1 D2 : value) (B : list byte) :
  top_level t -> repr t D1 -> repr t D2 ->
  Marshal D1 = ERet B None -> Marshal D2 = ERet B None -> D1 = D2.
Proof.
  intros Htop H1 H2 HM1 HM2.
  assert (Ht : t <> TInterface) by (destruct Htop as [(? & ->)|(? & ->)]; discriminate).
  eapply (encoding_determines_value t D1 D2); try eassumption;
    eapply Marshal_success; eassumption.
Qed.

Lemma Marshal_injective_witness :
  VMap TString TInt32 (Some [(str "a", VInt32 1)]) =
  VMap TString TInt32 (Some [(str "a", VInt32 1)]).
Proof.
  apply (Marshal_injective (TMap TString TInt32) _ _
           (hex [12; 0; 0; 0; 0x10; 0x61; 0; 1; 0; 0; 0; 0])).
  - right. eexists. reflexivity.
  - constructor; [repeat constructor; intros []|reflexivity|].
    repeat constructor. unfold in_int32. cbn. lia.
  - constructor; [repeat constructor; intros []|reflexivity|].
    repeat constructor. unfold in_int32. cbn. lia.
  - vm_compute. reflexivity.
  - vm_compute. reflexivity.
Defined.

(** ** The encoder ends on every value *)

Lemma list_sum_in (x : nat) (l : list nat) : In x l -> (x <= list_sum l)%nat.
Proof.
  induction l as [|y l IH]; [intros []|]. rewrite list_sum_cons.
  intros [->|H]; [lia|]. specialize (IH H). lia.
Qed.

Lemma fold_map_set_values {E : Type} (kf : E -> gostring) (vf : E -> value) (l : list E) :
  forall acc key v,
    lookup key (fold_left (fun result e => map_set (kf e) (vf e) result) l acc) = Some v ->
    In v (map vf l) \/ lookup key acc = Some v.
Proof.
  induction l as [|e l IH]; intros acc key v H; cbn in H; [now right|].
  destruct (IH _ _ _ H) as [Hin|Hl]; [left; now right|].
  rewrite lookup_map_set in Hl. destruct (gostring_eqb key (kf e)).
  - injection Hl as <-. left. now left.
  - now right.
Qed.

Lemma appendMap_loop_more_fuel (rec rec' : list byte -> value -> eres)
    (doc : list (gostring * value)) :
  (forall b v, rec b v <> EOutOfFuel -> rec' b v = rec b v) ->
  forall keys b,
    appendMap_loop rec doc keys b <> EOutOfFuel ->
    appendMap_loop rec' doc keys b = appendMap_loop rec doc keys b.
Proof.
  intros Hrec. induction keys as [|key keys IH]; intros b H; [reflexivity|].
  cbn [appendMap_loop] in H |- *. cbv zeta in H |- *.
  destruct (validateEname key); [reflexivity|].
  destruct (getEtype _) as [et [err|]|]; try reflexivity.
  destruct (rec _ _) as [b' [e|]| |] eqn:E.
  - rewrite Hrec by (rewrite E; discriminate). rewrite E. reflexivity.
  - rewrite Hrec by (rewrite E; discriminate). rewrite E. apply IH. exact H.
  - rewrite Hrec by (rewrite E; discriminate). rewrite E. reflexivity.
  - exfalso. apply H. reflexivity.
Qed.

Lemma appendMap_finish_fuel (s : nat) (r : eres) :
  appendMap_finish s r <> EOutOfFuel <-> r <> EOutOfFuel.
Proof.
  destruct r as [b [e|]| |]; cbn; try tauto.
  destruct (_ || _); split; discriminate.
Qed.

Lemma encoder_fuel_stable (f : nat) :
  (forall b v, appendAny f b v <> EOutOfFuel -> appendAny (S f) b v = appendAny f b v) /\
  (forall b doc, appendMap f b doc <> EOutOfFuel -> appendMap (S f) b doc = appendMap f b doc) /\
  (forall b v, appendOther f b v <> EOutOfFuel -> appendOther (S f) b v = appendOther f b v).
Proof.
  induction f as [|f (IHa & IHm & IHo)].
  - repeat split; intros; cbn in *; congruence.
  - repeat split.
    + intros b v H.
      destruct v as [| | | | | | | | | |kt et m|et s|fs|t [p|]]; try reflexivity;
        try exact (IHo b _ H).
      exact (IHa b p H).
    + intros b doc H. cbn [appendMap] in H |- *. cbv zeta in H |- *.
      apply appendMap_finish_fuel in H.
      now rewrite (appendMap_loop_more_fuel (appendAny f) (appendAny (S f)) doc IHa).
    + intros b v H.
      destruct v as [| | | | | | | | | |kt et m|et s|fs|t [p|]]; try reflexivity;
        cbn [appendOther] in H |- *; try exact (IHm b _ H).
      destruct (negb _); [reflexivity|exact (IHm b _ H)].
Qed.

Lemma encoder_fuel_le (R : nat -> eres) :
  (forall f, R f <> EOutOfFuel -> R (S f) = R f) ->
  forall f f', (f <= f')%nat -> R f <> EOutOfFuel -> R f' = R f.
Proof.
  intros HR f f' Hle Hf. induction Hle as [|f' Hle IH]; [reflexivity|].
  rewrite HR; rewrite IH; auto.
Qed.

Lemma appendMap_loop_has_fuel (rec : list byte -> value -> eres)
    (doc : list (gostring * value)) (keys : list gostring) :
  (forall key b tag,
      In key keys -> getEtype (doc_get key doc) = GRet tag None ->
      rec b (doc_get key doc) <> EOutOfFuel) ->
  forall b, appendMap_loop rec doc keys b <> EOutOfFuel.
Proof.
  induction keys as [|key keys IH]; intros Hrec b; [discriminate|].
  cbn [appendMap_loop]. cbv zeta. fold (doc_get key doc).
  destruct (validateEname key); [discriminate|].
  destruct (getEtype (doc_get key doc)) as [et [err|]|] eqn:Eg; try discriminate.
  pose proof (Hrec key (((b ++ [byte_of_Z et]) ++ key) ++ [kNullTerminator]) et
                (or_introl eq_refl) Eg) as Hr.
  destruct (rec _ _) as [b' [e|]| |]; try discriminate; [|contradiction].
  apply IH. intros k b0 tag Hin. apply Hrec. now right.
Qed.

Lemma appendAny_has_fuel (n : nat) :
  forall v f b,
    (vsize v <= n)%nat -> (3 * vsize v <= f)%nat -> appendAny f b v <> EOutOfFuel.
Proof.
  induction n as [|n IH]; intros v f b Hn Hf.
  { pose proof (vsize_pos v). lia. }
  assert (Hdoc : forall doc b0 f0,
             (forall key v', lookup key doc = Some v' ->
                             (vsize v' <= n)%nat /\ (3 * vsize v' <= f0)%nat) ->
             appendMap (S f0) b0 doc <> EOutOfFuel).
  { intros doc b0 f0 Hdoc. cbn [appendMap]. cbv zeta.
    apply appendMap_finish_fuel, appendMap_loop_has_fuel.
    intros key b1 tag _ Hg. unfold doc_get in *.
    destruct (lookup key doc) as [v'|] eqn:El; [|discriminate Hg].
    destruct (Hdoc key v' El). now apply IH. }
  pose proof (vsize_pos v) as Hpos.
  destruct f as [|[|[|f]]]; try lia.
  destruct v as [| | | | | | | | | |kt et m|et s|fs|t [p|]];
    try (cbn; discriminate).
  - cbn [appendAny]. destruct (_ >? _); discriminate.
  - cbn [appendAny]. destruct (_ >? _); discriminate.
  - (* map *)
    cbn [appendAny appendOther]. destruct (negb _); [discriminate|].
    apply Hdoc. intros key v' Hl. destruct m as [m|]; [|discriminate Hl].
    destruct (fold_map_set_values fst snd m [] key v' Hl) as [Hin|Hl']; [|discriminate Hl'].
    rewrite vsize_map in Hn, Hf.
    apply (in_map vsize) in Hin. rewrite map_map in Hin.
    apply list_sum_in in Hin. lia.
  - (* slice *)
    cbn [appendAny appendOther]. apply Hdoc. intros key v' Hl.
    destruct s as [s|]; [|discriminate Hl]. cbn [convertReflectSliceToMapStringAny] in Hl.
    destruct (slice_to_map_values s 0 [] key) as [Hin|Hl']; [|rewrite Hl' in Hl; discriminate Hl].
    unfold doc_get in Hin. rewrite Hl in Hin.
    rewrite vsize_slice in Hn, Hf.
    apply (in_map vsize) in Hin. apply list_sum_in in Hin. lia.
  - (* struct *)
    cbn [appendAny appendOther]. apply Hdoc. intros key v' Hl.
    destruct (fold_map_set_values fst (fun f => snd (snd f)) fs [] key v' Hl)
      as [Hin|Hl']; [|discriminate Hl'].
    rewrite vsize_struct in Hn, Hf.
    apply (in_map vsize) in Hin. rewrite map_map in Hin.
    apply list_sum_in in Hin. lia.
  - (* pointer *)
    change (appendAny (S (S f)) b p <> EOutOfFuel).
    cbn [vsize] in Hn, Hf. apply IH; lia.
Qed.

Lemma appendAny_fuel (f f' : nat) (b : list byte) (v : value) :
  (3 * vsize v <= f)%nat -> (f <= f')%nat -> appendAny f' b v = appendAny f b v.
Proof.
  intros Hf Hle.
  apply (encoder_fuel_le (fun f => appendAny f b v)); [|exact Hle|].
  - intros g. apply (encoder_fuel_stable g).
  - now apply (appendAny_has_fuel (vsize v)).
Qed.

Lemma Marshal_at_fuel (n : nat) :
  forall D f f',
    (vsize D <= n)%nat -> (3 * vsize D <= f)%nat -> (f <= f')%nat ->
    Marshal_at f D <> EOutOfFuel /\ Marshal_at f' D = Marshal_at f D.
Proof.
  induction n as [|n IH]; intros D f f' Hn Hf Hle.
  { pose proof (vsize_pos D). lia. }
  destruct D as [| | | | | | | | | |kt et m|et s|fs|t [p|]];
    cbn [Marshal_at validate64bit TypeOf Kind rkind_eqb negb andb];
    try (split; [discriminate|reflexivity]);
    try (cbn [vsize] in Hn, Hf; apply IH; lia);
    (rewrite (appendAny_fuel f f') by assumption;
     split; [|reflexivity];
     match goal with
     | |- context [appendAny f [] ?v] =>
         pose proof (appendAny_has_fuel (vsize v) v f [] (le_n _) Hf) as H;
         destruct (appendAny f [] v) as [o [e|]| |]; try discriminate; contradiction
     end).
Qed.

(** X2.  The recursion of the encoder always ends on a value: [Marshal] never
    runs out of the fuel it is given, three units for every node of the
    document, and any larger amount of fuel gives the same result. *)
Theorem Marshal_terminates (document : value) (n : nat) :
  Marshal document <> EOutOfFuel /\
  Marshal_at (3 * vsize document + n) document = Marshal document.
Proof.
  unfold Marshal.
  apply (Marshal_at_fuel (vsize document)); lia.
Qed.

(** ** What a successful [Marshal] implies for the entries *)

Lemma elements_entries (rec : list byte -> value -> eres) (doc : list (gostring * value))
    (keys : list gostring) (body : list byte) :
  elements rec doc keys body ->
  forall key, In key keys ->
    validateEname key = None /\
    (exists tag, getEtype (doc_get key doc) = GRet tag None) /\
    exists payload, rec [] (doc_get key doc) = ERet payload None.
Proof.
  induction 1 as [|key keys tag payload body Hval Htag Hrec Hel IH]; intros k Hin;
    [destruct Hin|].
  destruct Hin as [<-|Hin]; [|now apply IH].
  split; [exact Hval|]. split; [now exists tag|now exists payload].
Qed.

Lemma lookup_nodup {A : Type} (k : gostring) (v : A) (m : list (gostring * A)) :
  NoDup (map_keys m) -> In (k, v) m -> lookup k m = Some v.
Proof.
  induction m as [|[k' v'] m IH]; intros Hnd Hin; [destruct Hin|].
  inversion Hnd as [|? ? Hn Hnd']; subst. cbn.
  destruct Hin as [Heq|Hin].
  - injection Heq as -> ->. now rewrite gostring_eqb_refl.
  - destruct (gostring_eqb k k') eqn:E; [|now apply IH].
    apply gostring_eqb_eq in E. subst k'. exfalso. apply Hn.
    change k with (fst (k, v)). now apply in_map.
Qed.

(** X15.  [Marshal] of a map succeeds only if every entry can be encoded: its key
    holds no null byte, its value has an element type (a value of a type
    outside the type switch, such as [uint8], has none) and the value is
    itself encoded without error. *)
Theorem Marshal_success_entries (et : rtype) (m : list (gostring * value))
    (key : gostring) (v : value) (B : list byte) :
  NoDup (map_keys m) -> In (key, v) m ->
  Marshal (VMap TString et (Some m)) = ERet B None ->
  validateEname key = None /\
  (exists tag, getEtype v = GRet tag None) /\
  exists fuel payload, appendAny fuel [] v = ERet payload None.
Proof.
  intros Hnd Hin HM. unfold Marshal in HM.
  cbn [Marshal_at validate64bit TypeOf Kind rkind_eqb negb andb] in HM.
  destruct (appendAny _ [] _) as [o [e|]| |] eqn:Happ; try discriminate HM.
  injection HM as ->.
  destruct (3 * vsize (VMap TString et (Some m)))%nat as [|[|[|f]]];
    try (cbn in Happ; discriminate Happ).
  cbn [appendAny appendOther Kind rkind_eqb negb] in Happ.
  rewrite convert_map_nodup in Happ by exact Hnd.
  apply appendMap_layout in Happ as (body & Hel & _ & _).
  assert (Hk : In key (sortedKeys m)).
  { apply (Permutation_in _ (Permutation_sym (sort_strings_perm _))).
    change key with (fst (key, v)). now apply in_map. }
  destruct (elements_entries _ _ _ _ Hel key Hk) as (Hval & Htag & payload & Hp).
  unfold doc_get in Htag, Hp. rewrite (lookup_nodup key v m Hnd Hin) in Htag, Hp.
  split; [exact Hval|]. split; [exact Htag|]. now exists f, payload.
Qed.

Lemma Marshal_success_entries_witness :
  validateEname (str "a") = None /\
  (exists tag, getEtype (VInt32 1) = GRet tag None) /\
  exists fuel payload, appendAny fuel [] (VInt32 1) = ERet payload None.
Proof.
  apply (Marshal_success_entries TInt32 one_int32 (str "a") (VInt32 1)
           (hex [12; 0; 0; 0; 0x10; 0x61; 0; 1; 0; 0; 0; 0])).
  - repeat constructor. intros [].
  - now left.
  - vm_compute. reflexivity.
Defined.

(** ** The encoder only appends *)

(** X16.  What [appendAny] appends for a value does not depend on the buffer it
    appends to, and the bytes already in the buffer are kept: the size of a
    nested document is patched at its own position only. *)
Theorem appendAny_appends (fuel : nat) (pre : list byte) (v : value) (d : list byte) :
  appendAny fuel [] v = ERet d None ->
  appendAny fuel pre v = ERet (pre ++ d) None.
Proof.
  intros H. pose proof (proj1 (encoder_frames_all fuel) pre [] v) as Hf.
  rewrite H, app_nil_r in Hf. exact Hf.
Qed.

Lemma appendAny_appends_witness :
  appendAny 3 (hex [1; 2; 3]) (VMap TString TInt32 (Some [])) =
  ERet (hex [1; 2; 3] ++ hex [5; 0; 0; 0; 0]) None.
Proof.
  apply (appendAny_appends 3 (hex [1; 2; 3]) (VMap TString TInt32 (Some []))).
  vm_compute. reflexivity.
Defined.

(** ** Timestamps keep milliseconds *)

(** X17.  A [time.Time] is written as its milliseconds since the epoch, so it is
    read back truncated to the millisecond. *)
Theorem time_truncated_to_milliseconds (sec nsec : Z) (fuel : nat) (p : list byte)
    (old : value) :
  0 <= nsec < 1000000000 ->
  in_int64 (sec * 1000 + nsec / 1000000) ->
  appendAny fuel [] (VTime sec nsec) = ERet p None ->
  decodes_as TTime old (VTime sec (nsec / 1000000 * 1000000)) kEtypeUtcDatetime p.
Proof.
  intros Hn Hr Hp. destruct fuel as [|f]; [discriminate Hp|].
  cbn [appendAny] in Hp. cbv zeta in Hp. apply ERet_inj in Hp. subst p.
  exists 1%nat. intros F rest HF. destruct F as [|F]; [lia|].
  cbn [readEvalue]. eval_tags. cbn [rtype_eqb]. cbv iota. unfold store.
  unfold appendInt64, convertInt64ToBytes. rewrite app_nil_l.
  rewrite readInt64_app, length_le_bytes.
  rewrite !wrap64_id by (try apply wrap64_range; assumption).
  assert (Hk : 0 <= nsec / 1000000 < 1000).
  { split; [apply Z.div_pos; lia|apply Z.div_lt_upper_bound; lia]. }
  rewrite (time_of_millis sec (nsec / 1000000)) by assumption. reflexivity.
Qed.

Lemma time_truncated_to_milliseconds_witness :
  decodes_as TTime VNil (VTime 1 2000000) kEtypeUtcDatetime
    (hex [0xea; 3; 0; 0; 0; 0; 0; 0]).
Proof.
  apply (time_truncated_to_milliseconds 1 2999999 1 (hex [0xea; 3; 0; 0; 0; 0; 0; 0]) VNil).
  - lia.
  - unfold in_int64. cbn. lia.
  - vm_compute. reflexivity.
Defined.
